(** * SafeZone: automated check-in and rescue escalation

    A shallow embedding of the programs of the repository:

    - the SafeZone backend (Express + Socket.IO), whose per-user
      escalation engine is driven by [setTimeout]/[setInterval] callbacks
      and REST handlers that mutate two global maps, [sessions] and
      [timers];
    - the prototype backend [src/backend/server.js] with its [users]
      object;
    - the browser client of the prototype backend (the first lines of
      [src/frontend/script.js]).

    Modelling choices.
    - The global maps are finite maps ([gmap]); a handler or callback is a
      function on the whole [World] (explicit state passing).
    - The Node timer facility is a list of live timers ([queue]); a
      closure handed to [setTimeout] is a constructor of [Callback].
    - [uuid()] draws from a counter, [new Date()] reads the [now] field.
    - The numbers the backend computes with ([intervalMinutes],
      [graceSeconds], the delay of a timer) are binary64 floating-point
      numbers ([float]), multiplied as JavaScript multiplies them.
      Coordinates are only stored and are kept as the decimal they were
      written as ([Q]); counters are integers.
    - Request bodies are typed as the handlers use them; an absent field
      is [None].  [emergencyContacts] is kept as the JavaScript value it
      is, since [dispatchRescue] iterates over whatever was stored.
      [console.log] output is not modelled. *)

From Stdlib Require Import Floats.
From Stdlib Require Import ZArith QArith Qround Lia List String.
From stdpp Require Import base gmap strings list option.

Open Scope Z_scope.

(** A decimal literal denotes the nearest binary64 number, as it does in
    JavaScript. *)
Set Warnings "-inexact-float".

(** ** Values *)

Definition Uuid := nat.
Definition TimerId := nat.
Definition Time := Z.

Record Contact := mkContact { contact_name : string; contact_phone : string }.

(** [emergencyContacts] is whatever truthy value the register request
    carried: an array, whose elements may be [null] ([None]), or a value
    that is not an array (a string, a number, [true], an object), kept as
    its JSON text.  An element that is not [null] is kept by the text of
    its [name] and [phone]. *)
Inductive Contacts :=
| ContactArray (cs : list (option Contact))
| NotArray (json : string).

Record Location := mkLocation {
  lat : option Q;
  lng : option Q;
  address : option string;
  updatedAt : option Time }.

Record Unit := mkUnit {
  unit_name : string; badge : string; eta : string;
  distance : string; unit_contact : string }.

Inductive IncidentStatus := DISPATCHED | RESOLVED.

Record Incident := mkIncident {
  inc_id : Uuid;
  inc_userId : string;
  inc_location : Location;
  inc_phone : string;
  inc_contacts : Contacts;
  inc_missedCalls : Z;
  dispatchedAt : Time;
  status : IncidentStatus;
  resolvedAt : option Time;
  unit : Unit }.

(** A template literal is kept as its fragments. *)
Inductive Frag :=
| Txt (s : string)
| Num (x : float)
| NumZ (z : Z)
| OptZ (z : option Z)
| OptStr (s : option string).

(** The [extra] argument of [addLog], spread into the entry. *)
Inductive Extra :=
| ExtraNone
| ExtraCall (callNumber : option Z)
| ExtraMissed (callNumber missedCalls : Z)
| ExtraIncident (incident : Incident).

Record LogEntry := mkLogEntry {
  entry_id : Uuid;
  entry_type : string;
  entry_message : list Frag;
  entry_ts : Time;
  entry_extra : Extra }.

Record Checkin := mkCheckin {
  checkin_id : Uuid;
  startedAt : Time;
  responded : bool;
  respondedAt : option Time;
  ivrRound : Z;
  missedCalls : Z }.

Record Stats := mkStats {
  totalCheckins : Z;
  missedCheckins : Z;
  rescueDispatches : Z;
  pending : Z }.

(** [activeIncident] is a reference into the heap of incident objects
    ([incidents] below): the handler for /api/incident/resolve mutates
    the object before it drops the reference. *)
Record Session := mkSession {
  userId : string;
  name : string;
  phone : string;
  emergencyContacts : Contacts;
  enabled : bool;
  intervalMinutes : float;
  graceSeconds : float;
  lastLocation : Location;
  currentCheckin : option Checkin;
  activeIncident : option Uuid;
  log : list LogEntry;
  stats : Stats;
  socketId : option string }.

(** ** Timers *)

(** Keys of the per-user timer object: "checkin", "grace", [`ivr${n}`],
    [`gap${n}`], "broadcast".  The interpolated value is a number, or
    [undefined] when /api/ivr/respond gets no [callNumber]. *)
Inductive Slot :=
| SCheckin
| SGrace
| SIvr (k : option Z)
| SGap (k : option Z)
| SBroadcast.

Global Instance Slot_eq_dec : EqDecision Slot.
Proof. solve_decision. Defined.

Global Instance Slot_countable : Countable Slot.
Proof.
  refine (inj_countable'
    (λ s, match s with
          | SCheckin => inl 0%nat | SGrace => inl 1%nat | SBroadcast => inl 2%nat
          | SIvr k => inr (inl k) | SGap k => inr (inr k)
          end)
    (λ c, match c with
          | inl 0%nat => SCheckin | inl 1%nat => SGrace | inl _ => SBroadcast
          | inr (inl k) => SIvr k | inr (inr k) => SGap k
          end) _).
  by intros [].
Defined.

(** The closures passed to [setTimeout] / [setInterval]. *)
Inductive Callback :=
| CbCheckin (uid : string)
| CbGrace (uid : string)
| CbRing (uid : string) (n : Z)
| CbGap (uid : string) (n : Z)
| CbBroadcast (uid : string) (incidentId : Uuid).

Definition owner (cb : Callback) : string :=
  match cb with
  | CbCheckin u | CbGrace u | CbRing u _ | CbGap u _ | CbBroadcast u _ => u
  end.

Record Timer := mkTimer {
  timer_id : TimerId;
  due : Time;
  period : option Z;
  callback : Callback }.

(** ** Events pushed to the subscriber *)

Inductive EventData :=
| log_entry (e : LogEntry)
| checkin_ping (checkinId : Uuid) (grace : float) (msg : string)
| grace_expired (checkinId : Uuid)
| ivr_call (callNumber : Z) (to : string) (ringSeconds : Z)
| ivr_missed (callNumber missed : Z)
| ivr_gap (nextCall gapSeconds : Z)
| evaluate (missed threshold : Z)
| monitor_resumed (msg : string)
| rescue_dispatched (incident : Incident)
| sms_sent (contact : Contact) (location : Location)
| location_broadcast (location : Location) (incidentId : Uuid)
| monitor_enabled (interval grace : float) (demo : bool)
| monitor_disabled
| checkin_ok (msg : string)
| ivr_answered (callNumber : option Z) (msg : string)
| incident_resolved (msg : string)
| socket_registered (uid : string).

Record Event := mkEvent {
  event_socket : string;
  event_data : EventData;
  event_ts : option Time }.

(** ** The process state *)

Record World := mkWorld {
  sessions : gmap string Session;
  timers : gmap string (gmap Slot TimerId);
  incidents : gmap Uuid Incident;
  queue : list Timer;
  now : Time;
  next_uuid : Uuid;
  next_timer : TimerId;
  outbox : list Event;
  uncaught : option string }.

Definition init : World :=
  mkWorld ∅ ∅ ∅ [] 0 0%nat 0%nat [] None.

Definition set_sessions v w :=
  mkWorld v (timers w) (incidents w) (queue w) (now w) (next_uuid w)
          (next_timer w) (outbox w) (uncaught w).
Definition set_timers v w :=
  mkWorld (sessions w) v (incidents w) (queue w) (now w) (next_uuid w)
          (next_timer w) (outbox w) (uncaught w).
Definition set_incidents v w :=
  mkWorld (sessions w) (timers w) v (queue w) (now w) (next_uuid w)
          (next_timer w) (outbox w) (uncaught w).
Definition set_queue v w :=
  mkWorld (sessions w) (timers w) (incidents w) v (now w) (next_uuid w)
          (next_timer w) (outbox w) (uncaught w).
Definition set_now v w :=
  mkWorld (sessions w) (timers w) (incidents w) (queue w) v (next_uuid w)
          (next_timer w) (outbox w) (uncaught w).
Definition set_next_uuid v w :=
  mkWorld (sessions w) (timers w) (incidents w) (queue w) (now w) v
          (next_timer w) (outbox w) (uncaught w).
Definition set_next_timer v w :=
  mkWorld (sessions w) (timers w) (incidents w) (queue w) (now w) (next_uuid w)
          v (outbox w) (uncaught w).
Definition set_outbox v w :=
  mkWorld (sessions w) (timers w) (incidents w) (queue w) (now w) (next_uuid w)
          (next_timer w) v (uncaught w).
Definition set_uncaught v w :=
  mkWorld (sessions w) (timers w) (incidents w) (queue w) (now w) (next_uuid w)
          (next_timer w) (outbox w) v.

(** Field assignments on a session object. *)
Definition set_enabled v s :=
  mkSession (userId s) (name s) (phone s) (emergencyContacts s) v
            (intervalMinutes s) (graceSeconds s) (lastLocation s)
            (currentCheckin s) (activeIncident s) (log s) (stats s) (socketId s).
Definition set_intervalMinutes v s :=
  mkSession (userId s) (name s) (phone s) (emergencyContacts s) (enabled s)
            v (graceSeconds s) (lastLocation s)
            (currentCheckin s) (activeIncident s) (log s) (stats s) (socketId s).
Definition set_graceSeconds v s :=
  mkSession (userId s) (name s) (phone s) (emergencyContacts s) (enabled s)
            (intervalMinutes s) v (lastLocation s)
            (currentCheckin s) (activeIncident s) (log s) (stats s) (socketId s).
Definition set_lastLocation v s :=
  mkSession (userId s) (name s) (phone s) (emergencyContacts s) (enabled s)
            (intervalMinutes s) (graceSeconds s) v
            (currentCheckin s) (activeIncident s) (log s) (stats s) (socketId s).
Definition set_currentCheckin v s :=
  mkSession (userId s) (name s) (phone s) (emergencyContacts s) (enabled s)
            (intervalMinutes s) (graceSeconds s) (lastLocation s)
            v (activeIncident s) (log s) (stats s) (socketId s).
Definition set_activeIncident v s :=
  mkSession (userId s) (name s) (phone s) (emergencyContacts s) (enabled s)
            (intervalMinutes s) (graceSeconds s) (lastLocation s)
            (currentCheckin s) v (log s) (stats s) (socketId s).
Definition set_log v s :=
  mkSession (userId s) (name s) (phone s) (emergencyContacts s) (enabled s)
            (intervalMinutes s) (graceSeconds s) (lastLocation s)
            (currentCheckin s) (activeIncident s) v (stats s) (socketId s).
Definition set_stats v s :=
  mkSession (userId s) (name s) (phone s) (emergencyContacts s) (enabled s)
            (intervalMinutes s) (graceSeconds s) (lastLocation s)
            (currentCheckin s) (activeIncident s) (log s) v (socketId s).
Definition set_socketId v s :=
  mkSession (userId s) (name s) (phone s) (emergencyContacts s) (enabled s)
            (intervalMinutes s) (graceSeconds s) (lastLocation s)
            (currentCheckin s) (activeIncident s) (log s) (stats s) v.

(** Assignments through [s.currentCheckin] and [s.stats]. *)
Definition upd_checkin (f : Checkin → Checkin) (s : Session) : Session :=
  set_currentCheckin
    (match currentCheckin s with Some c => Some (f c) | None => None end) s.
Definition upd_stats (f : Stats → Stats) (s : Session) : Session :=
  set_stats (f (stats s)) s.

(** [s.field = v] on the object stored under [uid]. *)
Definition upd_session (uid : string) (f : Session → Session) (w : World) : World :=
  set_sessions (alter f uid (sessions w)) w.

(** ** JavaScript truthiness for the typed fields *)

Definition truthy_str (s : string) : bool := negb (String.eqb s "").
(** A number is falsy when it is [0], [-0] or [NaN]. *)
Definition truthy_num (x : float) : bool := negb (x =? 0)%float && negb (is_nan x).

(** [a || b] where [a] may be absent. *)
Definition js_or {A} (truthy : A → bool) (a b : option A) : option A :=
  match a with
  | Some x => if truthy x then Some x else b
  | None => b
  end.

(** ** Runtime services *)

Definition uuid (w : World) : Uuid * World :=
  (next_uuid w, set_next_uuid (S (next_uuid w)) w).

(** The exact value of a finite number; [NaN] and the infinities have
    none. *)
Definition num_val (x : float) : option Q :=
  match Prim2SF x with
  | S754_zero _ => Some 0%Q
  | S754_finite sign m e =>
      let n := if sign then Z.neg m else Z.pos m in
      Some (if 0 <=? e then inject_Z (n * 2 ^ e) else Qmake n (2 ^ Z.to_pos (- e)))
  | S754_infinity _ | S754_nan => None
  end.

(** Node coerces the delay of a timer,
    [if (!(after >= 1 && after <= TIMEOUT_MAX)) after = 1], so that a
    delay outside [1, 2^31-1] ms, [NaN] included, becomes 1 ms; the
    fractional part is dropped. *)
Definition TIMEOUT_MAX : Z := 2147483647.

Definition timer_ms (delay : float) : Z :=
  match num_val delay with
  | Some d =>
      if Qle_bool 1 d && Qle_bool d (inject_Z TIMEOUT_MAX) then Qfloor d else 1
  | None => 1
  end.

Definition setTimeout (cb : Callback) (delay : float) (w : World) : TimerId * World :=
  let h := next_timer w in
  (h, set_next_timer (S h)
        (set_queue (queue w ++ [mkTimer h (now w + timer_ms delay) None cb]) w)).

Definition setInterval (cb : Callback) (delay : float) (w : World) : TimerId * World :=
  let h := next_timer w in
  (h, set_next_timer (S h)
        (set_queue (queue w ++ [mkTimer h (now w + timer_ms delay)
                                        (Some (timer_ms delay)) cb]) w)).

(** [clearTimeout] and [clearInterval] are the same operation in Node:
    the timer leaves the list. *)
Definition cancel (h : TimerId) (q : list Timer) : list Timer :=
  filter (λ t, timer_id t ≠ h) q.

Definition clearTimeout (h : TimerId) (w : World) : World :=
  set_queue (cancel h (queue w)) w.

(** ** Helpers of the backend *)

(** One key of [clearTimers]: [if (t[k]) { clearTimeout(t[k]); delete t[k] }],
    on the timer object and the list of live timers. *)
Definition clearSlot (st : gmap Slot TimerId * list Timer) (k : Slot)
  : gmap Slot TimerId * list Timer :=
  match st.1 !! k with
  | Some h => (delete k st.1, cancel h st.2)
  | None => st
  end.

(** The keys [clearTimers] walks: the ones given, or every key. *)
Definition keys_of (keys : list Slot) (t : gmap Slot TimerId) : list Slot :=
  match keys with
  | [] => (map_to_list t).*1
  | _ => keys
  end.

Definition cleared (keys : list Slot) (t : gmap Slot TimerId) (q : list Timer)
  : gmap Slot TimerId * list Timer :=
  foldl clearSlot (t, q) (keys_of keys t).

(** [timers.get(userId) || {}]. *)
Definition slots_of (uid : string) (tm : gmap string (gmap Slot TimerId))
  : gmap Slot TimerId :=
  default ∅ (tm !! uid).

Definition cleared_slots (keys : list Slot) (t : gmap Slot TimerId) (q : list Timer)
  : gmap Slot TimerId := (cleared keys t q).1.

Definition cleared_queue (keys : list Slot) (t : gmap Slot TimerId) (q : list Timer)
  : list Timer := (cleared keys t q).2.

(** [clearTimers(userId, ...keys)]. *)
Definition clearTimers (uid : string) (keys : list Slot) (w : World) : World :=
  let t := slots_of uid (timers w) in
  set_timers (<[uid := cleared_slots keys t (queue w)]> (timers w))
             (set_queue (cleared_queue keys t (queue w)) w).

(** [timers.set(userId, { ...timers.get(userId), [k]: h })]. *)
Definition set_slot (uid : string) (k : Slot) (h : TimerId) (w : World) : World :=
  set_timers (<[uid := <[k := h]> (slots_of uid (timers w))]> (timers w)) w.

Definition emit (uid : string) (data : EventData) (w : World) : World :=
  match sessions w !! uid with
  | Some s =>
      match socketId s with
      | Some sock =>
          if truthy_str sock
          then set_outbox (outbox w ++ [mkEvent sock data (Some (now w))]) w
          else w
      | None => w
      end
  | None => w
  end.

(** [s.log.unshift(entry); if (s.log.length > 100) s.log.pop()]. *)
Definition log_push (entry : LogEntry) (l : list LogEntry) : list LogEntry :=
  let l' := entry :: l in
  if (100 <? length l')%nat then removelast l' else l'.

(** The spread of [extra] comes last, so the [id] of an incident passed as
    [extra] replaces the fresh one. *)
Definition make_entry (fresh : Uuid) (type : string) (message : list Frag)
    (ts : Time) (extra : Extra) : LogEntry :=
  mkLogEntry (match extra with ExtraIncident i => inc_id i | _ => fresh end)
             type message ts extra.

Definition addLog (uid : string) (type : string) (message : list Frag)
    (extra : Extra) (w : World) : World :=
  match sessions w !! uid with
  | None => w
  | Some _ =>
      let '(i, w) := uuid w in
      let entry := make_entry i type message (now w) extra in
      let w := upd_session uid (λ s, set_log (log_push entry (log s)) s) w in
      emit uid (log_entry entry) w
  end.

(** ** Core engine *)

Definition scheduleNextCheckin (uid : string) (w : World) : World :=
  match sessions w !! uid with
  | None => w
  | Some s =>
      if enabled s then
        let delayMs := (intervalMinutes s * 60 * 1000)%float in
        let w := addLog uid "SCHEDULE"
                   [Txt "Next check-in in "; Num (intervalMinutes s); Txt " min"]
                   ExtraNone w in
        let '(t, w) := setTimeout (CbCheckin uid) delayMs w in
        set_slot uid SCheckin t w
      else w
  end.

Definition alphaUnit : Unit :=
  mkUnit "Women Safety Squad — Alpha Unit" "WSS-A-2024" "4 minutes" "1.1 km" "100".

(** The [forEach] over the emergency contacts in [dispatchRescue], with
    the exception it ends on, if any: [c.name] throws on a [null]
    element, and a value that is not an array has no [forEach]. *)
Fixpoint notifyEach (uid : string) (loc : Location) (cs : list (option Contact))
    (w : World) : World * option string :=
  match cs with
  | [] => (w, None)
  | None :: _ => (w, Some "TypeError")
  | Some c :: cs' =>
      notifyEach uid loc cs'
        (emit uid (sms_sent c loc)
           (addLog uid "SMS_SENT"
              [Txt "📱 Alert SMS → "; Txt (contact_name c); Txt " (";
               Txt (contact_phone c); Txt ")"] ExtraNone w))
  end.

Definition notifyContacts (uid : string) (cs : Contacts) (loc : Location)
    (w : World) : World * option string :=
  match cs with
  | ContactArray l => notifyEach uid loc l w
  | NotArray _ => (w, Some "TypeError")
  end.

(** [s.currentCheckin.missedCalls] throws when there is no cycle, and the
    [forEach] may throw; an exception in a timer callback is uncaught,
    and the statements after it do not run. *)
Definition dispatchRescue (uid : string) (w : World) : World :=
  match sessions w !! uid with
  | None => w
  | Some s =>
      let '(i, w) := uuid w in
      match currentCheckin s with
      | None => set_uncaught (Some "TypeError") w
      | Some c =>
          let incident :=
            mkIncident i uid (lastLocation s) (phone s) (emergencyContacts s)
                       (missedCalls c) (now w) DISPATCHED None alphaUnit in
          let w := set_incidents (<[i := incident]> (incidents w)) w in
          let w := upd_session uid
                     (upd_stats (λ st, mkStats (totalCheckins st) (missedCheckins st)
                                               (rescueDispatches st + 1) (pending st))) w in
          let w := upd_session uid (set_activeIncident (Some i)) w in
          let w := addLog uid "RESCUE"
                     [Txt "🚨 RESCUE DISPATCHED → "; OptStr (address (lastLocation s))]
                     (ExtraIncident incident) w in
          let w := emit uid (rescue_dispatched incident) w in
          match notifyContacts uid (emergencyContacts s) (lastLocation s) w with
          | (w, Some exn) => set_uncaught (Some exn) w
          | (w, None) =>
              let '(broadcast, w) := setInterval (CbBroadcast uid i) 10000 w in
              set_slot uid SBroadcast broadcast w
          end
      end
  end.

(** The interval callback of [dispatchRescue]; [self] is its own handle. *)
Definition broadcastTick (uid : string) (incidentId : Uuid) (self : TimerId)
    (w : World) : World :=
  match sessions w !! uid with
  | Some s2 =>
      match activeIncident s2 with
      | Some _ => emit uid (location_broadcast (lastLocation s2) incidentId) w
      | None => clearTimeout self w
      end
  | None => clearTimeout self w
  end.

Definition evaluateAndDispatch (uid : string) (w : World) : World :=
  match sessions w !! uid with
  | None => w
  | Some s =>
      match currentCheckin s with
      | None => w
      | Some c =>
          let missed := missedCalls c in
          let w := addLog uid "EVALUATE"
                     [NumZ missed; Txt "/3 calls missed — evaluating rescue threshold"]
                     ExtraNone w in
          let w := emit uid (evaluate missed 2) w in
          if 2 <=? missed then dispatchRescue uid w
          else
            let w := addLog uid "RESUME"
                       [Txt "Threshold not reached — monitoring resumed normally"]
                       ExtraNone w in
            let w := emit uid (monitor_resumed "All ok. Monitoring resumes.") w in
            scheduleNextCheckin uid w
      end
  end.

(** The ring timer of [startIVR(userId, n)]. *)
Definition ringExpired (uid : string) (n : Z) (w : World) : World :=
  match sessions w !! uid with
  | None => w
  | Some s2 =>
      match currentCheckin s2 with
      | None => w
      | Some c =>
          if responded c then w
          else
            let missed := missedCalls c + 1 in
            let w := upd_session uid
                       (upd_checkin (λ c, mkCheckin (checkin_id c) (startedAt c)
                                            (responded c) (respondedAt c) (ivrRound c)
                                            (missedCalls c + 1))) w in
            let w := addLog uid "IVR_MISSED"
                       [Txt "📵 Call #"; NumZ n; Txt " not answered (missed: ";
                        NumZ missed; Txt "/3)"] (ExtraMissed n missed) w in
            let w := emit uid (ivr_missed n missed) w in
            if n <? 3 then
              let '(gap, w) := setTimeout (CbGap uid n) 10000 w in
              let w := set_slot uid (SGap (Some n)) gap w in
              let w := addLog uid "IVR_GAP"
                         [Txt "Waiting 10s before Call #"; NumZ (n + 1); Txt "…"]
                         ExtraNone w in
              emit uid (ivr_gap (n + 1) 10) w
            else evaluateAndDispatch uid w
      end
  end.

Definition startIVR (uid : string) (n : Z) (w : World) : World :=
  match sessions w !! uid with
  | None => w
  | Some s =>
      match currentCheckin s with
      | None => w
      | Some c =>
          if responded c then w
          else
            let w := upd_session uid
                       (upd_checkin (λ c, mkCheckin (checkin_id c) (startedAt c)
                                            (responded c) (respondedAt c) n
                                            (missedCalls c))) w in
            let w := addLog uid "IVR_CALL"
                       [Txt "📞 IVR Call #"; NumZ n; Txt " → "; Txt (phone s)]
                       (ExtraCall (Some n)) w in
            let w := emit uid (ivr_call n (phone s) 15) w in
            let '(ringTimer, w) := setTimeout (CbRing uid n) 15000 w in
            set_slot uid (SIvr (Some n)) ringTimer w
      end
  end.

(** The grace timer of [triggerCheckin]. *)
Definition graceExpired (uid : string) (w : World) : World :=
  match sessions w !! uid with
  | None => w
  | Some s2 =>
      match currentCheckin s2 with
      | None => w
      | Some c =>
          if responded c then w
          else
            let w := upd_session uid
                       (upd_stats (λ st, mkStats (totalCheckins st) (missedCheckins st + 1)
                                                 (rescueDispatches st)
                                                 (Z.max 0 (pending st - 1)))) w in
            let w := addLog uid "GRACE_EXPIRED"
                       [Txt "Grace period elapsed — initiating IVR call sequence"]
                       ExtraNone w in
            let w := emit uid (grace_expired (checkin_id c)) w in
            startIVR uid 1 w
      end
  end.

Definition triggerCheckin (uid : string) (w : World) : World :=
  match sessions w !! uid with
  | None => w
  | Some s =>
      if enabled s then
        let '(i, w) := uuid w in
        let w := upd_session uid
                   (set_currentCheckin (Some (mkCheckin i (now w) false None 0 0))) w in
        let w := upd_session uid
                   (upd_stats (λ st, mkStats (totalCheckins st + 1) (missedCheckins st)
                                             (rescueDispatches st) (pending st + 1))) w in
        let w := addLog uid "CHECKIN"
                   [Txt "Notification sent — user has "; Num (graceSeconds s);
                    Txt "s to respond"] ExtraNone w in
        let w := emit uid (checkin_ping i (graceSeconds s)
                             "Safety check-in! Tap I'M SAFE within the countdown.") w in
        let '(grace, w) := setTimeout (CbGrace uid) (graceSeconds s * 1000)%float w in
        set_slot uid SGrace grace w
      else w
  end.

(** Running the closure of a timer. *)
Definition run_callback (self : TimerId) (cb : Callback) (w : World) : World :=
  match cb with
  | CbCheckin uid => triggerCheckin uid w
  | CbGrace uid => graceExpired uid w
  | CbRing uid n => ringExpired uid n w
  | CbGap uid n => startIVR uid (n + 1) w
  | CbBroadcast uid i => broadcastTick uid i self w
  end.

(** ** REST API *)

Inductive Body :=
| BError (error : string)
| BSuccess (message : option string) (session : option Session)
| BSession (session : Session).

(** A handler answers with a status and a JSON body, or throws; Express
    turns an exception of a handler into a 500. *)
Inductive Response :=
| Json (code : Z) (body : Body)
| Uncaught (exn : string).

(** [a || d] where [d] is always there. *)
Definition or_default {A} (truthy : A → bool) (a : option A) (d : A) : A :=
  match a with
  | Some x => if truthy x then x else d
  | None => d
  end.

Definition always {A} (_ : A) : bool := true.

Definition defaultLocation : Location :=
  mkLocation (Some 9.9312%Q) (Some 76.2673%Q) (Some "Marine Drive, Ernakulam") None.

Definition defaultStats : Stats := mkStats 0 0 0 0.

(** [const { socketId, ...rest } = s]: the handle is erased. *)
Definition safe (s : Session) : Session := set_socketId None s.

Definition post_register (rUserId rName rPhone : option string)
    (rContacts : option Contacts) (rLocation : option Location)
    (w : World) : World * Response :=
  match js_or truthy_str rUserId None with
  | None => (w, Json 400 (BError "userId required"))
  | Some uid =>
      let existing := sessions w !! uid in
      let s :=
        mkSession uid
          (or_default truthy_str rName
             (or_default truthy_str (name <$> existing) "User"))
          (or_default truthy_str rPhone
             (or_default truthy_str (phone <$> existing) "+91-0000000000"))
          (or_default always rContacts
             (or_default always (emergencyContacts <$> existing) (ContactArray [])))
          (or_default id (enabled <$> existing) false)
          (or_default truthy_num (intervalMinutes <$> existing) 30%float)
          (or_default truthy_num (graceSeconds <$> existing) 60%float)
          (or_default always rLocation
             (or_default always (lastLocation <$> existing) defaultLocation))
          None
          None
          (or_default always (log <$> existing) [])
          (or_default always (stats <$> existing) defaultStats)
          (js_or truthy_str (existing ≫= socketId) None) in
      (set_sessions (<[uid := s]> (sessions w)) w,
       Json 200 (BSuccess None (Some (safe s))))
  end.

(** The snapshot [safe(s)] of the object stored under [uid], read when the
    response is built. *)
Definition snapshot (uid : string) (w : World) : option Session :=
  safe <$> sessions w !! uid.

Definition post_checkin_enable (uid : string) (rInterval rGrace : option float)
    (w : World) : World * Response :=
  match sessions w !! uid with
  | None => (w, Json 404 (BError "Session not found. Register first."))
  | Some s =>
      let w := clearTimers uid [] w in
      let w := upd_session uid (set_enabled true) w in
      let im := or_default truthy_num rInterval
                  (or_default truthy_num (Some (intervalMinutes s)) 30%float) in
      let gs := or_default truthy_num rGrace
                  (or_default truthy_num (Some (graceSeconds s)) 60%float) in
      let w := upd_session uid (set_intervalMinutes im) w in
      let w := upd_session uid (set_graceSeconds gs) w in
      let w := upd_session uid (set_currentCheckin None) w in
      let w := upd_session uid (set_activeIncident None) w in
      let w := addLog uid "ENABLED"
                 [Txt "Monitor ON — interval: "; Num im; Txt "m, grace: ";
                  Num gs; Txt "s"] ExtraNone w in
      let w := emit uid (monitor_enabled im gs false) w in
      let w := scheduleNextCheckin uid w in
      (w, Json 200 (BSuccess (Some "Monitor enabled") (snapshot uid w)))
  end.

Definition post_checkin_disable (uid : string) (w : World) : World * Response :=
  match sessions w !! uid with
  | None => (w, Json 404 (BError "Session not found"))
  | Some s =>
      let w := clearTimers uid [] w in
      let w := upd_session uid (set_enabled false) w in
      let w := upd_session uid (set_currentCheckin None) w in
      let w := upd_session uid (set_activeIncident None) w in
      let w := addLog uid "DISABLED" [Txt "Monitor stopped by user"] ExtraNone w in
      let w := emit uid monitor_disabled w in
      (w, Json 200 (BSuccess None None))
  end.

Definition post_checkin_respond (uid : string) (checkinId : option Uuid)
    (w : World) : World * Response :=
  match sessions w !! uid with
  | None => (w, Json 404 (BError "Session not found"))
  | Some s =>
      match currentCheckin s with
      | None => (w, Json 400 (BError "No active check-in"))
      | Some c =>
          if responded c then (w, Json 400 (BError "No active check-in"))
          else if negb (bool_decide (Some (checkin_id c) = checkinId))
          then (w, Json 400 (BError "Check-in ID mismatch"))
          else
            let w := upd_session uid
                       (upd_checkin (λ c, mkCheckin (checkin_id c) (startedAt c) true
                                            (Some (now w)) (ivrRound c) (missedCalls c))) w in
            let w := upd_session uid
                       (upd_stats (λ st, mkStats (totalCheckins st) (missedCheckins st)
                                                 (rescueDispatches st)
                                                 (Z.max 0 (pending st - 1)))) w in
            let w := clearTimers uid
                       [SGrace; SIvr (Some 1); SIvr (Some 2); SIvr (Some 3);
                        SGap (Some 1); SGap (Some 2)] w in
            let w := addLog uid "RESPONDED"
                       [Txt "✅ User confirmed safe via notification"] ExtraNone w in
            let w := emit uid (checkin_ok "Safety confirmed! Next check-in scheduled.") w in
            let w := scheduleNextCheckin uid w in
            (w, Json 200 (BSuccess (Some "Safety confirmed. Next check-in scheduled.") None))
      end
  end.

Definition post_ivr_respond (uid : string) (callNumber : option Z)
    (w : World) : World * Response :=
  match sessions w !! uid with
  | None => (w, Json 404 (BError "No active check-in"))
  | Some s =>
      match currentCheckin s with
      | None => (w, Json 404 (BError "No active check-in"))
      | Some c =>
          if responded c then (w, Json 400 (BError "Already responded"))
          else
            let w := clearTimers uid
                       [SIvr callNumber; SGap callNumber; SGap (Some 1); SGap (Some 2)] w in
            let w := upd_session uid
                       (upd_checkin (λ c, mkCheckin (checkin_id c) (startedAt c) true
                                            (Some (now w)) (ivrRound c) (missedCalls c))) w in
            let w := addLog uid "IVR_OK"
                       [Txt "✅ User answered IVR Call #"; OptZ callNumber;
                        Txt " — confirmed safe"] (ExtraCall callNumber) w in
            let w := emit uid (ivr_answered callNumber
                                 "Call answered — you are confirmed safe!") w in
            let w := scheduleNextCheckin uid w in
            (w, Json 200 (BSuccess (Some "IVR responded. Safe confirmed.") None))
      end
  end.

Definition post_location_update (uid : string) (rLat rLng : option Q)
    (rAddress : option string) (w : World) : World * Response :=
  match sessions w !! uid with
  | None => (w, Json 404 (BError "Session not found"))
  | Some s =>
      let loc := mkLocation rLat rLng
                   (js_or truthy_str rAddress (address (lastLocation s)))
                   (Some (now w)) in
      (upd_session uid (set_lastLocation loc) w, Json 200 (BSuccess None None))
  end.

(** [s.activeIncident?.id === incidentId]: the left side is [undefined]
    without an incident, the right side when the field is absent. *)
Definition post_incident_resolve (uid : string) (incidentId : option Uuid)
    (w : World) : World * Response :=
  match sessions w !! uid with
  | None => (w, Json 404 (BError "Session not found"))
  | Some s =>
      if bool_decide (activeIncident s = incidentId) then
        let w := clearTimers uid [SBroadcast] w in
        match activeIncident s with
        | None => (w, Uncaught "TypeError")
        | Some r =>
            let w := set_incidents
                       (alter (λ i, mkIncident (inc_id i) (inc_userId i) (inc_location i)
                                      (inc_phone i) (inc_contacts i) (inc_missedCalls i)
                                      (dispatchedAt i) RESOLVED (Some (now w)) (unit i))
                              r (incidents w)) w in
            let w := upd_session uid (set_activeIncident None) w in
            let w := upd_session uid (set_currentCheckin None) w in
            let w := addLog uid "RESOLVED"
                       [Txt "Incident resolved. User confirmed safe. Monitoring resumed."]
                       ExtraNone w in
            let w := emit uid (incident_resolved "Incident resolved. Stay safe!") w in
            let w := scheduleNextCheckin uid w in
            (w, Json 200 (BSuccess None None))
        end
      else (w, Json 200 (BSuccess None None))
  end.

Definition get_session (uid : string) (w : World) : World * Response :=
  match sessions w !! uid with
  | None => (w, Json 404 (BError "Session not found"))
  | Some s => (w, Json 200 (BSession (safe s)))
  end.

Definition post_dev_demo (uid : string) (w : World) : World * Response :=
  match sessions w !! uid with
  | None => (w, Json 404 (BError "Session not found"))
  | Some s =>
      let w := clearTimers uid [] w in
      let w := upd_session uid (set_enabled true) w in
      let w := upd_session uid (set_intervalMinutes (5 / 60)%float) w in
      let w := upd_session uid (set_graceSeconds 10%float) w in
      let w := upd_session uid (set_currentCheckin None) w in
      let w := upd_session uid (set_activeIncident None) w in
      let w := addLog uid "DEMO"
                 [Txt "⚡ DEMO MODE: 5s interval, 10s grace, 15s IVR ring"] ExtraNone w in
      let w := emit uid (monitor_enabled (5 / 60)%float 10%float true) w in
      let w := scheduleNextCheckin uid w in
      (w, Json 200 (BSuccess (Some "Demo mode: check-in fires in 5 seconds!") None))
  end.

(** ** WebSocket *)

Definition register_socket (sock : string) (uid : string) (w : World) : World :=
  match sessions w !! uid with
  | Some _ =>
      let w := upd_session uid (set_socketId (Some sock)) w in
      set_outbox (outbox w ++ [mkEvent sock (socket_registered uid) None]) w
  | None => w
  end.

Definition disconnect (sock : string) (w : World) : World :=
  set_sessions
    ((λ s, if bool_decide (socketId s = Some sock) then set_socketId None s else s)
       <$> sessions w) w.

(** ** The timer loop and the inputs of the process *)

(** A timer that fires leaves the list unless it is an interval, which is
    re-armed one period later; its closure then runs at the firing time. *)
Definition rearm (h : TimerId) (at_ : Time) (q : list Timer) : list Timer :=
  (λ t, if bool_decide (timer_id t = h)
        then mkTimer (timer_id t) at_ (period t) (callback t) else t) <$> q.

Definition fire (t : Timer) (w : World) : World :=
  let w := set_now (Z.max (now w) (due t)) w in
  let w := match period t with
           | None => clearTimeout (timer_id t) w
           | Some p => set_queue (rearm (timer_id t) (now w + p) (queue w)) w
           end in
  run_callback (timer_id t) (callback t) w.

Definition find_timer (h : TimerId) (q : list Timer) : option Timer :=
  List.find (λ t, bool_decide (timer_id t = h)) q.





Inductive Op :=
| Register (rUserId rName rPhone : option string)
           (rContacts : option Contacts) (rLocation : option Location)
| Enable (uid : string) (rInterval rGrace : option float)
| Disable (uid : string)
| Respond (uid : string) (checkinId : option Uuid)
| IvrRespond (uid : string) (callNumber : option Z)
| LocationUpdate (uid : string) (rLat rLng : option Q) (rAddress : option string)
| Resolve (uid : string) (incidentId : option Uuid)
| GetSession (uid : string)
| Demo (uid : string)
| RegisterSocket (sock uid : string)
| Disconnect (sock : string)
| Fire (h : TimerId)
| Sleep (until : Time).

(** One input; nothing runs after an uncaught exception of a timer. *)
Definition exec (op : Op) (w : World) : World :=
  match uncaught w with
  | Some _ => w
  | None =>
      match op with
      | Register u n p c l => (post_register u n p c l w).1
      | Enable u i g => (post_checkin_enable u i g w).1
      | Disable u => (post_checkin_disable u w).1
      | Respond u c => (post_checkin_respond u c w).1
      | IvrRespond u n => (post_ivr_respond u n w).1
      | LocationUpdate u a b c => (post_location_update u a b c w).1
      | Resolve u i => (post_incident_resolve u i w).1
      | GetSession u => (get_session u w).1
      | Demo u => (post_dev_demo u w).1
      | RegisterSocket s u => register_socket s u w
      | Disconnect s => disconnect s w
      | Fire h =>
          match find_timer h (queue w) with
          | Some t => fire t w
          | None => w
          end
      | Sleep t => set_now (Z.max (now w) t) w
      end
  end.

Definition run (ops : list Op) (w : World) : World :=
  foldl (λ w op, exec op w) w ops.

(** Inputs the transport can deliver: the id of a socket is not empty. *)
Definition wf_op (op : Op) : bool :=
  match op with
  | RegisterSocket sock _ => truthy_str sock
  | _ => true
  end.

Definition reachable (w : World) : Prop :=
  ∃ ops, forallb wf_op ops = true ∧ w = run ops init.

(** Inputs in the order of the clock: a timer fires only when no live
    timer is due before it, and the clock does not pass a due timer. *)
Definition in_order (op : Op) (w : World) : bool :=
  match op with
  | Fire h =>
      match find_timer h (queue w) with
      | Some t => forallb (λ t', due t <=? due t') (queue w)
      | None => false
      end
  | Sleep t => forallb (λ t', t <=? due t') (queue w)
  | _ => true
  end.

Fixpoint all_in_order (ops : list Op) (w : World) : bool :=
  match ops with
  | [] => true
  | op :: ops' => in_order op w && all_in_order ops' (exec op w)
  end.

(** * The prototype backend (src/backend/server.js)

    [users] is a plain object used as a map from [userId] to
    [{ interval, missedCalls }].  A read [users[k]] of a key that is not an
    own property goes up the prototype chain, so the names of
    [Object.prototype] are defined for every object; assigning under
    ["__proto__"] replaces the prototype.  The file is sloppy-mode code:
    assigning a property of a primitive does nothing. *)
Module Prototype.

Record User := mkUser { interval : option string; pmissedCalls : Z }.

Record Users := mkUsers {
  own : gmap string User;        (* own properties of [users] *)
  proto : option User;           (* the object put in place of the prototype *)
  polluted : bool }.             (* [Object.prototype.missedCalls] exists *)

Definition empty : Users := mkUsers ∅ None false.

Definition object_prototype_keys : list string :=
  ["constructor"; "hasOwnProperty"; "isPrototypeOf"; "propertyIsEnumerable";
   "toLocaleString"; "toString"; "valueOf"; "__defineGetter__";
   "__defineSetter__"; "__lookupGetter__"; "__lookupSetter__"].

(** What [users[k]] evaluates to. *)
Inductive Ref :=
| ROwn (u : User)        (* an entry stored by /start *)
| RProto (u : User)      (* the replaced prototype, read through "__proto__" *)
| RObjectPrototype       (* [Object.prototype], read through "__proto__" *)
| RBuiltin               (* a function of [Object.prototype] *)
| RPrimitive             (* a string or a number *)
| RUndefined.

Definition lookup_key (k : string) (us : Users) : Ref :=
  match own us !! k with
  | Some u => ROwn u
  | None =>
      if String.eqb k "__proto__" then
        match proto us with Some u => RProto u | None => RObjectPrototype end
      else
        let inherited :=
          if bool_decide (k ∈ object_prototype_keys) then RBuiltin
          else if polluted us && String.eqb k "missedCalls" then RPrimitive
          else RUndefined in
        match proto us with
        | Some u =>
            if String.eqb k "interval"
            then match interval u with Some _ => RPrimitive | None => RUndefined end
            else if String.eqb k "missedCalls" then RPrimitive
            else inherited
        | None => inherited
        end
  end.

Inductive Result :=
| Sent (body : string)
| TypeError.

(** POST /start: [users[userId] = { interval, missedCalls: 0 }]. *)
Definition post_start (k : string) (i : option string) (us : Users) : Users * Result :=
  (if String.eqb k "__proto__"
   then mkUsers (own us) (Some (mkUser i 0)) (polluted us)
   else mkUsers (<[k := mkUser i 0]> (own us)) (proto us) (polluted us),
   Sent "Monitoring started").

(** [users[userId].missedCalls = v], where [v] is computed from the entry. *)
Definition assign_missedCalls (k : string) (v : User → Z) (us : Users)
  : option Users :=
  match lookup_key k us with
  | ROwn u =>
      Some (mkUsers (<[k := mkUser (interval u) (v u)]> (own us)) (proto us) (polluted us))
  | RProto u => Some (mkUsers (own us) (Some (mkUser (interval u) (v u))) (polluted us))
  | RObjectPrototype => Some (mkUsers (own us) (proto us) true)
  | RBuiltin | RPrimitive => Some us
  | RUndefined => None
  end.

(** POST /ok. *)
Definition post_ok (k : string) (us : Users) : Users * Result :=
  match assign_missedCalls k (λ _, 0) us with
  | Some us' => (us', Sent "User safe")
  | None => (us, TypeError)
  end.

(** [ivrCall(userId)]; the two [console.log] lines read the entry again and
    print. *)
Definition ivrCall (k : string) (us : Users) : option Users :=
  assign_missedCalls k (λ u, pmissedCalls u + 1) us.

(** POST /location. *)
Definition post_location (k : string) (rLat rLng : option Q) (us : Users)
  : Users * Result :=
  match ivrCall k us with
  | Some us' => (us', Sent "Escalation started")
  | None => (us, TypeError)
  end.

(** A key that was never stored and that nothing up the chain defines. *)
Definition never_registered (k : string) (us : Users) : Prop :=
  own us !! k = None ∧ proto us = None ∧ polluted us = false
  ∧ k ∉ "__proto__" :: object_prototype_keys.

End Prototype.

(** * The browser client (src/frontend/script.js, lines 1-62)

    The page keeps [checkTimer], [intervalMinutes] and the constant
    [userId]; its functions are the click handlers of the page.  The
    timers of the page are a list of live timers, [fetch] appends to the
    list of requests sent, [alert] to the list of dialogs shown.
    [navigator.geolocation.getCurrentPosition(cb)] is a pending request
    that the browser answers later, if at all, with a position. *)
Module Client.

(** The closures handed to [setTimeout]: the one of [startTimer], and
    [triggerEscalation]. *)
Inductive Callback :=
| CbAlert
| CbEscalation.

Global Instance Callback_eq_dec : EqDecision Callback.
Proof. solve_decision. Defined.

Record Timer := mkTimer { timer_id : nat; due : Z; callback : Callback }.

Inductive Request :=
| PostStart (userId : string) (interval : string)
| PostOk (userId : string)
| PostLocation (userId : string) (lat lng : Q).

Record Page := mkPage {
  checkTimer : option nat;           (* [undefined] before the first [startTimer] *)
  intervalMinutes : option string;   (* [undefined] before [startMonitoring] *)
  alertHidden : bool;                (* the class "hidden" of #alertBox *)
  href : option string;              (* [window.location.href], once assigned *)
  queue : list Timer;
  now : Z;
  next_timer : nat;
  locating : nat;                    (* pending [getCurrentPosition] requests *)
  sent : list Request;
  alerts : list string }.

Definition userId : string := "user001".

(** A page just loaded. *)
Definition loaded (hidden : bool) : Page :=
  mkPage None None hidden None [] 0 0%nat 0%nat [] [].

Definition set_checkTimer v p :=
  mkPage v (intervalMinutes p) (alertHidden p) (href p) (queue p) (now p)
         (next_timer p) (locating p) (sent p) (alerts p).
Definition set_intervalMinutes v p :=
  mkPage (checkTimer p) v (alertHidden p) (href p) (queue p) (now p)
         (next_timer p) (locating p) (sent p) (alerts p).
Definition set_alertHidden v p :=
  mkPage (checkTimer p) (intervalMinutes p) v (href p) (queue p) (now p)
         (next_timer p) (locating p) (sent p) (alerts p).
Definition set_href v p :=
  mkPage (checkTimer p) (intervalMinutes p) (alertHidden p) v (queue p) (now p)
         (next_timer p) (locating p) (sent p) (alerts p).
Definition set_queue v p :=
  mkPage (checkTimer p) (intervalMinutes p) (alertHidden p) (href p) v (now p)
         (next_timer p) (locating p) (sent p) (alerts p).
Definition set_now v p :=
  mkPage (checkTimer p) (intervalMinutes p) (alertHidden p) (href p) (queue p) v
         (next_timer p) (locating p) (sent p) (alerts p).
Definition set_next_timer v p :=
  mkPage (checkTimer p) (intervalMinutes p) (alertHidden p) (href p) (queue p) (now p)
         v (locating p) (sent p) (alerts p).
Definition set_locating v p :=
  mkPage (checkTimer p) (intervalMinutes p) (alertHidden p) (href p) (queue p) (now p)
         (next_timer p) v (sent p) (alerts p).

Definition fetch (r : Request) (p : Page) : Page :=
  mkPage (checkTimer p) (intervalMinutes p) (alertHidden p) (href p) (queue p) (now p)
         (next_timer p) (locating p) (sent p ++ [r]) (alerts p).

Definition alert (msg : string) (p : Page) : Page :=
  mkPage (checkTimer p) (intervalMinutes p) (alertHidden p) (href p) (queue p) (now p)
         (next_timer p) (locating p) (sent p) (alerts p ++ [msg]).

Definition setTimeout (cb : Callback) (delay : Z) (p : Page) : nat * Page :=
  let h := next_timer p in
  (h, set_next_timer (S h) (set_queue (queue p ++ [mkTimer h (now p + delay) cb]) p)).

(** [clearTimeout(undefined)] and clearing a timer that has fired do
    nothing. *)
Definition clearTimeout (h : option nat) (p : Page) : Page :=
  match h with
  | Some h => set_queue (filter (λ t, timer_id t ≠ h) (queue p)) p
  | None => p
  end.

Section Handlers.

(** The delay in milliseconds the browser derives from
    [intervalMinutes * 60000]: a function of the text of the input field
    (or of [undefined]). *)
Variable delay_ms : option string → Z.

Definition startTimer (p : Page) : Page :=
  let p := clearTimeout (checkTimer p) p in
  let '(h, p) := setTimeout CbAlert (delay_ms (intervalMinutes p)) p in
  set_checkTimer (Some h) p.

(** [value] is the text of the input field "interval". *)
Definition startMonitoring (value : string) (p : Page) : Page :=
  let p := set_intervalMinutes (Some value) p in
  let p := fetch (PostStart userId value) p in
  let p := startTimer p in
  alert "Safety monitoring enabled" p.

Definition confirmOK (p : Page) : Page :=
  let p := fetch (PostOk userId) p in
  let p := set_alertHidden true p in
  let p := startTimer p in
  alert "Status safe. Timer reset." p.

Definition resetTimer (p : Page) : Page :=
  let p := set_alertHidden true p in
  let p := startTimer p in
  alert "Timer reset manually" p.

Definition makeEmergencyCall (p : Page) : Page := set_href (Some "tel:112") p.

Definition triggerEscalation (p : Page) : Page := set_locating (S (locating p)) p.

(** The success callback of [getCurrentPosition]. *)
Definition position (lat lng : Q) (p : Page) : Page :=
  match locating p with
  | O => p
  | S n => fetch (PostLocation userId lat lng) (set_locating n p)
  end.

(** The closure of [startTimer]: show the alert, arm the escalation. *)
Definition alertDue (p : Page) : Page :=
  let p := set_alertHidden false p in
  (setTimeout CbEscalation 30000 p).2.

Definition run_callback (cb : Callback) (p : Page) : Page :=
  match cb with
  | CbAlert => alertDue p
  | CbEscalation => triggerEscalation p
  end.

Definition fire (t : Timer) (p : Page) : Page :=
  let p := set_now (Z.max (now p) (due t)) p in
  let p := set_queue (filter (λ x, timer_id x ≠ timer_id t) (queue p)) p in
  run_callback (callback t) p.

(** What happens to the page: clicks, timers, positions. *)
Inductive Op :=
| StartMonitoring (value : string)
| ConfirmOK
| ResetTimer
| EmergencyCall
| Fire (h : nat)
| Position (lat lng : Q).

Definition exec (op : Op) (p : Page) : Page :=
  match op with
  | StartMonitoring v => startMonitoring v p
  | ConfirmOK => confirmOK p
  | ResetTimer => resetTimer p
  | EmergencyCall => makeEmergencyCall p
  | Fire h =>
      match List.find (λ t, bool_decide (timer_id t = h)) (queue p) with
      | Some t => fire t p
      | None => p
      end
  | Position la lo => position la lo p
  end.

Definition run (ops : list Op) (p : Page) : Page := foldl (λ p op, exec op p) p ops.

End Handlers.

(** The backend handler a request is for. *)
Definition serve (r : Request) (us : Prototype.Users) : Prototype.Users * Prototype.Result :=
  match r with
  | PostStart k i => Prototype.post_start k (Some i) us
  | PostOk k => Prototype.post_ok k us
  | PostLocation k la lo => Prototype.post_location k (Some la) (Some lo) us
  end.

(** The answers of the backend to requests that arrive in the order
    given. *)
Fixpoint answers (rs : list Request) (us : Prototype.Users) : list Prototype.Result :=
  match rs with
  | [] => []
  | r :: rs' => (serve r us).2 :: answers rs' (serve r us).1
  end.

End Client.

(** * Notions used in the statements *)

(** The events [emit] delivers for a subscriber handle. *)
Definition events_to (sock : option string) (t : Time) (d : EventData) : list Event :=
  match sock with
  | Some k => if truthy_str k then [mkEvent k d (Some t)] else []
  | None => []
  end.

(** Net effect of [notifyContacts] on the log and on the outbox. *)
Definition sms_entry (nu : Uuid) (t : Time) (c : Contact) : LogEntry :=
  make_entry nu "SMS_SENT"
    [Txt "📱 Alert SMS → "; Txt (contact_name c); Txt " (";
     Txt (contact_phone c); Txt ")"] t ExtraNone.

Fixpoint sms_log (nu : Uuid) (t : Time) (cs : list Contact) (l : list LogEntry)
  : list LogEntry :=
  match cs with
  | [] => l
  | c :: cs' => sms_log (S nu) t cs' (log_push (sms_entry nu t c) l)
  end.

Fixpoint sms_out (sock : option string) (nu : Uuid) (t : Time) (loc : Location)
    (cs : list Contact) : list Event :=
  match cs with
  | [] => []
  | c :: cs' =>
      events_to sock t (log_entry (sms_entry nu t c))
      ++ events_to sock t (sms_sent c loc) ++ sms_out sock (S nu) t loc cs'
  end.

(** The contacts the [forEach] of [dispatchRescue] gets through, and the
    exception it ends on. *)
Fixpoint notified_of (cs : list (option Contact)) : list Contact :=
  match cs with
  | Some c :: cs' => c :: notified_of cs'
  | _ => []
  end.

Definition notified (cv : Contacts) : list Contact :=
  match cv with
  | ContactArray l => notified_of l
  | NotArray _ => []
  end.

Fixpoint thrown_of (cs : list (option Contact)) : option string :=
  match cs with
  | [] => None
  | None :: _ => Some "TypeError"
  | Some _ :: cs' => thrown_of cs'
  end.

Definition thrown (cv : Contacts) : option string :=
  match cv with
  | ContactArray l => thrown_of l
  | NotArray _ => Some "TypeError"
  end.

(** Contacts as the program expects them: an array without [null]
    elements. *)
Definition contact_list (cv : Contacts) : Prop :=
  ∃ cs, cv = ContactArray (Some <$> cs).

(** The log stays within its bound. *)
Definition log_grows (l l' : list LogEntry) : Prop :=
  (length l ≤ 100 → length l' ≤ 100)%nat.

(** Assignments to the fields of a cycle and of the counters. *)
Definition set_round (n : Z) (c : Checkin) : Checkin :=
  mkCheckin (checkin_id c) (startedAt c) (responded c) (respondedAt c) n (missedCalls c).
Definition add_missed (c : Checkin) : Checkin :=
  mkCheckin (checkin_id c) (startedAt c) (responded c) (respondedAt c) (ivrRound c)
            (missedCalls c + 1).
Definition set_responded (t : Time) (c : Checkin) : Checkin :=
  mkCheckin (checkin_id c) (startedAt c) true (Some t) (ivrRound c) (missedCalls c).

(** [supplied || prior || dflt] on numbers. *)
Definition effective (supplied : option float) (prior dflt : float) : float :=
  or_default truthy_num supplied (or_default truthy_num (Some prior) dflt).

Definition resolve (t : Time) (i : Incident) : Incident :=
  mkIncident (inc_id i) (inc_userId i) (inc_location i) (inc_phone i) (inc_contacts i)
             (inc_missedCalls i) (dispatchedAt i) RESOLVED (Some t) (unit i).

(** The keys "grace", "ivr1", "ivr2", "ivr3", "gap1" and "gap2". *)
Definition cycleSlots : list Slot :=
  [SGrace; SIvr (Some 1); SIvr (Some 2); SIvr (Some 3); SGap (Some 1); SGap (Some 2)].

Definition answerSlots (callNumber : option Z) : list Slot :=
  [SIvr callNumber; SGap callNumber; SGap (Some 1); SGap (Some 2)].

(** The handles [clearTimers] cancels: the ones stored under its keys. *)
Definition handles (ks : list Slot) (t : gmap Slot TimerId) : list TimerId :=
  omap (λ k, t !! k) ks.

(** A cycle a timer callback must leave alone: none, or one already
    responded. *)
Definition stale (s : Session) : Prop :=
  match currentCheckin s with
  | Some c => responded c = true
  | None => True
  end.

Definition stale_at (uid : string) (w : World) : Prop :=
  match sessions w !! uid with
  | Some s => stale s
  | None => True
  end.

(** ** Invariants of the store *)

Definition session_ok (s : Session) : Prop :=
  (length (log s) ≤ 100)%nat
  ∧ (is_Some (currentCheckin s) → enabled s = true)
  ∧ (is_Some (activeIncident s) → enabled s = true)
  ∧ truthy_str (name s) = true
  ∧ truthy_str (phone s) = true
  ∧ truthy_num (intervalMinutes s) = true
  ∧ truthy_num (graceSeconds s) = true
  ∧ (∀ k, socketId s = Some k → truthy_str k = true).

Definition sessions_ok (nu : Uuid) (inc : gmap Uuid Incident)
    (m : gmap string Session) : Prop :=
  ∀ uid s, m !! uid = Some s →
    session_ok s
    ∧ (∀ c, currentCheckin s = Some c → (checkin_id c < nu)%nat)
    ∧ (∀ r, activeIncident s = Some r → is_Some (inc !! r)).

Definition queue_ok (nt : TimerId) (q : list Timer) : Prop :=
  Forall (λ t, (timer_id t < nt)%nat) q.

Definition handles_ok (nt : TimerId) (tm : gmap string (gmap Slot TimerId)) : Prop :=
  ∀ uid ts k h, tm !! uid = Some ts → ts !! k = Some h → (h < nt)%nat.

Definition Inv (w : World) : Prop :=
  sessions_ok (next_uuid w) (incidents w) (sessions w)
  ∧ queue_ok (next_timer w) (queue w)
  ∧ handles_ok (next_timer w) (timers w).

(** ** Evolution of a store *)

Definition stats_le (a b : Stats) : Prop :=
  totalCheckins a ≤ totalCheckins b
  ∧ missedCheckins a ≤ missedCheckins b
  ∧ rescueDispatches a ≤ rescueDispatches b.

(** Every cycle of [w'] is the continuation of the cycle of the same user
    in [w] (same id, related by [P]), or was created in between. *)
Definition evolves (P : Checkin → Checkin → Prop) (w w' : World) : Prop :=
  (next_uuid w ≤ next_uuid w')%nat
  ∧ (∀ uid s, sessions w !! uid = Some s →
       ∃ s', sessions w' !! uid = Some s' ∧ stats_le (stats s) (stats s'))
  ∧ (∀ uid s' c', sessions w' !! uid = Some s' → currentCheckin s' = Some c' →
       (next_uuid w ≤ checkin_id c' < next_uuid w')%nat
       ∨ ∃ s c, sessions w !! uid = Some s ∧ currentCheckin s = Some c
                ∧ checkin_id c = checkin_id c' ∧ P c c').

Definition keeps_cycle (c c' : Checkin) : Prop :=
  missedCalls c ≤ missedCalls c'
  ∧ (responded c = true → responded c' = true).

Definition keeps_round (c c' : Checkin) : Prop :=
  keeps_cycle c c' ∧ ivrRound c' = ivrRound c.

(** What one handler or callback may do to the session it works on. *)
Definition session_step (P : Checkin → Checkin → Prop) (nu nu' : Uuid)
    (inc' : gmap Uuid Incident) (s s' : Session) : Prop :=
  session_ok s'
  ∧ stats_le (stats s) (stats s')
  ∧ (∀ c', currentCheckin s' = Some c' →
       (nu ≤ checkin_id c' < nu')%nat
       ∨ ∃ c, currentCheckin s = Some c ∧ checkin_id c = checkin_id c' ∧ P c c')
  ∧ (∀ r, activeIncident s' = Some r →
       activeIncident s = Some r ∨ is_Some (inc' !! r)).

(** The callbacks that assign [ivrRound]: the grace timer calls
    [startIVR(userId, 1)], the gap timer [startIVR(userId, n + 1)]. *)
Definition moves_round (cb : Callback) : bool :=
  match cb with
  | CbGrace _ | CbGap _ _ => true
  | _ => false
  end.

(** The inputs that run such a callback. *)
Definition round_input (op : Op) (w : World) : bool :=
  match op with
  | Fire h =>
      match find_timer h (queue w) with
      | Some t => moves_round (callback t)
      | None => false
      end
  | _ => false
  end.




(** The cycle of a user, if any. *)
Definition cycle_of (uid : string) (w : World) : option Checkin :=
  sessions w !! uid ≫= currentCheckin.

(** ** Sequences of log appends *)

Definition LogEvent : Type := string * list Frag * Extra.

(** [addLog] called once per event, in order. *)
Definition addLogs (uid : string) (evs : list LogEvent) (w : World) : World :=
  foldl (λ w (ev : LogEvent), addLog uid ev.1.1 ev.1.2 ev.2 w) w evs.

(** The entries these calls build, oldest first. *)
Fixpoint entries_from (nu : Uuid) (t : Time) (evs : list LogEvent) : list LogEntry :=
  match evs with
  | [] => []
  | ev :: evs' => make_entry nu ev.1.1 ev.1.2 t ev.2 :: entries_from (S nu) t evs'
  end.

(** ** What a silent callback leaves untouched *)

(** Everything but the clock and the list of live timers. *)
Definition same_store (w w' : World) : Prop :=
  sessions w' = sessions w ∧ timers w' = timers w ∧ incidents w' = incidents w
  ∧ outbox w' = outbox w ∧ uncaught w' = uncaught w
  ∧ next_uuid w' = next_uuid w ∧ next_timer w' = next_timer w.

Definition no_incident_at (uid : string) (w : World) : Prop :=
  match sessions w !! uid with
  | Some s => activeIncident s = None
  | None => True
  end.

(** The callbacks of one check-in cycle. *)
Definition cycle_callback (uid : string) (cb : Callback) : Prop :=
  cb = CbGrace uid ∨ (∃ n, cb = CbRing uid n) ∨ (∃ n, cb = CbGap uid n).

(** ** Concrete runs used as examples *)

(** A user registers and nothing else happens. *)
Definition registered : World :=
  run [Register (Some "u") None None None None] init.

(** The user enables the monitor with the defaults and the first check-in
    fires: a cycle awaits the response. *)
Definition awaiting : World :=
  run [Register (Some "u") None None None None; Enable "u" None None; Fire 0%nat] init.

(** Nobody responds: grace, three rings and two gaps elapse, and rescue is
    dispatched. *)
Definition dispatched : World :=
  run [Fire 1%nat; Fire 2%nat; Fire 3%nat; Fire 4%nat; Fire 5%nat; Fire 6%nat] awaiting.

(** The user confirms the check-in of that cycle (its id is 2). *)
Definition answered : World := (post_checkin_respond "u" (Some 2%nat) awaiting).1.

(** Nobody responds and the grace timer fires: IVR call #1 is ringing. *)
Definition ringing : World := run [Fire 1%nat] awaiting.

(** The registered user enables the monitor with [graceSeconds: 0]. *)
Definition zero_grace : World :=
  (post_checkin_enable "u" None (Some 0%float) registered).1.

(** Timers firing one after the other. *)
Definition fire_all (ts : list Timer) (w : World) : World :=
  foldl (λ w t, fire t w) w ts.

(** Demo mode: a 5 s interval and a 10 s grace.  The first check-in
    fires at 5 s and arms the grace timer with handle 1, due at 15 s. *)
Definition first_cycle : list Op :=
  [Register (Some "u") None None None None; Demo "u"; Fire 0%nat; Sleep 6000].

(** At 6 s the user answers through /api/ivr/respond, which leaves the
    grace timer live; the next check-in fires at 11 s and opens a second
    cycle, whose id is 6 and whose grace timer has handle 3. *)
Definition second_cycle : list Op :=
  first_cycle ++ [IvrRespond "u" (Some 1); Fire 2%nat].

(** Nobody responds to the second cycle: every timer fires at its due
    time, up to 86 s. *)
Definition unanswered : list Op :=
  [Fire 1%nat; Fire 3%nat; Fire 4%nat; Fire 5%nat; Fire 6%nat; Fire 7%nat; Fire 8%nat;
   Fire 9%nat; Fire 10%nat; Fire 11%nat; Fire 12%nat; Fire 13%nat].

Definition answering : World := run first_cycle init.
Definition second_open : World := run second_cycle init.

(** The second cycle one second after it opened. *)
Definition second_pending : World := run [Sleep 12000] second_open.

(** A six-second interval.  The user answers IVR call #1 but names call
    #2, so the ring timer of call #1 stays live; the next check-in opens a
    new cycle, on which that ring timer and the new grace timer both act.
    Every timer fires at its due time, in the order of the clock. *)
Definition overlap : list Op :=
  [Register (Some "u") None None None None; Enable "u" (Some 0.1%float) None;
   Fire 0%nat; Fire 1%nat; IvrRespond "u" (Some 2); Fire 3%nat; Fire 2%nat;
   Fire 5%nat; Fire 6%nat; Fire 7%nat; Fire 8%nat].

(** * Notions used in the further properties *)

(** The session object a response body carries, if any. *)
Definition session_of (r : Response) : option Session :=
  match r with
  | Json _ (BSuccess _ (Some ses)) => Some ses
  | Json _ (BSession ses) => Some ses
  | _ => None
  end.

(** A run of POST /location requests to the prototype backend, one per
    position. *)
Definition locations (k : string) (ps : list (option Q * option Q))
    (us : Prototype.Users) : Prototype.Users :=
  foldl (λ us p, (Prototype.post_location k p.1 p.2 us).1) us ps.

(** Two rings have gone unanswered and call #3 is ringing. *)
Definition two_missed : World :=
  run [Fire 1%nat; Fire 2%nat; Fire 3%nat; Fire 4%nat; Fire 5%nat] awaiting.

(** The user registered with [emergencyContacts: 112]; the monitor is
    on, two rings have gone unanswered and call #3 is ringing. *)
Definition number_as_contacts : World :=
  run [Register (Some "u") None None (Some (NotArray "112")) None;
       Enable "u" None None;
       Fire 0%nat; Fire 1%nat; Fire 2%nat; Fire 3%nat; Fire 4%nat; Fire 5%nat] init.

(** The user enabled the monitor with [intervalMinutes: 0.03]. *)
Definition short_interval : World :=
  run [Register (Some "u") None None None None; Enable "u" (Some 0.03%float) None] init.

(** The registered user "u" with a subscriber socket. *)
Definition subscribed : World := run [RegisterSocket "sock1" "u"] registered.

(** A page whose alert has fired: monitoring started with the text "30"
    (taken as 30 minutes), nobody clicked, the escalation timer is
    pending. *)
Definition thirty_minutes (i : option string) : Z := 1800000.

Definition alerted : Client.Page :=
  Client.run thirty_minutes [Client.StartMonitoring "30"; Client.Fire 0%nat]
             (Client.loaded true).

(** ** Notions used in the statements about the page *)

(** Every live timer has a handle of its own, handed out by the page's
    timer facility; [checkTimer] names the live alert timer, if there is
    one, and never an escalation timer. *)
Definition page_ok (p : Client.Page) : Prop :=
  NoDup (Client.timer_id <$> Client.queue p)
  ∧ Forall (λ x, (Client.timer_id x < Client.next_timer p)%nat) (Client.queue p)
  ∧ (∀ h, Client.checkTimer p = Some h → (h < Client.next_timer p)%nat)
  ∧ (∀ x, x ∈ Client.queue p → Client.callback x = Client.CbAlert →
          Client.checkTimer p = Some (Client.timer_id x))
  ∧ (∀ x, x ∈ Client.queue p → Client.callback x = Client.CbEscalation →
          Client.checkTimer p ≠ Some (Client.timer_id x)).

Definition page_reachable (delay_ms : option string → Z) (p : Client.Page) : Prop :=
  ∃ hidden ops, p = Client.run delay_ms ops (Client.loaded hidden).

Definition request_key (r : Client.Request) : string :=
  match r with
  | Client.PostStart k _ | Client.PostOk k | Client.PostLocation k _ _ => k
  end.

Definition is_start (op : Client.Op) : bool :=
  match op with Client.StartMonitoring _ => true | _ => false end.

Definition is_sent (a : Prototype.Result) : bool :=
  match a with Prototype.Sent _ => true | Prototype.TypeError => false end.

(** The requests one input makes the page send. *)
Definition requests_of (op : Client.Op) (p : Client.Page) : list Client.Request :=
  match op with
  | Client.StartMonitoring v => [Client.PostStart "user001" v]
  | Client.ConfirmOK => [Client.PostOk "user001"]
  | Client.Position la lo =>
      match Client.locating p with
      | O => []
      | S _ => [Client.PostLocation "user001" la lo]
      end
  | _ => []
  end.


(** A backend that has an entry for "user001" answers the requests of
    the page and keeps the entry. *)
Definition started (us : Prototype.Users) : Prop :=
  is_Some (Prototype.own us !! "user001").


(** ** The counters and the timers behind them *)

(** The user whose grace timer, or whose ring or gap timer, a closure is. *)
Definition grace_of (cb : Callback) : option string :=
  match cb with CbGrace u => Some u | _ => None end.

Definition call_of (cb : Callback) : option string :=
  match cb with CbRing u _ | CbGap u _ => Some u | _ => None end.

(** The live timers of one kind of a user. *)
Definition live (kind : Callback → option string) (uid : string) (q : list Timer) : nat :=
  length (filter (λ t, kind (callback t) = Some uid) q).

(** Every timer but the broadcast interval comes from [setTimeout]. *)
Definition one_shot (q : list Timer) : Prop :=
  ∀ x, x ∈ q → (∀ u i, callback x ≠ CbBroadcast u i) → period x = None.

(** Every rescue dispatch, like every call sequence still running, comes
    from a missed check-in; every missed check-in, like every grace
    period still running, from a check-in that was counted. *)
Definition counters_ok (w : World) : Prop :=
  one_shot (queue w)
  ∧ ∀ uid,
      match sessions w !! uid with
      | Some s =>
          0 ≤ rescueDispatches (stats s) ∧ 0 ≤ pending (stats s)
          ∧ rescueDispatches (stats s) + Z.of_nat (live call_of uid (queue w))
            ≤ missedCheckins (stats s)
          ∧ missedCheckins (stats s) + Z.of_nat (live grace_of uid (queue w))
            ≤ totalCheckins (stats s)
      | None => live call_of uid (queue w) = 0%nat ∧ live grace_of uid (queue w) = 0%nat
      end.

(** ** Exceptions in timer callbacks *)

(** The session a timer belongs to, if any, has contacts
    [dispatchRescue] gets through. *)
Definition owner_contacts_ok (cb : Callback) (w : World) : Prop :=
  match sessions w !! owner cb with
  | Some s => contact_list (emergencyContacts s)
  | None => True
  end.

(** ** Delays *)

(** A delay the timer facility replaces by 1 ms: not a number, or a
    number below 1 or above 2^31 - 1. *)
Definition out_of_range (d : float) : Prop :=
  match num_val d with
  | Some v => (v < 1)%Q ∨ (inject_Z TIMEOUT_MAX < v)%Q
  | None => True
  end.

(** A register request carries contacts as the program expects them, or
    none. *)
Definition registers_contact_list (op : Op) : Prop :=
  match op with
  | Register _ _ _ (Some cv) _ => contact_list cv
  | _ => True
  end.

(** Every session has contacts [dispatchRescue] gets through. *)
Definition contacts_inv (w : World) : Prop :=
  ∀ uid s, sessions w !! uid = Some s → contact_list (emergencyContacts s).

(** * Symbolic execution of the helpers *)

Lemma emit_at uid m tm inc q t nu nt ob un s d :
  m !! uid = Some s →
  emit uid d (mkWorld m tm inc q t nu nt ob un)
  = mkWorld m tm inc q t nu nt (ob ++ events_to (socketId s) t d) un.
Proof.
  intros Hs. unfold emit, events_to. cbn. rewrite Hs.
  destruct (socketId s) as [k|]; [destruct (truthy_str k)|]; cbn;
    by rewrite ?app_nil_r.
Qed.

Lemma upd_session_at uid m tm inc q t nu nt ob un f s :
  m !! uid = Some s →
  upd_session uid f (mkWorld m tm inc q t nu nt ob un)
  = mkWorld (<[uid:=f s]> m) tm inc q t nu nt ob un.
Proof.
  intros Hs. unfold upd_session, set_sessions. cbn. f_equal.
  apply map_eq. intros k. rewrite lookup_alter, lookup_insert.
  case_decide; subst; by rewrite ?Hs.
Qed.

Lemma addLog_at uid m tm inc q t nu nt ob un ty msg ex s :
  m !! uid = Some s →
  addLog uid ty msg ex (mkWorld m tm inc q t nu nt ob un)
  = mkWorld (<[uid:=set_log (log_push (make_entry nu ty msg t ex) (log s)) s]> m)
            tm inc q t (S nu) nt
            (ob ++ events_to (socketId s) t (log_entry (make_entry nu ty msg t ex))) un.
Proof.
  intros Hs. unfold addLog. cbn [sessions]. rewrite Hs.
  cbv beta iota zeta delta [uuid set_next_uuid sessions timers incidents queue now
                             next_uuid next_timer outbox uncaught].
  rewrite (upd_session_at _ _ _ _ _ _ _ _ _ _ _ s) by done.
  by rewrite (emit_at _ _ _ _ _ _ _ _ _ _ (set_log _ s)) by apply lookup_insert_eq.
Qed.

Lemma notifyEach_at uid m tm inc q t nu nt ob un cs loc s :
  m !! uid = Some s →
  notifyEach uid loc cs (mkWorld m tm inc q t nu nt ob un)
  = (mkWorld (<[uid:=set_log (sms_log nu t (notified_of cs) (log s)) s]> m) tm inc q t
             (length (notified_of cs) + nu)%nat nt
             (ob ++ sms_out (socketId s) nu t loc (notified_of cs)) un,
     thrown_of cs).
Proof.
  revert m nu ob s. induction cs as [|[c|] cs IH]; intros m nu ob s Hs.
  - cbn. rewrite app_nil_r. do 2 f_equal. destruct s; cbn. by rewrite insert_id.
  - cbn [notifyEach notified_of thrown_of].
    rewrite (addLog_at _ _ _ _ _ _ _ _ _ _ _ _ _ s) by done.
    rewrite (emit_at _ _ _ _ _ _ _ _ _ _ (set_log _ s)) by apply lookup_insert_eq.
    rewrite (IH _ _ _ (set_log (log_push (sms_entry nu t c) (log s)) s))
      by apply lookup_insert_eq.
    cbn. rewrite insert_insert_eq, <- !app_assoc.
    by replace (length (notified_of cs) + S nu)%nat
      with (S (length (notified_of cs) + nu))%nat by lia.
  - cbn. rewrite app_nil_r. do 2 f_equal. destruct s; cbn. by rewrite insert_id.
Qed.

Lemma notifyContacts_at uid m tm inc q t nu nt ob un cv loc s :
  m !! uid = Some s →
  notifyContacts uid cv loc (mkWorld m tm inc q t nu nt ob un)
  = (mkWorld (<[uid:=set_log (sms_log nu t (notified cv) (log s)) s]> m) tm inc q t
             (length (notified cv) + nu)%nat nt
             (ob ++ sms_out (socketId s) nu t loc (notified cv)) un,
     thrown cv).
Proof.
  intros Hs. destruct cv as [cs|j]; cbn [notifyContacts notified thrown].
  - by apply notifyEach_at.
  - cbn. rewrite app_nil_r. do 2 f_equal. destruct s; cbn. by rewrite insert_id.
Qed.

Lemma clearTimers_at uid keys m tm inc q t nu nt ob un :
  clearTimers uid keys (mkWorld m tm inc q t nu nt ob un)
  = mkWorld m (<[uid:=cleared_slots keys (slots_of uid tm) q]> tm) inc
            (cleared_queue keys (slots_of uid tm) q) t nu nt ob un.
Proof. reflexivity. Qed.

Lemma slots_of_insert uid x (tm : gmap string (gmap Slot TimerId)) :
  slots_of uid (<[uid:=x]> tm) = x.
Proof. unfold slots_of. by rewrite lookup_insert_eq. Qed.

Lemma sessions_insert_insert uid (x y : Session) (m : gmap string Session) :
  <[uid:=x]> (<[uid:=y]> m) = <[uid:=x]> m.
Proof. apply insert_insert_eq. Qed.

Lemma timers_insert_insert uid (x y : gmap Slot TimerId)
    (tm : gmap string (gmap Slot TimerId)) :
  <[uid:=x]> (<[uid:=y]> tm) = <[uid:=x]> tm.
Proof. apply insert_insert_eq. Qed.

Lemma sessions_lookup_insert uid (x : Session) (m : gmap string Session) :
  <[uid:=x]> m !! uid = Some x.
Proof. apply lookup_insert_eq. Qed.

Arguments log_push : simpl never.
Arguments make_entry : simpl never.
Arguments timer_ms : simpl never.
Arguments events_to : simpl never.
Arguments cleared : simpl never.
Arguments cleared_slots : simpl never.
Arguments cleared_queue : simpl never.
Arguments slots_of : simpl never.
Arguments cancel : simpl never.

(** The session stored under the key of the running handler. *)
Ltac lk := first [eassumption | apply sessions_lookup_insert].

(** A [let] is reduced once the world it binds has been computed. *)
Ltac zeta1 :=
  match goal with
  | |- context C [let x := ?V in @?B x] =>
      lazymatch type of V with
      | World => lazymatch V with mkWorld _ _ _ _ _ _ _ _ _ => idtac end
      | _ => idtac
      end;
      let g := context C [B V] in change g; cbv beta
  end.

(** An engine function is entered once its world has been computed. *)
Ltac enter f x :=
  let body := eval cbv beta delta [f] in x in change x with body.

Ltac wcompute :=
  progress cbv beta iota delta
      [set_sessions set_timers set_incidents set_queue set_now set_next_uuid
       set_next_timer set_outbox set_uncaught
       set_enabled set_intervalMinutes set_graceSeconds set_lastLocation
       set_currentCheckin set_activeIncident set_log set_stats set_socketId
       upd_checkin upd_stats uuid setTimeout setInterval set_slot clearTimeout
       run_callback snapshot
       sessions timers incidents queue now next_uuid next_timer outbox uncaught
       userId name phone emergencyContacts enabled intervalMinutes graceSeconds
       lastLocation currentCheckin activeIncident log stats socketId
       checkin_id startedAt responded respondedAt ivrRound missedCalls
       totalCheckins missedCheckins rescueDispatches pending
       timer_id due period callback owner].

(** One step of symbolic execution; the session under the key of the
    running handler is found in a hypothesis or on top of the map. *)
Ltac wstep :=
  match goal with
  | |- context [<[?u:=?x]> ?m !! ?u] =>
      first [rewrite (sessions_lookup_insert u x m) | rewrite (lookup_insert_eq m u x)]
  | H : ?m !! ?k = Some _ |- context [?m !! ?k] => rewrite H
  | H : ?m !! ?k = None |- context [?m !! ?k] => rewrite H
  | |- context [<[?u:=?x]> (<[?u:=?y]> ?m)] =>
      first [rewrite (sessions_insert_insert u x y m)
            | rewrite (timers_insert_insert u x y m)
            | rewrite (insert_insert_eq m u x y)]
  | |- context [slots_of ?u (<[?u:=?x]> ?tm)] => rewrite (slots_of_insert u x tm)
  | |- context [addLog ?u ?ty ?msg ?ex (mkWorld ?m ?a ?b ?c ?d ?e ?f ?g ?h)] =>
      erewrite (addLog_at u m a b c d e f g h ty msg ex) by lk
  | |- context [emit ?u ?dt (mkWorld ?m ?a ?b ?c ?d ?e ?f ?g ?h)] =>
      erewrite (emit_at u m a b c d e f g h _ dt) by lk
  | |- context [upd_session ?u ?fn (mkWorld ?m ?a ?b ?c ?d ?e ?f ?g ?h)] =>
      erewrite (upd_session_at u m a b c d e f g h fn) by lk
  | |- context [notifyContacts ?u ?cs ?loc (mkWorld ?m ?a ?b ?c ?d ?e ?f ?g ?h)] =>
      erewrite (notifyContacts_at u m a b c d e f g h cs loc) by lk
  | |- context [clearTimers ?u ?ks (mkWorld ?m ?a ?b ?c ?d ?e ?f ?g ?h)] =>
      rewrite (clearTimers_at u ks m a b c d e f g h)
  | |- context [triggerCheckin ?u (mkWorld ?a ?b ?c ?d ?e ?f ?g ?h ?i)] =>
      enter triggerCheckin (triggerCheckin u (mkWorld a b c d e f g h i))
  | |- context [graceExpired ?u (mkWorld ?a ?b ?c ?d ?e ?f ?g ?h ?i)] =>
      enter graceExpired (graceExpired u (mkWorld a b c d e f g h i))
  | |- context [startIVR ?u ?n (mkWorld ?a ?b ?c ?d ?e ?f ?g ?h ?i)] =>
      enter startIVR (startIVR u n (mkWorld a b c d e f g h i))
  | |- context [ringExpired ?u ?n (mkWorld ?a ?b ?c ?d ?e ?f ?g ?h ?i)] =>
      enter ringExpired (ringExpired u n (mkWorld a b c d e f g h i))
  | |- context [evaluateAndDispatch ?u (mkWorld ?a ?b ?c ?d ?e ?f ?g ?h ?i)] =>
      enter evaluateAndDispatch (evaluateAndDispatch u (mkWorld a b c d e f g h i))
  | |- context [dispatchRescue ?u (mkWorld ?a ?b ?c ?d ?e ?f ?g ?h ?i)] =>
      enter dispatchRescue (dispatchRescue u (mkWorld a b c d e f g h i))
  | |- context [broadcastTick ?u ?n ?k (mkWorld ?a ?b ?c ?d ?e ?f ?g ?h ?i)] =>
      enter broadcastTick (broadcastTick u n k (mkWorld a b c d e f g h i))
  | |- context [scheduleNextCheckin ?u (mkWorld ?a ?b ?c ?d ?e ?f ?g ?h ?i)] =>
      enter scheduleNextCheckin (scheduleNextCheckin u (mkWorld a b c d e f g h i))
  | |- context [?fn <$> Some ?x] => change (fn <$> Some x) with (Some (fn x))
  | H : thrown ?c = _ |- context [thrown ?c] => rewrite H
  | H : ?b = true |- context [if ?b then _ else _] => rewrite H
  | H : ?b = false |- context [if ?b then _ else _] => rewrite H
  | _ => zeta1
  | _ => wcompute
  end.

Ltac wsimpl := repeat wstep.

(** A closed fact about a concrete run, by evaluation. *)
Ltac run_eval := vm_compute; reflexivity.

(** * Net effect of the engine functions *)

Lemma log_push_take e l :
  (length l ≤ 100)%nat → log_push e l = take 100 (e :: l).
Proof.
  intros H. unfold log_push.
  destruct (Nat.ltb_spec 100 (length (e :: l))) as [Hlt|Hle].
  - rewrite removelast_firstn_len. f_equal. cbn [length] in *. lia.
  - symmetry. by apply firstn_all2.
Qed.

Lemma log_push_length e l :
  (length l ≤ 100)%nat → (length (log_push e l) ≤ 100)%nat.
Proof. intros H. rewrite log_push_take by done. rewrite length_take. lia. Qed.

Lemma sms_log_length nu t cs l :
  (length l ≤ 100)%nat → (length (sms_log nu t cs l) ≤ 100)%nat.
Proof.
  revert nu l. induction cs as [|c cs IH]; intros nu l H; cbn; [done|].
  apply IH, log_push_length, H.
Qed.

Ltac solve_log :=
  unfold log_grows; intros;
  repeat first [apply log_push_length | apply sms_log_length]; assumption.

Section Engine.
Variables (uid : string) (m : gmap string Session)
          (tm : gmap string (gmap Slot TimerId)) (inc : gmap Uuid Incident)
          (q : list Timer) (t : Time) (nu : Uuid) (nt : TimerId)
          (ob : list Event) (un : option string).
Variable s : Session.
Hypothesis Hs : m !! uid = Some s.

Local Abbreviation W := (mkWorld m tm inc q t nu nt ob un).

Ltac finish := eexists _, _; split; [reflexivity | solve_log].

Lemma scheduleNextCheckin_at :
  enabled s = true →
  ∃ l' ob',
    scheduleNextCheckin uid W
    = mkWorld (<[uid := set_log l' s]> m)
              (<[uid := <[SCheckin := nt]> (slots_of uid tm)]> tm) inc
              (q ++ [mkTimer nt (t + timer_ms (intervalMinutes s * 60 * 1000)) None
                             (CbCheckin uid)])
              t (S nu) (S nt) ob' un
    ∧ log_grows (log s) l'.
Proof. intros He. destruct s; cbn in He; subst. wsimpl. finish. Qed.

Lemma scheduleNextCheckin_off :
  enabled s = false → scheduleNextCheckin uid W = W.
Proof. intros He. destruct s; cbn in He; subst. by wsimpl. Qed.

Lemma triggerCheckin_at :
  enabled s = true →
  ∃ l' ob',
    triggerCheckin uid W
    = mkWorld (<[uid := set_log l'
                          (set_stats (mkStats (totalCheckins (stats s) + 1)
                                              (missedCheckins (stats s))
                                              (rescueDispatches (stats s))
                                              (pending (stats s) + 1))
                             (set_currentCheckin
                                (Some (mkCheckin nu t false None 0 0)) s))]> m)
              (<[uid := <[SGrace := nt]> (slots_of uid tm)]> tm) inc
              (q ++ [mkTimer nt (t + timer_ms (graceSeconds s * 1000)) None (CbGrace uid)])
              t (S (S nu)) (S nt) ob' un
    ∧ log_grows (log s) l'.
Proof.
  intros He. destruct s as [? ? ? ? ? ? ? ? ? ? ? []]; cbn in He; subst. wsimpl. finish.
Qed.

Lemma triggerCheckin_off :
  enabled s = false → triggerCheckin uid W = W.
Proof. intros He. destruct s; cbn in He; subst. by wsimpl. Qed.

Lemma startIVR_at n c :
  currentCheckin s = Some c → responded c = false →
  ∃ l' ob',
    startIVR uid n W
    = mkWorld (<[uid := set_log l' (set_currentCheckin (Some (set_round n c)) s)]> m)
              (<[uid := <[SIvr (Some n) := nt]> (slots_of uid tm)]> tm) inc
              (q ++ [mkTimer nt (t + timer_ms 15000) None (CbRing uid n)])
              t (S nu) (S nt) ob' un
    ∧ log_grows (log s) l'.
Proof.
  intros Hc Hr. destruct s; destruct c; cbn in Hc, Hr; subst. wsimpl. finish.
Qed.

Lemma graceExpired_at c :
  currentCheckin s = Some c → responded c = false →
  ∃ l' ob',
    graceExpired uid W
    = mkWorld (<[uid := set_log l'
                          (set_stats (mkStats (totalCheckins (stats s))
                                              (missedCheckins (stats s) + 1)
                                              (rescueDispatches (stats s))
                                              (Z.max 0 (pending (stats s) - 1)))
                             (set_currentCheckin (Some (set_round 1 c)) s))]> m)
              (<[uid := <[SIvr (Some 1) := nt]> (slots_of uid tm)]> tm) inc
              (q ++ [mkTimer nt (t + timer_ms 15000) None (CbRing uid 1)])
              t (S (S nu)) (S nt) ob' un
    ∧ log_grows (log s) l'.
Proof.
  intros Hc Hr. destruct s as [? ? ? ? ? ? ? ? ? ? ? []]; destruct c; cbn in Hc, Hr; subst.
  wsimpl. finish.
Qed.

Lemma ringExpired_gap n c :
  currentCheckin s = Some c → responded c = false → (n <? 3) = true →
  ∃ l' ob',
    ringExpired uid n W
    = mkWorld (<[uid := set_log l' (set_currentCheckin (Some (add_missed c)) s)]> m)
              (<[uid := <[SGap (Some n) := nt]> (slots_of uid tm)]> tm) inc
              (q ++ [mkTimer nt (t + timer_ms 10000) None (CbGap uid n)])
              t (S (S nu)) (S nt) ob' un
    ∧ log_grows (log s) l'.
Proof.
  intros Hc Hr Hn. destruct s; destruct c; cbn in Hc, Hr; subst. wsimpl. finish.
Qed.

Lemma ringExpired_dispatch n c :
  currentCheckin s = Some c → responded c = false → (n <? 3) = false →
  (2 <=? missedCalls c + 1) = true → thrown (emergencyContacts s) = None →
  ∃ l' ob',
    ringExpired uid n W
    = mkWorld (<[uid := set_log l'
                          (set_activeIncident (Some (S (S nu)))
                             (set_stats (mkStats (totalCheckins (stats s))
                                                 (missedCheckins (stats s))
                                                 (rescueDispatches (stats s) + 1)
                                                 (pending (stats s)))
                                (set_currentCheckin (Some (add_missed c)) s)))]> m)
              (<[uid := <[SBroadcast := nt]> (slots_of uid tm)]> tm)
              (<[S (S nu) := mkIncident (S (S nu)) uid (lastLocation s) (phone s)
                               (emergencyContacts s) (missedCalls c + 1) t
                               DISPATCHED None alphaUnit]> inc)
              (q ++ [mkTimer nt (t + timer_ms 10000) (Some (timer_ms 10000))
                             (CbBroadcast uid (S (S nu)))])
              t (length (notified (emergencyContacts s)) + S (S (S (S nu))))%nat
              (S nt) ob' un
    ∧ log_grows (log s) l'.
Proof.
  intros Hc Hr Hn Hd Hth.
  destruct s as [? ? ? ? ? ? ? ? ? ? ? []]; destruct c; cbn in Hc, Hr, Hd, Hth; subst.
  wsimpl. finish.
Qed.

(** The [forEach] of [dispatchRescue] throws: the incident is recorded,
    no broadcast interval is armed and the exception is uncaught. *)
Lemma ringExpired_throws n c e :
  currentCheckin s = Some c → responded c = false → (n <? 3) = false →
  (2 <=? missedCalls c + 1) = true → thrown (emergencyContacts s) = Some e →
  ∃ l' ob',
    ringExpired uid n W
    = mkWorld (<[uid := set_log l'
                          (set_activeIncident (Some (S (S nu)))
                             (set_stats (mkStats (totalCheckins (stats s))
                                                 (missedCheckins (stats s))
                                                 (rescueDispatches (stats s) + 1)
                                                 (pending (stats s)))
                                (set_currentCheckin (Some (add_missed c)) s)))]> m)
              tm
              (<[S (S nu) := mkIncident (S (S nu)) uid (lastLocation s) (phone s)
                               (emergencyContacts s) (missedCalls c + 1) t
                               DISPATCHED None alphaUnit]> inc)
              q t (length (notified (emergencyContacts s)) + S (S (S (S nu))))%nat
              nt ob' (Some e)
    ∧ log_grows (log s) l'.
Proof.
  intros Hc Hr Hn Hd Hth.
  destruct s as [? ? ? ? ? ? ? ? ? ? ? []]; destruct c; cbn in Hc, Hr, Hd, Hth; subst.
  wsimpl. finish.
Qed.

Lemma ringExpired_resume n c :
  currentCheckin s = Some c → responded c = false → (n <? 3) = false →
  (2 <=? missedCalls c + 1) = false → enabled s = true →
  ∃ l' ob',
    ringExpired uid n W
    = mkWorld (<[uid := set_log l' (set_currentCheckin (Some (add_missed c)) s)]> m)
              (<[uid := <[SCheckin := nt]> (slots_of uid tm)]> tm) inc
              (q ++ [mkTimer nt (t + timer_ms (intervalMinutes s * 60 * 1000)) None
                             (CbCheckin uid)])
              t (S (S (S (S nu)))) (S nt) ob' un
    ∧ log_grows (log s) l'.
Proof.
  intros Hc Hr Hn Hd He. destruct s; destruct c; cbn in Hc, Hr, Hd, He; subst.
  wsimpl. finish.
Qed.

Lemma broadcastTick_at i self r :
  activeIncident s = Some r →
  broadcastTick uid i self W
  = mkWorld m tm inc q t nu nt
            (ob ++ events_to (socketId s) t (location_broadcast (lastLocation s) i)) un.
Proof. intros Hi. destruct s; cbn in Hi; subst. by wsimpl. Qed.

Lemma broadcastTick_off i self :
  activeIncident s = None →
  broadcastTick uid i self W = mkWorld m tm inc (cancel self q) t nu nt ob un.
Proof. intros Hi. destruct s; cbn in Hi; subst. by wsimpl. Qed.

End Engine.

(** * Net effect of the REST handlers *)

Section Handlers.
Variables (uid : string) (m : gmap string Session)
          (tm : gmap string (gmap Slot TimerId)) (inc : gmap Uuid Incident)
          (q : list Timer) (t : Time) (nu : Uuid) (nt : TimerId)
          (ob : list Event) (un : option string).
Variable s : Session.
Hypothesis Hs : m !! uid = Some s.

Local Abbreviation W := (mkWorld m tm inc q t nu nt ob un).

Ltac finish := eexists _, _; split; [reflexivity | solve_log].

Lemma post_checkin_enable_at ri rg :
  ∃ l' ob',
    post_checkin_enable uid ri rg W
    = (let s' := set_log l'
                   (set_activeIncident None
                      (set_currentCheckin None
                         (set_graceSeconds (effective rg (graceSeconds s) 60)
                            (set_intervalMinutes (effective ri (intervalMinutes s) 30)
                               (set_enabled true s))))) in
       (mkWorld (<[uid := s']> m)
                (<[uid := <[SCheckin := nt]> (cleared_slots [] (slots_of uid tm) q)]> tm)
                inc
                (cleared_queue [] (slots_of uid tm) q
                 ++ [mkTimer nt (t + timer_ms (effective ri (intervalMinutes s) 30 * 60 * 1000))
                             None (CbCheckin uid)])
                t (S (S nu)) (S nt) ob' un,
        Json 200 (BSuccess (Some "Monitor enabled") (Some (safe s')))))
    ∧ log_grows (log s) l'.
Proof.
  destruct s. cbv beta delta [post_checkin_enable effective]. wsimpl. finish.
Qed.

Lemma post_dev_demo_at :
  ∃ l' ob',
    post_dev_demo uid W
    = (mkWorld (<[uid := set_log l'
                           (set_activeIncident None
                              (set_currentCheckin None
                                 (set_graceSeconds 10
                                    (set_intervalMinutes (5 / 60)
                                       (set_enabled true s)))))]> m)
               (<[uid := <[SCheckin := nt]> (cleared_slots [] (slots_of uid tm) q)]> tm)
               inc
               (cleared_queue [] (slots_of uid tm) q
                ++ [mkTimer nt (t + timer_ms (5 / 60 * 60 * 1000)) None (CbCheckin uid)])
               t (S (S nu)) (S nt) ob' un,
       Json 200 (BSuccess (Some "Demo mode: check-in fires in 5 seconds!") None))
    ∧ log_grows (log s) l'.
Proof. destruct s. cbv beta delta [post_dev_demo]. wsimpl. finish. Qed.

Lemma post_checkin_disable_at :
  ∃ l' ob',
    post_checkin_disable uid W
    = (mkWorld (<[uid := set_log l'
                           (set_activeIncident None
                              (set_currentCheckin None (set_enabled false s)))]> m)
               (<[uid := cleared_slots [] (slots_of uid tm) q]> tm) inc
               (cleared_queue [] (slots_of uid tm) q)
               t (S nu) nt ob' un,
       Json 200 (BSuccess None None))
    ∧ log_grows (log s) l'.
Proof. destruct s. cbv beta delta [post_checkin_disable]. wsimpl. finish. Qed.

Lemma post_checkin_respond_at c :
  currentCheckin s = Some c → responded c = false → enabled s = true →
  ∃ l' ob',
    post_checkin_respond uid (Some (checkin_id c)) W
    = (mkWorld (<[uid := set_log l'
                           (set_stats (mkStats (totalCheckins (stats s))
                                               (missedCheckins (stats s))
                                               (rescueDispatches (stats s))
                                               (Z.max 0 (pending (stats s) - 1)))
                              (set_currentCheckin (Some (set_responded t c)) s))]> m)
               (<[uid := <[SCheckin := nt]>
                           (cleared_slots cycleSlots (slots_of uid tm) q)]> tm) inc
               (cleared_queue cycleSlots (slots_of uid tm) q
                ++ [mkTimer nt (t + timer_ms (intervalMinutes s * 60 * 1000)) None
                            (CbCheckin uid)])
               t (S (S nu)) (S nt) ob' un,
       Json 200 (BSuccess (Some "Safety confirmed. Next check-in scheduled.") None))
    ∧ log_grows (log s) l'.
Proof.
  intros Hc Hr He.
  destruct s as [? ? ? ? ? ? ? ? ? ? ? []]; destruct c; cbn in Hc, Hr, He; subst.
  cbv beta delta [post_checkin_respond]. wsimpl.
  rewrite bool_decide_eq_true_2 by done. cbv beta iota delta [negb].
  wsimpl. finish.
Qed.

Lemma post_ivr_respond_at callNumber c :
  currentCheckin s = Some c → responded c = false → enabled s = true →
  ∃ l' ob',
    post_ivr_respond uid callNumber W
    = (mkWorld (<[uid := set_log l'
                           (set_currentCheckin (Some (set_responded t c)) s)]> m)
               (<[uid := <[SCheckin := nt]>
                           (cleared_slots (answerSlots callNumber) (slots_of uid tm) q)]> tm)
               inc
               (cleared_queue (answerSlots callNumber) (slots_of uid tm) q
                ++ [mkTimer nt (t + timer_ms (intervalMinutes s * 60 * 1000)) None
                            (CbCheckin uid)])
               t (S (S nu)) (S nt) ob' un,
       Json 200 (BSuccess (Some "IVR responded. Safe confirmed.") None))
    ∧ log_grows (log s) l'.
Proof.
  intros Hc Hr He. destruct s; destruct c; cbn in Hc, Hr, He; subst.
  cbv beta delta [post_ivr_respond]. wsimpl. finish.
Qed.

Lemma post_location_update_at rLat rLng rAddress :
  post_location_update uid rLat rLng rAddress W
  = (mkWorld (<[uid := set_lastLocation
                         (mkLocation rLat rLng
                            (js_or truthy_str rAddress (address (lastLocation s)))
                            (Some t)) s]> m)
             tm inc q t nu nt ob un,
     Json 200 (BSuccess None None)).
Proof. destruct s. cbv beta delta [post_location_update]. by wsimpl. Qed.

Lemma post_incident_resolve_at r :
  activeIncident s = Some r → enabled s = true →
  ∃ l' ob',
    post_incident_resolve uid (Some r) W
    = (mkWorld (<[uid := set_log l'
                           (set_currentCheckin None (set_activeIncident None s))]> m)
               (<[uid := <[SCheckin := nt]>
                           (cleared_slots [SBroadcast] (slots_of uid tm) q)]> tm)
               (alter (resolve t) r inc)
               (cleared_queue [SBroadcast] (slots_of uid tm) q
                ++ [mkTimer nt (t + timer_ms (intervalMinutes s * 60 * 1000)) None
                            (CbCheckin uid)])
               t (S (S nu)) (S nt) ob' un,
       Json 200 (BSuccess None None))
    ∧ log_grows (log s) l'.
Proof.
  intros Hi He. destruct s; cbn in Hi, He; subst.
  cbv beta delta [post_incident_resolve]. wsimpl.
  rewrite bool_decide_eq_true_2 by done. wsimpl. finish.
Qed.

Lemma post_incident_resolve_other i :
  activeIncident s ≠ i →
  post_incident_resolve uid i W = (W, Json 200 (BSuccess None None)).
Proof.
  intros Hi. cbv beta delta [post_incident_resolve]. wsimpl.
  by rewrite bool_decide_eq_false_2.
Qed.

Lemma post_incident_resolve_throws :
  activeIncident s = None →
  post_incident_resolve uid None W
  = (mkWorld m (<[uid := cleared_slots [SBroadcast] (slots_of uid tm) q]> tm) inc
             (cleared_queue [SBroadcast] (slots_of uid tm) q) t nu nt ob un,
     Uncaught "TypeError").
Proof.
  intros Hi. destruct s; cbn in Hi; subst.
  cbv beta delta [post_incident_resolve]. wsimpl.
  rewrite bool_decide_eq_true_2 by done. by wsimpl.
Qed.

Lemma register_socket_at sock :
  register_socket sock uid W
  = mkWorld (<[uid := set_socketId (Some sock) s]> m) tm inc q t nu nt
            (ob ++ [mkEvent sock (socket_registered uid) None]) un.
Proof. destruct s. cbv beta delta [register_socket]. by wsimpl. Qed.

End Handlers.

(** * What [clearTimers] leaves *)

Lemma handles_cons k ks (t : gmap Slot TimerId) :
  handles (k :: ks) t
  = match t !! k with Some h => h :: handles ks t | None => handles ks t end.
Proof. reflexivity. Qed.

Lemma clear_fold ks : ∀ (t : gmap Slot TimerId) (q : list Timer),
  foldl clearSlot (t, q) ks
  = (foldl (λ t k, delete k t) t ks,
     filter (λ tmr, timer_id tmr ∉ handles ks t) q).
Proof.
  induction ks as [|k ks IH]; intros t q.
  - cbn. f_equal. induction q as [|x q IHq]; [done|].
    rewrite filter_cons_True; [by f_equal|]. unfold handles. cbn. set_solver.
  - cbn [foldl]. destruct (t !! k) as [h|] eqn:Hk.
    + replace (clearSlot (t, q) k) with (delete k t, cancel h q)
        by (unfold clearSlot; cbn [fst snd]; by rewrite Hk).
      rewrite IH. f_equal. unfold cancel. rewrite list_filter_filter.
      apply list_filter_iff. intros x. rewrite handles_cons, Hk. unfold handles.
      rewrite not_elem_of_cons, !list_elem_of_omap. split.
      * intros [Hx Hh]. split; [done|]. intros (k' & Hk' & Hl). apply Hx.
        exists k'. split; [done|].
        destruct (decide (k' = k)) as [->|Hne]; [congruence|].
        by rewrite lookup_delete_ne.
      * intros [Hh Hx]. split; [|done]. intros (k' & Hk' & Hl). apply Hx.
        exists k'. split; [done|].
        destruct (decide (k' = k)) as [->|Hne];
          [by rewrite lookup_delete_eq in Hl | by rewrite lookup_delete_ne in Hl].
    + replace (clearSlot (t, q) k) with (t, q)
        by (unfold clearSlot; cbn [fst snd]; by rewrite Hk).
      rewrite IH. f_equal; [by rewrite delete_id|].
      apply list_filter_iff. intros x. by rewrite handles_cons, Hk.
Qed.

Lemma delete_fold_lookup ks : ∀ (t : gmap Slot TimerId) k,
  foldl (λ t k, delete k t) t ks !! k = if decide (k ∈ ks) then None else t !! k.
Proof.
  induction ks as [|k' ks IH]; intros t k; cbn [foldl].
  - case_decide; [set_solver | done].
  - rewrite IH. destruct (decide (k = k')) as [->|Hne].
    + rewrite lookup_delete_eq.
      rewrite (decide_True (P := k' ∈ k' :: ks)) by set_solver.
      by destruct (decide (k' ∈ ks)).
    + rewrite lookup_delete_ne by done.
      destruct (decide (k ∈ ks)) as [Hin|Hin].
      * rewrite decide_True; [done | set_solver].
      * rewrite decide_False; [done|]. intros Hc. apply elem_of_cons in Hc.
        destruct Hc; done.
Qed.

Lemma cleared_slots_lookup ks t q k :
  cleared_slots ks t q !! k = if decide (k ∈ keys_of ks t) then None else t !! k.
Proof.
  unfold cleared_slots, cleared. rewrite clear_fold. cbn [fst]. apply delete_fold_lookup.
Qed.

Lemma cleared_queue_filter ks t q :
  cleared_queue ks t q = filter (λ tmr, timer_id tmr ∉ handles (keys_of ks t) t) q.
Proof. unfold cleared_queue, cleared. by rewrite clear_fold. Qed.

Lemma keys_of_all (t : gmap Slot TimerId) k : is_Some (t !! k) → k ∈ keys_of [] t.
Proof.
  intros [h Hh]. unfold keys_of. apply list_elem_of_fmap. exists (k, h). split; [done|].
  by apply elem_of_map_to_list.
Qed.

Lemma cleared_slots_all t q : cleared_slots [] t q = ∅.
Proof.
  apply map_eq. intros k. rewrite cleared_slots_lookup, lookup_empty.
  case_decide as Hk; [done|]. destruct (t !! k) eqn:E; [|done].
  exfalso. apply Hk, keys_of_all. by rewrite E.
Qed.

Lemma cleared_slots_sub ks t q k h :
  cleared_slots ks t q !! k = Some h → t !! k = Some h.
Proof. rewrite cleared_slots_lookup. by case_decide. Qed.

Lemma cleared_slots_gone ks t q k :
  k ∈ keys_of ks t → cleared_slots ks t q !! k = None.
Proof. intros Hk. rewrite cleared_slots_lookup. by case_decide. Qed.

(** A handle stored under a cleared key is no longer live. *)
Lemma cleared_queue_gone ks t q k h tmr :
  k ∈ keys_of ks t → t !! k = Some h → tmr ∈ cleared_queue ks t q → timer_id tmr ≠ h.
Proof.
  intros Hk Hh. rewrite cleared_queue_filter, list_elem_of_filter.
  intros [Hn _] E. apply Hn. rewrite E. unfold handles. apply list_elem_of_omap. eauto.
Qed.

Lemma cleared_queue_elem ks t q tmr :
  tmr ∈ cleared_queue ks t q → tmr ∈ q.
Proof. rewrite cleared_queue_filter, list_elem_of_filter. tauto. Qed.

Lemma keys_of_given k ks t : keys_of (k :: ks) t = k :: ks.
Proof. reflexivity. Qed.

(** A timer whose handle is under none of the cleared keys stays live. *)
Lemma cleared_queue_kept ks (t : gmap Slot TimerId) q tmr :
  tmr ∈ q → (∀ k, k ∈ keys_of ks t → t !! k ≠ Some (timer_id tmr)) →
  tmr ∈ cleared_queue ks t q.
Proof.
  intros Hx Hk. rewrite cleared_queue_filter, list_elem_of_filter. split; [|done].
  unfold handles. intros Hin. apply list_elem_of_omap in Hin as (k & Hkin & Hh).
  by apply (Hk k).
Qed.

(** * Preservation of the invariants *)

Lemma queue_ok_mono nt nt' q : (nt ≤ nt')%nat → queue_ok nt q → queue_ok nt' q.
Proof. intros Hle H. eapply list.Forall_impl; [exact H|]. cbn. intros x Hx. lia. Qed.

Lemma queue_ok_cleared nt ks t q : queue_ok nt q → queue_ok nt (cleared_queue ks t q).
Proof.
  unfold queue_ok. rewrite !list.Forall_forall. intros H x Hx.
  apply H. by eapply cleared_queue_elem.
Qed.

Lemma queue_ok_cancel nt h q : queue_ok nt q → queue_ok nt (cancel h q).
Proof.
  unfold queue_ok, cancel. rewrite !list.Forall_forall. intros H x Hx.
  apply H. apply list_elem_of_filter in Hx. tauto.
Qed.

Lemma queue_ok_rearm nt h at_ q : queue_ok nt q → queue_ok nt (rearm h at_ q).
Proof.
  unfold queue_ok, rearm. rewrite Forall_fmap. intros H.
  eapply list.Forall_impl; [exact H|]. intros x Hx. cbn. by case_bool_decide.
Qed.

Lemma queue_ok_snoc nt q d p cb :
  queue_ok nt q → queue_ok (S nt) (q ++ [mkTimer nt d p cb]).
Proof.
  intros H. apply list.Forall_app. split.
  - by apply (queue_ok_mono nt); [lia|].
  - apply Forall_singleton. cbn. lia.
Qed.

Lemma handles_ok_slots nt tm uid k h :
  handles_ok nt tm → slots_of uid tm !! k = Some h → (h < nt)%nat.
Proof.
  unfold slots_of. intros H. destruct (tm !! uid) as [ts|] eqn:E; cbn.
  - intros Hk. by eapply H.
  - by rewrite lookup_empty.
Qed.

Lemma handles_ok_insert nt nt' tm uid ts :
  handles_ok nt tm → (nt ≤ nt')%nat →
  (∀ k h, ts !! k = Some h → (h < nt')%nat) →
  handles_ok nt' (<[uid := ts]> tm).
Proof.
  intros H Hle Hts u ts' k h. rewrite lookup_insert. case_decide.
  - intros [= <-]. apply Hts.
  - intros Hu Hk. specialize (H _ _ _ _ Hu Hk). lia.
Qed.

Lemma handles_ok_mono nt nt' tm : (nt ≤ nt')%nat → handles_ok nt tm → handles_ok nt' tm.
Proof. intros Hle H u ts k h Hu Hk. specialize (H _ _ _ _ Hu Hk). lia. Qed.

Lemma sessions_ok_insert nu nu' inc inc' m uid s' :
  sessions_ok nu inc m → (nu ≤ nu')%nat →
  (∀ r, is_Some (inc !! r) → is_Some (inc' !! r)) →
  session_ok s' →
  (∀ c, currentCheckin s' = Some c → (checkin_id c < nu')%nat) →
  (∀ r, activeIncident s' = Some r → is_Some (inc' !! r)) →
  sessions_ok nu' inc' (<[uid := s']> m).
Proof.
  intros H Hle Hinc Hok Hc Hi u s0. rewrite lookup_insert. case_decide.
  - intros [= <-]. done.
  - intros Hu. destruct (H _ _ Hu) as (H1 & H2 & H3). split; [done|]. split.
    + intros c Hcc. specialize (H2 _ Hcc). lia.
    + intros r Hr. apply Hinc. by apply H3.
Qed.

(** * Guards: callbacks and handlers that leave the store alone *)

Lemma graceExpired_stale uid w : stale_at uid w → graceExpired uid w = w.
Proof.
  destruct w as [m tm inc q t nu nt ob un]. unfold stale_at, stale. cbn.
  destruct (m !! uid) as [[? ? ? ? ? ? ? ? [[? ? [] ? ? ?]|] ? ? ? ?]|] eqn:Hs;
    cbn; intros H; try discriminate; by wsimpl.
Qed.

Lemma ringExpired_stale uid n w : stale_at uid w → ringExpired uid n w = w.
Proof.
  destruct w as [m tm inc q t nu nt ob un]. unfold stale_at, stale. cbn.
  destruct (m !! uid) as [[? ? ? ? ? ? ? ? [[? ? [] ? ? ?]|] ? ? ? ?]|] eqn:Hs;
    cbn; intros H; try discriminate; by wsimpl.
Qed.

Lemma startIVR_stale uid n w : stale_at uid w → startIVR uid n w = w.
Proof.
  destruct w as [m tm inc q t nu nt ob un]. unfold stale_at, stale. cbn.
  destruct (m !! uid) as [[? ? ? ? ? ? ? ? [[? ? [] ? ? ?]|] ? ? ? ?]|] eqn:Hs;
    cbn; intros H; try discriminate; by wsimpl.
Qed.

Lemma broadcastTick_none uid i self w :
  sessions w !! uid = None → broadcastTick uid i self w = clearTimeout self w.
Proof. destruct w. cbn. intros Hs. by wsimpl. Qed.

Lemma triggerCheckin_none uid w :
  sessions w !! uid = None → triggerCheckin uid w = w.
Proof. destruct w. cbn. intros Hs. by wsimpl. Qed.

Lemma not_stale s :
  ¬ stale s → ∃ c, currentCheckin s = Some c ∧ responded c = false.
Proof.
  unfold stale. destruct (currentCheckin s) as [c|]; [|tauto].
  destruct (responded c) eqn:E; [tauto|]. eauto.
Qed.

Lemma stale_dec s : {stale s} + {¬ stale s}.
Proof.
  unfold stale. destruct (currentCheckin s) as [c|]; [|by left].
  destruct (responded c); [by left | by right].
Qed.

Lemma post_checkin_respond_fail uid cid w s :
  sessions w !! uid = Some s →
  stale s ∨ (∃ c, currentCheckin s = Some c ∧ cid ≠ Some (checkin_id c)) →
  ∃ e, post_checkin_respond uid cid w = (w, Json 400 (BError e)).
Proof.
  destruct w as [m tm inc q t nu nt ob un]. cbn. intros Hs H.
  destruct s as [? ? ? ? ? ? ? ? [[? ? [] ? ? ?]|] ? ? ? ?]; unfold stale in H; cbn in H;
    cbv beta delta [post_checkin_respond]; wsimpl; try by eauto.
  destruct H as [H|(c' & [= <-] & Hne)]; [done|]. cbn in Hne.
  rewrite bool_decide_eq_false_2 by congruence. by eauto.
Qed.

Lemma post_checkin_respond_none uid cid w :
  sessions w !! uid = None →
  post_checkin_respond uid cid w = (w, Json 404 (BError "Session not found")).
Proof. destruct w. cbn. intros Hs. cbv beta delta [post_checkin_respond]. by wsimpl. Qed.

Lemma post_ivr_respond_fail uid cn w :
  stale_at uid w →
  ∃ code e, post_ivr_respond uid cn w = (w, Json code (BError e))
            ∧ (code = 404 ∨ code = 400).
Proof.
  destruct w as [m tm inc q t nu nt ob un]. unfold stale_at, stale. cbn.
  cbv beta delta [post_ivr_respond]. cbn.
  destruct (m !! uid) as [s|]; [|by eauto].
  destruct (currentCheckin s) as [c|]; [|by eauto].
  intros ->. by eauto.
Qed.

(** * One input preserves the invariants and only moves cycles forward *)

Lemma stats_le_refl a : stats_le a a.
Proof. unfold stats_le. lia. Qed.

Lemma keeps_round_refl c : keeps_round c c.
Proof. unfold keeps_round, keeps_cycle. auto with zarith. Qed.

Lemma keeps_cycle_refl c : keeps_cycle c c.
Proof. unfold keeps_cycle. auto with zarith. Qed.

Lemma evolves_refl P w : (∀ c, P c c) → evolves P w w.
Proof.
  intros HP. split; [lia|]. split.
  - intros uid s Hs. exists s. split; [done | apply stats_le_refl].
  - intros uid s' c' Hs Hc. right. exists s', c'. auto.
Qed.

Lemma evolves_weaken (P Q : Checkin → Checkin → Prop) w w' :
  (∀ c c', P c c' → Q c c') → evolves P w w' → evolves Q w w'.
Proof.
  intros HPQ (H1 & H2 & H3). split; [done|]. split; [done|].
  intros uid s' c' Hs Hc. destruct (H3 _ _ _ Hs Hc) as [?|(s & c & ? & ? & ? & ?)];
    [by left|]. right. exists s, c. auto.
Qed.

Lemma evolves_trans P w1 w2 w3 :
  (∀ a b c, P a b → P b c → P a c) →
  evolves P w1 w2 → evolves P w2 w3 → evolves P w1 w3.
Proof.
  intros HP (A1 & A2 & A3) (B1 & B2 & B3). split; [lia|]. split.
  - intros uid s Hs. destruct (A2 _ _ Hs) as (s2 & Hs2 & L1).
    destruct (B2 _ _ Hs2) as (s3 & Hs3 & L2). exists s3. split; [done|].
    unfold stats_le in *. lia.
  - intros uid s3 c3 Hs3 Hc3.
    destruct (B3 _ _ _ Hs3 Hc3) as [Hf|(s2 & c2 & Hs2 & Hc2 & Hid & HP2)].
    + left. lia.
    + destruct (A3 _ _ _ Hs2 Hc2) as [Hf|(s1 & c1 & Hs1 & Hc1 & Hid1 & HP1)].
      * left. lia.
      * right. exists s1, c1. repeat split; try done; [congruence | by eapply HP].
Qed.

Lemma keeps_cycle_trans a b c : keeps_cycle a b → keeps_cycle b c → keeps_cycle a c.
Proof. unfold keeps_cycle. intros [] []. split; [lia | auto]. Qed.

Section WorldStep.
Variables (P : Checkin → Checkin → Prop) (uid : string) (m : gmap string Session)
          (tm tm' : gmap string (gmap Slot TimerId)) (inc inc' : gmap Uuid Incident)
          (q q' : list Timer) (t t' : Time) (nu nu' : Uuid) (nt nt' : TimerId)
          (ob ob' : list Event) (un un' : option string) (s s' : Session).

(** A handler that rewrites the session under [uid]. *)
Lemma world_step :
  (∀ c, P c c) →
  Inv (mkWorld m tm inc q t nu nt ob un) →
  m !! uid = Some s →
  (session_ok s → session_step P nu nu' inc' s s') →
  (nu ≤ nu')%nat →
  (∀ r, is_Some (inc !! r) → is_Some (inc' !! r)) →
  queue_ok nt' q' → handles_ok nt' tm' →
  Inv (mkWorld (<[uid := s']> m) tm' inc' q' t' nu' nt' ob' un')
  ∧ evolves P (mkWorld m tm inc q t nu nt ob un)
              (mkWorld (<[uid := s']> m) tm' inc' q' t' nu' nt' ob' un').
Proof.
  intros HP (HS & HQ & HH) Hs Hstep Hnu Hinc HQ' HH'. cbn in HS, HQ, HH.
  destruct (HS _ _ Hs) as (Hok & Hcyc & Hact).
  destruct (Hstep Hok) as (Hok' & Hst & Hc' & Hi').
  split.
  - split; [|done]. cbn. eapply sessions_ok_insert; eauto.
    + intros c' E. destruct (Hc' _ E) as [?|(c & Ec & Hid & _)]; [lia|].
      specialize (Hcyc _ Ec). lia.
    + intros r E. destruct (Hi' _ E) as [E'|?]; [|done]. apply Hinc. eauto.
  - split; [done|]. cbn. split.
    + intros u s0. destruct (decide (u = uid)) as [->|Hne].
      * rewrite Hs. intros [= <-]. exists s'. by rewrite lookup_insert_eq.
      * intros Hu. exists s0. rewrite lookup_insert_ne by done.
        split; [done | apply stats_le_refl].
    + intros u s0 c0. destruct (decide (u = uid)) as [->|Hne].
      * rewrite lookup_insert_eq. intros [= <-] E.
        destruct (Hc' _ E) as [?|(c & ? & ? & ?)]; [by left|].
        right. exists s, c. auto.
      * rewrite lookup_insert_ne by done. intros Hu E.
        destruct (HS _ _ Hu) as (_ & Hcyc0 & _).
        right. exists s0, c0. auto.
Qed.

End WorldStep.

Lemma keeps_round_trans a b c : keeps_round a b → keeps_round b c → keeps_round a c.
Proof.
  unfold keeps_round. intros [H1 E1] [H2 E2].
  split; [by eapply keeps_cycle_trans | congruence].
Qed.

Lemma keeps_round_cycle c c' : keeps_round c c' → keeps_cycle c c'.
Proof. by intros []. Qed.

(** A step that leaves every session as it is. *)
Lemma frame_step P m tm tm' inc inc' q q' t t' nu nu' nt nt' ob ob' un un' :
  (∀ c, P c c) →
  Inv (mkWorld m tm inc q t nu nt ob un) →
  (nu ≤ nu')%nat →
  (∀ r, is_Some (inc !! r) → is_Some (inc' !! r)) →
  queue_ok nt' q' → handles_ok nt' tm' →
  Inv (mkWorld m tm' inc' q' t' nu' nt' ob' un')
  ∧ evolves P (mkWorld m tm inc q t nu nt ob un)
              (mkWorld m tm' inc' q' t' nu' nt' ob' un').
Proof.
  intros HP (HS & HQ & HH) Hnu Hinc HQ' HH'. cbn in HS, HQ, HH. split.
  - split; [|done]. cbn. intros u s0 Hu. destruct (HS _ _ Hu) as (H1 & H2 & H3).
    split; [done|]. split.
    + intros c E. specialize (H2 _ E). lia.
    + intros r E. apply Hinc. eauto.
  - split; [done|]. cbn. split.
    + intros u s0 Hu. exists s0. split; [done | apply stats_le_refl].
    + intros u s0 c0 Hu E. right. exists s0, c0. auto.
Qed.

(** A step that stores a session under a key that had none. *)
Lemma new_step P uid m tm inc q t nu nt ob un s' :
  (∀ c, P c c) →
  Inv (mkWorld m tm inc q t nu nt ob un) →
  m !! uid = None →
  session_ok s' → currentCheckin s' = None → activeIncident s' = None →
  Inv (mkWorld (<[uid := s']> m) tm inc q t nu nt ob un)
  ∧ evolves P (mkWorld m tm inc q t nu nt ob un)
              (mkWorld (<[uid := s']> m) tm inc q t nu nt ob un).
Proof.
  intros HP (HS & HQ & HH) Hn Hok Hc Hi. cbn in HS, HQ, HH. split.
  - split; [|done]. cbn. eapply sessions_ok_insert; eauto.
    + intros c E. congruence.
    + intros r E. congruence.
  - split; [done|]. cbn. split.
    + intros u s0 Hu. exists s0. rewrite lookup_insert_ne by congruence.
      split; [done | apply stats_le_refl].
    + intros u s0 c0. destruct (decide (u = uid)) as [->|Hne].
      * rewrite lookup_insert_eq. intros [= <-] E. congruence.
      * rewrite lookup_insert_ne by done. intros Hu E. right. exists s0, c0. auto.
Qed.

(** A step that only touches the subscriber handles. *)
Lemma handle_step P (f : Session → Session) m tm inc q t nu nt ob un :
  (∀ c, P c c) →
  (∀ s, session_ok s → session_ok (f s)) →
  (∀ s, currentCheckin (f s) = currentCheckin s
        ∧ activeIncident (f s) = activeIncident s ∧ stats (f s) = stats s) →
  Inv (mkWorld m tm inc q t nu nt ob un) →
  Inv (mkWorld (f <$> m) tm inc q t nu nt ob un)
  ∧ evolves P (mkWorld m tm inc q t nu nt ob un)
              (mkWorld (f <$> m) tm inc q t nu nt ob un).
Proof.
  intros HP Hok Hf (HS & HQ & HH). cbn in HS, HQ, HH. split.
  - split; [|done]. cbn. intros u s0. rewrite lookup_fmap.
    destruct (m !! u) as [s1|] eqn:Hu; [|done]. intros [= <-].
    destruct (HS _ _ Hu) as (H1 & H2 & H3). destruct (Hf s1) as (E1 & E2 & E3).
    rewrite E1, E2. auto.
  - split; [done|]. cbn. split.
    + intros u s0 Hu. exists (f s0). rewrite lookup_fmap, Hu. split; [done|].
      destruct (Hf s0) as (_ & _ & ->). apply stats_le_refl.
    + intros u s0 c0. rewrite lookup_fmap.
      destruct (m !! u) as [s1|] eqn:Hu; [|done]. intros [= <-] E.
      destruct (Hf s1) as (E1 & _). rewrite E1 in E. right. exists s1, c0. auto.
Qed.

(** * Timer handles stay below the counter *)

Lemma handles_ok_set nt tm uid k :
  handles_ok nt tm →
  handles_ok (S nt) (<[uid := <[k := nt]> (slots_of uid tm)]> tm).
Proof.
  intros H. apply (handles_ok_insert nt); [done | lia |].
  intros k' h. rewrite lookup_insert. case_decide.
  - intros [= <-]. lia.
  - intros Hk. pose proof (handles_ok_slots _ _ _ _ _ H Hk). lia.
Qed.

Lemma handles_ok_cleared nt tm uid ks q :
  handles_ok nt tm →
  handles_ok nt (<[uid := cleared_slots ks (slots_of uid tm) q]> tm).
Proof.
  intros H. apply (handles_ok_insert nt); [done | lia |].
  intros k' h Hk. apply cleared_slots_sub in Hk. by eapply handles_ok_slots.
Qed.

Lemma handles_ok_set_cleared nt tm uid k ks q :
  handles_ok nt tm →
  handles_ok (S nt) (<[uid := <[k := nt]> (cleared_slots ks (slots_of uid tm) q)]> tm).
Proof.
  intros H. apply (handles_ok_insert nt); [done | lia |].
  intros k' h. rewrite lookup_insert. case_decide.
  - intros [= <-]. lia.
  - intros Hk. apply cleared_slots_sub in Hk.
    pose proof (handles_ok_slots _ _ _ _ _ H Hk). lia.
Qed.

Lemma effective_truthy o p d :
  truthy_num d = true → truthy_num (effective o p d) = true.
Proof.
  intros Hd. unfold effective, or_default.
  destruct o as [x|]; [destruct (truthy_num x) eqn:E; [done|]|];
    by destruct (truthy_num p) eqn:E'.
Qed.

Lemma inc_ext_insert (inc : gmap Uuid Incident) i x r :
  is_Some (inc !! r) → is_Some (<[i := x]> inc !! r).
Proof. intros H. apply lookup_insert_is_Some'. by right. Qed.

Lemma inc_ext_alter (inc : gmap Uuid Incident) f i r :
  is_Some (inc !! r) → is_Some (alter f i inc !! r).
Proof. intros H. by apply lookup_alter_is_Some. Qed.

Create HintDb inv.

#[local] Hint Resolve queue_ok_snoc queue_ok_cleared queue_ok_cancel queue_ok_rearm
  handles_ok_set handles_ok_cleared handles_ok_set_cleared
  inc_ext_insert inc_ext_alter keeps_round_refl keeps_cycle_refl : inv.

(** The four obligations of [session_step] on a session given by field
    assignments. *)
Ltac cycle_clause :=
  let c' := fresh "c'" in let E := fresh "E" in
  intros c' E;
  first
  [ discriminate E
  | right; exists c'; split; [exact E|]; split; [reflexivity | apply keeps_round_refl]
  | left; injection E as <-; cbn; lia
  | right; eexists; split; [reflexivity|]; injection E as <-;
    unfold keeps_round, keeps_cycle; cbn; intuition (auto with zarith) ].

Ltac incident_clause :=
  let r := fresh "r" in let E := fresh "E" in
  intros r E;
  first
  [ discriminate E
  | left; exact E
  | right; injection E as <-; apply lookup_insert_is_Some'; by left ].

Ltac session_clauses :=
  unfold session_step, session_ok, stats_le, log_grows in *; cbn in *;
  repeat match goal with H : _ ∧ _ |- _ => destruct H end;
  repeat split; auto using effective_truthy; try lia;
  try cycle_clause; try incident_clause; try (intros; discriminate);
  try (intros [? ?]; discriminate).

Section Steps.
Variables (uid : string) (m : gmap string Session)
          (tm : gmap string (gmap Slot TimerId)) (inc : gmap Uuid Incident)
          (q : list Timer) (t : Time) (nu : Uuid) (nt : TimerId)
          (ob : list Event) (un : option string).
Hypothesis HI : Inv (mkWorld m tm inc q t nu nt ob un).

Local Abbreviation W := (mkWorld m tm inc q t nu nt ob un).

Lemma Inv_parts : sessions_ok nu inc m ∧ queue_ok nt q ∧ handles_ok nt tm.
Proof. exact HI. Qed.

Lemma same_step : Inv W ∧ evolves keeps_round W W.
Proof. split; [done | apply evolves_refl, keeps_round_refl]. Qed.

Lemma triggerCheckin_step :
  Inv (triggerCheckin uid W) ∧ evolves keeps_round W (triggerCheckin uid W).
Proof.
  destruct Inv_parts as (HS & HQ & HH).
  destruct (m !! uid) as [s|] eqn:Hs;
    [|rewrite triggerCheckin_none by done; apply same_step].
  destruct (enabled s) eqn:He;
    [|rewrite (triggerCheckin_off _ _ _ _ _ _ _ _ _ _ s) by done; apply same_step].
  destruct (triggerCheckin_at uid m tm inc q t nu nt ob un s Hs He) as (l' & ob' & -> & Hl).
  eapply world_step; eauto with inv; try lia.
  intros Hok. destruct s as [? ? ? ? ? ? ? ? ? ? ? [] ?]. session_clauses.
Qed.

Lemma stale_step (w' : World) : stale_at uid W → w' = W →
  Inv w' ∧ evolves keeps_round W w'.
Proof. intros _ ->. apply same_step. Qed.

Lemma startIVR_step n :
  Inv (startIVR uid n W) ∧ evolves keeps_cycle W (startIVR uid n W).
Proof.
  destruct Inv_parts as (HS & HQ & HH).
  assert (Hsame : Inv W ∧ evolves keeps_cycle W W)
    by (split; [done | apply evolves_refl, keeps_cycle_refl]).
  destruct (m !! uid) as [s|] eqn:Hs;
    [|rewrite startIVR_stale; [done | by unfold stale_at; cbn; rewrite Hs]].
  destruct (stale_dec s) as [Hst|Hst];
    [rewrite startIVR_stale; [done | by unfold stale_at; cbn; rewrite Hs]|].
  apply not_stale in Hst as (c & Hc & Hr).
  destruct (startIVR_at uid m tm inc q t nu nt ob un s Hs n c Hc Hr) as (l' & ob' & -> & Hl).
  eapply world_step; eauto with inv; try lia.
  intros Hok. destruct s; destruct c; cbn in Hc, Hr; subst. session_clauses.
Qed.

Lemma graceExpired_step :
  Inv (graceExpired uid W) ∧ evolves keeps_cycle W (graceExpired uid W).
Proof.
  destruct Inv_parts as (HS & HQ & HH).
  assert (Hsame : Inv W ∧ evolves keeps_cycle W W)
    by (split; [done | apply evolves_refl, keeps_cycle_refl]).
  destruct (m !! uid) as [s|] eqn:Hs;
    [|rewrite graceExpired_stale; [done | by unfold stale_at; cbn; rewrite Hs]].
  destruct (stale_dec s) as [Hst|Hst];
    [rewrite graceExpired_stale; [done | by unfold stale_at; cbn; rewrite Hs]|].
  apply not_stale in Hst as (c & Hc & Hr).
  destruct (graceExpired_at uid m tm inc q t nu nt ob un s Hs c Hc Hr) as (l' & ob' & -> & Hl).
  eapply world_step; eauto with inv; try lia.
  intros Hok. destruct s as [? ? ? ? ? ? ? ? ? ? ? [] ?]; destruct c; cbn in Hc, Hr; subst.
  session_clauses.
Qed.

Lemma ringExpired_step n :
  Inv (ringExpired uid n W) ∧ evolves keeps_round W (ringExpired uid n W).
Proof.
  destruct Inv_parts as (HS & HQ & HH).
  destruct (m !! uid) as [s|] eqn:Hs;
    [|rewrite ringExpired_stale;
      [apply same_step | by unfold stale_at; cbn; rewrite Hs]].
  destruct (stale_dec s) as [Hst|Hst];
    [rewrite ringExpired_stale;
      [apply same_step | by unfold stale_at; cbn; rewrite Hs]|].
  apply not_stale in Hst as (c & Hc & Hr).
  assert (He : enabled s = true).
  { destruct (HS _ _ Hs) as ((_ & Hen & _) & _). apply Hen. rewrite Hc. eauto. }
  destruct (n <? 3) eqn:Hn.
  { destruct (ringExpired_gap uid m tm inc q t nu nt ob un s Hs n c Hc Hr Hn)
      as (l' & ob' & -> & Hl).
    eapply world_step; eauto with inv; try lia.
    intros Hok. destruct s; destruct c; cbn in Hc, Hr; subst. session_clauses. }
  destruct (2 <=? missedCalls c + 1) eqn:Hd.
  { destruct (thrown (emergencyContacts s)) as [e|] eqn:Hth.
    - destruct (ringExpired_throws uid m tm inc q t nu nt ob un s Hs n c e Hc Hr Hn Hd Hth)
        as (l' & ob' & -> & Hl).
      eapply world_step; eauto with inv; try lia.
      intros Hok. destruct s as [? ? ? ? ? ? ? ? ? ? ? [] ?]; destruct c;
        cbn in Hc, Hr, He; subst. session_clauses.
    - destruct (ringExpired_dispatch uid m tm inc q t nu nt ob un s Hs n c Hc Hr Hn Hd Hth)
        as (l' & ob' & -> & Hl).
      eapply world_step; eauto with inv; try lia.
      intros Hok. destruct s as [? ? ? ? ? ? ? ? ? ? ? [] ?]; destruct c;
        cbn in Hc, Hr, He; subst. session_clauses. }
  destruct (ringExpired_resume uid m tm inc q t nu nt ob un s Hs n c Hc Hr Hn Hd He)
    as (l' & ob' & -> & Hl).
  eapply world_step; eauto with inv; try lia.
  intros Hok. destruct s; destruct c; cbn in Hc, Hr; subst. session_clauses.
Qed.

Lemma broadcastTick_step i self :
  Inv (broadcastTick uid i self W) ∧ evolves keeps_round W (broadcastTick uid i self W).
Proof.
  destruct Inv_parts as (HS & HQ & HH).
  destruct (m !! uid) as [s|] eqn:Hs.
  - destruct (activeIncident s) as [r|] eqn:Hi.
    + rewrite (broadcastTick_at _ _ _ _ _ _ _ _ _ _ s Hs i self r Hi).
      apply frame_step; auto with inv.
    + rewrite (broadcastTick_off _ _ _ _ _ _ _ _ _ _ s Hs i self Hi).
      apply frame_step; auto with inv.
  - rewrite broadcastTick_none by done. apply frame_step; auto with inv.
Qed.

Lemma or_default_truthy_str a b :
  truthy_str b = true → truthy_str (or_default truthy_str a b) = true.
Proof. intros Hb. unfold or_default. destruct a as [x|]; [|done]. by destruct (truthy_str x) eqn:E. Qed.

Lemma or_default_truthy_num a b :
  truthy_num b = true → truthy_num (or_default truthy_num a b) = true.
Proof. intros Hb. unfold or_default. destruct a as [x|]; [|done]. by destruct (truthy_num x) eqn:E. Qed.

Lemma js_or_socket k0 k :
  js_or truthy_str k0 None = Some k → truthy_str k = true.
Proof.
  unfold js_or. destruct k0 as [x|]; [|done].
  destruct (truthy_str x) eqn:E; [|done]. by intros [= <-].
Qed.

Lemma post_register_step ru rn rp rc rl :
  Inv (post_register ru rn rp rc rl W).1
  ∧ evolves keeps_round W (post_register ru rn rp rc rl W).1.
Proof.
  destruct Inv_parts as (HS & HQ & HH). unfold post_register.
  destruct (js_or truthy_str ru None) as [u|]; [|apply same_step].
  cbn [fst set_sessions sessions timers incidents queue now next_uuid
       next_timer outbox uncaught].
  destruct (m !! u) as [s|] eqn:Hs.
  - eapply world_step; eauto with inv.
    intros Hok. destruct s. unfold session_step, session_ok, stats_le in *. cbn in *.
    repeat match goal with H : _ ∧ _ |- _ => destruct H end.
    repeat match goal with H : truthy_str _ = true |- _ => rewrite H end.
    repeat match goal with H : truthy_num _ = true |- _ => rewrite H end.
    repeat split; auto using or_default_truthy_str, or_default_truthy_num; try lia;
      try (intros; discriminate); try (intros [? ?]; discriminate).
    intros k Hk. by eapply js_or_socket.
  - apply new_step; auto with inv. unfold session_ok. cbn.
    repeat split; auto using or_default_truthy_str; try lia;
      try (intros; discriminate); try (intros [? ?]; discriminate).
Qed.

Lemma post_checkin_enable_step ri rg :
  Inv (post_checkin_enable uid ri rg W).1
  ∧ evolves keeps_round W (post_checkin_enable uid ri rg W).1.
Proof.
  destruct Inv_parts as (HS & HQ & HH).
  destruct (m !! uid) as [s|] eqn:Hs.
  2: { cbv beta delta [post_checkin_enable]. wsimpl. apply same_step. }
  destruct (post_checkin_enable_at uid m tm inc q t nu nt ob un s Hs ri rg)
    as (l' & ob' & -> & Hl).
  cbn [fst]. eapply world_step; eauto with inv; try lia.
  intros Hok. destruct s. session_clauses.
Qed.

Lemma post_dev_demo_step :
  Inv (post_dev_demo uid W).1 ∧ evolves keeps_round W (post_dev_demo uid W).1.
Proof.
  destruct Inv_parts as (HS & HQ & HH).
  destruct (m !! uid) as [s|] eqn:Hs.
  2: { cbv beta delta [post_dev_demo]. wsimpl. apply same_step. }
  destruct (post_dev_demo_at uid m tm inc q t nu nt ob un s Hs) as (l' & ob' & -> & Hl).
  cbn [fst]. eapply world_step; eauto with inv; try lia.
  intros Hok. destruct s. session_clauses.
Qed.

Lemma post_checkin_disable_step :
  Inv (post_checkin_disable uid W).1
  ∧ evolves keeps_round W (post_checkin_disable uid W).1.
Proof.
  destruct Inv_parts as (HS & HQ & HH).
  destruct (m !! uid) as [s|] eqn:Hs.
  2: { cbv beta delta [post_checkin_disable]. wsimpl. apply same_step. }
  destruct (post_checkin_disable_at uid m tm inc q t nu nt ob un s Hs)
    as (l' & ob' & -> & Hl).
  cbn [fst]. eapply world_step; eauto with inv; try lia.
  intros Hok. destruct s. session_clauses.
Qed.

Lemma post_checkin_respond_step cid :
  Inv (post_checkin_respond uid cid W).1
  ∧ evolves keeps_round W (post_checkin_respond uid cid W).1.
Proof.
  destruct Inv_parts as (HS & HQ & HH).
  destruct (m !! uid) as [s|] eqn:Hs;
    [|rewrite post_checkin_respond_none by done; apply same_step].
  destruct (stale_dec s) as [Hst|Hst].
  { destruct (post_checkin_respond_fail uid cid W s Hs (or_introl Hst)) as (e & ->).
    apply same_step. }
  apply not_stale in Hst as (c & Hc & Hr).
  destruct (decide (cid = Some (checkin_id c))) as [->|Hne].
  2: { destruct (post_checkin_respond_fail uid cid W s Hs) as (e & ->);
         [right; eauto | apply same_step]. }
  assert (He : enabled s = true).
  { destruct (HS _ _ Hs) as ((_ & Hen & _) & _). apply Hen. rewrite Hc. eauto. }
  destruct (post_checkin_respond_at uid m tm inc q t nu nt ob un s Hs c Hc Hr He)
    as (l' & ob' & -> & Hl).
  cbn [fst]. eapply world_step; eauto with inv; try lia.
  intros Hok. destruct s as [? ? ? ? ? ? ? ? ? ? ? [] ?]; destruct c;
    cbn in Hc, Hr, He; subst. session_clauses.
Qed.

Lemma post_ivr_respond_step cn :
  Inv (post_ivr_respond uid cn W).1 ∧ evolves keeps_round W (post_ivr_respond uid cn W).1.
Proof.
  destruct Inv_parts as (HS & HQ & HH).
  destruct (m !! uid) as [s|] eqn:Hs.
  2: { destruct (post_ivr_respond_fail uid cn W) as (code & e & -> & _);
         [by unfold stale_at; cbn; rewrite Hs | apply same_step]. }
  destruct (stale_dec s) as [Hst|Hst].
  { destruct (post_ivr_respond_fail uid cn W) as (code & e & -> & _);
      [by unfold stale_at; cbn; rewrite Hs | apply same_step]. }
  apply not_stale in Hst as (c & Hc & Hr).
  assert (He : enabled s = true).
  { destruct (HS _ _ Hs) as ((_ & Hen & _) & _). apply Hen. rewrite Hc. eauto. }
  destruct (post_ivr_respond_at uid m tm inc q t nu nt ob un s Hs cn c Hc Hr He)
    as (l' & ob' & -> & Hl).
  cbn [fst]. eapply world_step; eauto with inv; try lia.
  intros Hok. destruct s; destruct c; cbn in Hc, Hr, He; subst. session_clauses.
Qed.

Lemma post_location_update_step a b c :
  Inv (post_location_update uid a b c W).1
  ∧ evolves keeps_round W (post_location_update uid a b c W).1.
Proof.
  destruct Inv_parts as (HS & HQ & HH).
  destruct (m !! uid) as [s|] eqn:Hs.
  2: { cbv beta delta [post_location_update]. wsimpl. apply same_step. }
  rewrite (post_location_update_at uid m tm inc q t nu nt ob un s Hs).
  cbn [fst]. eapply world_step; eauto with inv; try lia.
  intros Hok. destruct s. session_clauses.
Qed.

Lemma post_incident_resolve_step i :
  Inv (post_incident_resolve uid i W).1
  ∧ evolves keeps_round W (post_incident_resolve uid i W).1.
Proof.
  destruct Inv_parts as (HS & HQ & HH).
  destruct (m !! uid) as [s|] eqn:Hs.
  2: { cbv beta delta [post_incident_resolve]. wsimpl. apply same_step. }
  destruct (decide (activeIncident s = i)) as [<-|Hne].
  2: { rewrite (post_incident_resolve_other uid m tm inc q t nu nt ob un s Hs i Hne).
       apply same_step. }
  destruct (activeIncident s) as [r|] eqn:Hi.
  - assert (He : enabled s = true).
    { destruct (HS _ _ Hs) as ((_ & _ & Hen & _) & _). apply Hen. rewrite Hi. eauto. }
    destruct (post_incident_resolve_at uid m tm inc q t nu nt ob un s Hs r Hi He)
      as (l' & ob' & -> & Hl).
    cbn [fst]. eapply world_step; eauto with inv; try lia.
    intros Hok. destruct s. cbn in Hi, He; subst. session_clauses.
  - rewrite (post_incident_resolve_throws uid m tm inc q t nu nt ob un s Hs Hi).
    cbn [fst]. apply frame_step; auto with inv.
Qed.

Lemma register_socket_step sock :
  truthy_str sock = true →
  Inv (register_socket sock uid W) ∧ evolves keeps_round W (register_socket sock uid W).
Proof.
  intros Hsock. destruct Inv_parts as (HS & HQ & HH).
  destruct (m !! uid) as [s|] eqn:Hs.
  2: { cbv beta delta [register_socket]. wsimpl. apply same_step. }
  rewrite (register_socket_at uid m tm inc q t nu nt ob un s Hs).
  eapply world_step; eauto with inv; try lia.
  intros Hok. destruct s. session_clauses. by intros k [= <-].
Qed.

Lemma disconnect_step sock :
  Inv (disconnect sock W) ∧ evolves keeps_round W (disconnect sock W).
Proof.
  unfold disconnect. cbn. apply handle_step; auto with inv.
  - intros s Hok. case_bool_decide; [|done]. destruct s.
    unfold session_ok in *. cbn in *. intuition discriminate.
  - intros s. by case_bool_decide; destruct s.
Qed.

End Steps.

(** * Every input, and every run *)

Lemma step_weaken w w' :
  Inv w' ∧ evolves keeps_round w w' → Inv w' ∧ evolves keeps_cycle w w'.
Proof.
  intros [H1 H2]. split; [done|].
  eapply evolves_weaken; [apply keeps_round_cycle | done].
Qed.

Lemma callback_step self cb w :
  Inv w →
  Inv (run_callback self cb w)
  ∧ evolves keeps_cycle w (run_callback self cb w)
  ∧ (moves_round cb = false → evolves keeps_round w (run_callback self cb w)).
Proof.
  destruct w as [m tm inc q t nu nt ob un]. intros HI.
  destruct cb as [u|u|u n|u n|u i]; cbn [run_callback moves_round].
  - destruct (triggerCheckin_step u m tm inc q t nu nt ob un HI) as [H1 H2].
    split; [done|]. split; [|done].
    eapply evolves_weaken; [apply keeps_round_cycle | done].
  - destruct (graceExpired_step u m tm inc q t nu nt ob un HI) as [H1 H2].
    split; [done|]. split; [done|]. discriminate.
  - destruct (ringExpired_step u m tm inc q t nu nt ob un HI n) as [H1 H2].
    split; [done|]. split; [|done].
    eapply evolves_weaken; [apply keeps_round_cycle | done].
  - destruct (startIVR_step u m tm inc q t nu nt ob un HI (n + 1)) as [H1 H2].
    split; [done|]. split; [done|]. discriminate.
  - destruct (broadcastTick_step u m tm inc q t nu nt ob un HI i self) as [H1 H2].
    split; [done|]. split; [|done].
    eapply evolves_weaken; [apply keeps_round_cycle | done].
Qed.

Lemma fire_step tmr w :
  Inv w →
  Inv (fire tmr w)
  ∧ evolves keeps_cycle w (fire tmr w)
  ∧ (moves_round (callback tmr) = false → evolves keeps_round w (fire tmr w)).
Proof.
  destruct w as [m tm inc q t nu nt ob un]. intros HI.
  pose proof HI as (HS & HQ & HH). cbn in HS, HQ, HH.
  unfold fire.
  set (w1 := match period tmr with
             | Some p => _
             | None => _
             end).
  assert (H1 : Inv w1 ∧ evolves keeps_round (mkWorld m tm inc q t nu nt ob un) w1).
  { subst w1. destruct (period tmr);
      cbv beta iota delta [set_now set_queue clearTimeout sessions timers incidents
                           queue now next_uuid next_timer outbox uncaught];
      apply frame_step; auto with inv. }
  destruct H1 as [I1 E1].
  destruct (callback_step (timer_id tmr) (callback tmr) w1 I1) as (I2 & E2 & E3).
  split; [done|]. split.
  - eapply evolves_trans; [apply keeps_cycle_trans | | exact E2].
    eapply evolves_weaken; [apply keeps_round_cycle | done].
  - intros Hm. eapply evolves_trans; [apply keeps_round_trans | exact E1 | auto].
Qed.

Lemma exec_step op w :
  Inv w → wf_op op = true →
  Inv (exec op w)
  ∧ evolves keeps_cycle w (exec op w)
  ∧ (round_input op w = false → evolves keeps_round w (exec op w)).
Proof.
  intros HI Hwf.
  assert (Hsame : Inv w ∧ evolves keeps_round w w)
    by (split; [done | apply evolves_refl, keeps_round_refl]).
  assert (Hall : ∀ w', Inv w' ∧ evolves keeps_round w w' →
            Inv w' ∧ evolves keeps_cycle w w'
            ∧ (round_input op w = false → evolves keeps_round w w')).
  { intros w' [H1 H2]. split; [done|]. split; [|done].
    eapply evolves_weaken; [apply keeps_round_cycle | done]. }
  unfold exec. destruct (uncaught w) eqn:Hu; [by apply Hall|].
  destruct w as [m tm inc q t nu nt ob un].
  destruct op;
    lazymatch goal with
    | |- context [find_timer] => idtac
    | _ => apply Hall
    end.
  - apply post_register_step, HI.
  - apply post_checkin_enable_step, HI.
  - apply post_checkin_disable_step, HI.
  - apply post_checkin_respond_step, HI.
  - apply post_ivr_respond_step, HI.
  - apply post_location_update_step, HI.
  - apply post_incident_resolve_step, HI.
  - unfold get_session. cbn. by destruct (m !! uid).
  - apply post_dev_demo_step, HI.
  - by apply register_socket_step.
  - apply disconnect_step, HI.
  - cbn [round_input queue]. destruct (find_timer h q) as [tmr|]; [by apply fire_step|].
    destruct Hsame as [H1 H2]. split; [done|]. split; [|done].
    eapply evolves_weaken; [apply keeps_round_cycle | done].
  - cbn. apply frame_step; auto with inv; apply HI.
Qed.

Lemma Inv_init : Inv init.
Proof.
  split; [|split]; cbn.
  - intros u s. by rewrite lookup_empty.
  - constructor.
  - intros u ts k h. by rewrite lookup_empty.
Qed.

Lemma run_step ops : ∀ w,
  Inv w → forallb wf_op ops = true →
  Inv (run ops w) ∧ evolves keeps_cycle w (run ops w).
Proof.
  induction ops as [|op ops IH]; intros w HI Hwf.
  - split; [done | apply evolves_refl, keeps_cycle_refl].
  - cbn in Hwf. apply andb_prop in Hwf as [Hop Hops].
    destruct (exec_step op w HI Hop) as (I1 & E1 & _).
    destruct (IH (exec op w) I1 Hops) as (I2 & E2).
    unfold run. cbn [foldl]. split; [done|].
    eapply evolves_trans; [apply keeps_cycle_trans | exact E1 | exact E2].
Qed.

Lemma reachable_Inv w : reachable w → Inv w.
Proof. intros (ops & Hwf & ->). by apply run_step; [apply Inv_init|]. Qed.

Lemma reachable_script ops :
  forallb wf_op ops = true → reachable (run ops init).
Proof. intros H. by exists ops. Qed.

Lemma run_app ops1 ops2 w : run (ops1 ++ ops2) w = run ops2 (run ops1 w).
Proof. unfold run. by rewrite foldl_app. Qed.

Lemma reachable_run ops w :
  reachable w → forallb wf_op ops = true → reachable (run ops w).
Proof.
  intros (ops0 & Hwf0 & ->) Hwf. exists (ops0 ++ ops). split.
  - rewrite forallb_app. by rewrite Hwf0, Hwf.
  - by rewrite run_app.
Qed.

(** * The activity log (C9) *)

Lemma take_app_take {A} n (a b : list A) : take n (a ++ take n b) = take n (a ++ b).
Proof. rewrite !take_app, take_take. do 2 f_equal. lia. Qed.

Lemma log_push_fold es : ∀ l,
  (length l ≤ 100)%nat →
  foldl (λ l e, log_push e l) l es = take 100 (rev es ++ l).
Proof.
  induction es as [|e es IH]; intros l Hl; cbn [foldl rev].
  - cbn. symmetry. by apply firstn_all2.
  - rewrite IH by (by apply log_push_length).
    rewrite log_push_take by done. rewrite take_app_take.
    by rewrite <- app_assoc.
Qed.

Lemma addLog_log uid ty msg ex w s :
  sessions w !! uid = Some s →
  ∃ s', sessions (addLog uid ty msg ex w) !! uid = Some s'
        ∧ log s' = log_push (make_entry (next_uuid w) ty msg (now w) ex) (log s)
        ∧ next_uuid (addLog uid ty msg ex w) = S (next_uuid w)
        ∧ now (addLog uid ty msg ex w) = now w.
Proof.
  destruct w as [m tm inc q t nu nt ob un]. cbn. intros Hs.
  rewrite (addLog_at _ _ _ _ _ _ _ _ _ _ _ _ _ s Hs). cbn.
  eexists. rewrite lookup_insert_eq. split; [done|]. by destruct s.
Qed.

Lemma addLogs_log uid evs : ∀ w s,
  sessions w !! uid = Some s →
  ∃ s', sessions (addLogs uid evs w) !! uid = Some s'
        ∧ log s' = foldl (λ l e, log_push e l) (log s)
                     (entries_from (next_uuid w) (now w) evs).
Proof.
  induction evs as [|ev evs IH]; intros w s Hs.
  - exists s. by split.
  - unfold addLogs. cbn [foldl entries_from].
    destruct (addLog_log uid ev.1.1 ev.1.2 ev.2 w s Hs) as (s1 & Hs1 & Hl1 & Hnu & Hnow).
    destruct (IH _ _ Hs1) as (s2 & Hs2 & Hl2).
    exists s2. split; [exact Hs2|]. by rewrite Hl2, Hl1, Hnu, Hnow.
Qed.

Lemma entries_from_length nu t evs : length (entries_from nu t evs) = length evs.
Proof. revert nu. induction evs as [|ev evs IH]; intros nu; cbn; [done|]. by rewrite IH. Qed.

(** C9.  [addLog] puts the new entry in front of the user's log and drops
    the last (oldest) entry once the length exceeds 100.  Hence the log of
    every user of every reachable state has at most 100 entries, and after
    more than 100 appends it has exactly 100 entries: the 100 most recent
    ones, most recent first. *)
Theorem log_is_bounded_most_recent_first :
  (∀ w uid ty msg ex s,
     sessions w !! uid = Some s →
     ∃ s', sessions (addLog uid ty msg ex w) !! uid = Some s'
           ∧ log s' = (let l := make_entry (next_uuid w) ty msg (now w) ex :: log s in
                       if (100 <? length l)%nat then removelast l else l))
  ∧ (∀ w uid s, reachable w → sessions w !! uid = Some s → (length (log s) ≤ 100)%nat)
  ∧ (∀ w uid evs s,
       reachable w → sessions w !! uid = Some s →
       ∃ s', sessions (addLogs uid evs w) !! uid = Some s'
             ∧ log s' = take 100 (rev (entries_from (next_uuid w) (now w) evs) ++ log s)
             ∧ (length (log s') ≤ 100)%nat
             ∧ ((100 < length evs)%nat →
                length (log s') = 100%nat
                ∧ log s' = take 100 (rev (entries_from (next_uuid w) (now w) evs)))).
Proof.
  split; [|split].
  - intros w uid ty msg ex s Hs.
    destruct (addLog_log uid ty msg ex w s Hs) as (s' & Hs' & Hl & _). eauto.
  - intros w uid s Hr Hs. apply reachable_Inv in Hr as (HS & _).
    destruct (HS _ _ Hs) as ((Hlen & _) & _). exact Hlen.
  - intros w uid evs s Hr Hs.
    assert (Hlen : (length (log s) ≤ 100)%nat).
    { apply reachable_Inv in Hr as (HS & _). by destruct (HS _ _ Hs) as ((? & _) & _). }
    destruct (addLogs_log uid evs w s Hs) as (s' & Hs' & Hl).
    rewrite log_push_fold in Hl by done.
    exists s'. split; [done|]. split; [done|]. split.
    + rewrite Hl, length_take. lia.
    + intros Hmany.
      assert (Hrev : (100 ≤ length (rev (entries_from (next_uuid w) (now w) evs)))%nat)
        by (rewrite length_rev, entries_from_length; lia).
      rewrite Hl. rewrite take_app_le by done. split; [|done].
      rewrite length_take. lia.
Qed.

(** The bound at user "u" after a rescue dispatch. *)
Lemma log_is_bounded_most_recent_first_witness :
  reachable dispatched
  ∧ ∃ s, sessions dispatched !! "u" = Some s ∧ (length (log s) ≤ 100)%nat.
Proof.
  assert (Hr : reachable dispatched).
  { apply reachable_run; [apply reachable_script; reflexivity | reflexivity]. }
  assert (Hs : ∃ s, sessions dispatched !! "u" = Some s) by (eexists; run_eval).
  destruct Hs as (s & Hs).
  split; [exact Hr|]. exists s. split; [exact Hs|].
  exact (proj1 (proj2 log_is_bounded_most_recent_first) dispatched "u" s Hr Hs).
Defined.

(** * The prototype backend (C10) *)

Lemma never_registered_undefined k us :
  Prototype.never_registered k us → Prototype.lookup_key k us = Prototype.RUndefined.
Proof.
  intros (Hown & Hproto & Hpol & Hk). unfold Prototype.lookup_key.
  rewrite Hown, Hproto, Hpol. apply not_elem_of_cons in Hk as [Hne Hk].
  destruct (String.eqb_spec k "__proto__") as [->|_]; [done|].
  by rewrite bool_decide_eq_false_2.
Qed.

(** C10.  In the prototype backend, POST /ok and POST /location read
    [users[userId]] and touch its [missedCalls] field without a guard.  For
    a [userId] that /start never stored (and that nothing up the prototype
    chain defines) the entry is [undefined], so both handlers throw a
    TypeError instead of answering: they are not total, and they have no
    not-found branch.  They throw exactly when the entry is [undefined]. *)
Theorem prototype_handlers_throw_on_unregistered_user :
  (∀ k us,
     Prototype.never_registered k us →
     Prototype.post_ok k us = (us, Prototype.TypeError)
     ∧ ∀ la lo, Prototype.post_location k la lo us = (us, Prototype.TypeError))
  ∧ (∀ k us,
       ((Prototype.post_ok k us).2 = Prototype.TypeError
        ↔ Prototype.lookup_key k us = Prototype.RUndefined)
       ∧ ∀ la lo, ((Prototype.post_location k la lo us).2 = Prototype.TypeError
                   ↔ Prototype.lookup_key k us = Prototype.RUndefined))
  ∧ Prototype.post_ok "user001" Prototype.empty = (Prototype.empty, Prototype.TypeError)
  ∧ Prototype.post_location "user001" None None Prototype.empty
    = (Prototype.empty, Prototype.TypeError).
Proof.
  split; [|split; [|split]].
  - intros k us H. apply never_registered_undefined in H.
    unfold Prototype.post_ok, Prototype.post_location, Prototype.ivrCall,
      Prototype.assign_missedCalls. by rewrite H.
  - intros k us.
    unfold Prototype.post_ok, Prototype.post_location, Prototype.ivrCall,
      Prototype.assign_missedCalls.
    destruct (Prototype.lookup_key k us); cbn; split; try intros la lo; split;
      intros; (done || discriminate).
  - reflexivity.
  - reflexivity.
Qed.

(** After [/start] for the same id, both handlers answer. *)
Lemma prototype_handlers_answer_after_start k i us :
  k ≠ "__proto__" →
  let us' := (Prototype.post_start k i us).1 in
  (Prototype.post_ok k us').2 = Prototype.Sent "User safe"
  ∧ (Prototype.post_location k None None us').2 = Prototype.Sent "Escalation started".
Proof.
  intros Hk. unfold Prototype.post_start.
  destruct (String.eqb_spec k "__proto__") as [->|_]; [done|]. cbn.
  unfold Prototype.post_ok, Prototype.post_location, Prototype.ivrCall,
    Prototype.assign_missedCalls, Prototype.lookup_key. cbn.
  by rewrite lookup_insert_eq.
Qed.

(** The theorem at the id the browser client sends, before any /start. *)
Lemma prototype_handlers_throw_on_unregistered_user_witness :
  Prototype.never_registered "user001" Prototype.empty
  ∧ Prototype.post_ok "user001" Prototype.empty = (Prototype.empty, Prototype.TypeError)
  ∧ Prototype.post_location "user001" (Some 9.9312%Q) (Some 76.2673%Q) Prototype.empty
    = (Prototype.empty, Prototype.TypeError).
Proof.
  assert (H : Prototype.never_registered "user001" Prototype.empty).
  { repeat split. intros Hin.
    repeat (apply elem_of_cons in Hin as [Hin|Hin]; [discriminate Hin|]).
    by apply elem_of_nil in Hin. }
  destruct (proj1 prototype_handlers_throw_on_unregistered_user "user001" Prototype.empty H)
    as [H1 H2].
  split; [exact H|]. split; [exact H1 | apply H2].
Defined.

(** * Late timer callbacks (C2) *)

Lemma run_callback_stale uid cb self w :
  cycle_callback uid cb → stale_at uid w → run_callback self cb w = w.
Proof.
  intros [->|[[n ->]|[n ->]]] Hst; cbn.
  - by apply graceExpired_stale.
  - by apply ringExpired_stale.
  - by apply startIVR_stale.
Qed.

Lemma fire_stale uid tmr w :
  cycle_callback uid (callback tmr) → stale_at uid w →
  same_store w (fire tmr w)
  ∧ queue (fire tmr w)
    = match period tmr with
      | None => cancel (timer_id tmr) (queue w)
      | Some p => rearm (timer_id tmr) (Z.max (now w) (due tmr) + p) (queue w)
      end.
Proof.
  intros Hcb Hst. unfold fire.
  rewrite (run_callback_stale uid) by (done || by destruct (period tmr)).
  unfold same_store. by destruct (period tmr).
Qed.

Lemma broadcastTick_silent uid i self w :
  no_incident_at uid w → broadcastTick uid i self w = clearTimeout self w.
Proof.
  unfold no_incident_at. destruct w as [m tm inc q t nu nt ob un]. cbn.
  destruct (m !! uid) as [s|] eqn:Hs.
  - intros Hi. by rewrite (broadcastTick_off _ _ _ _ _ _ _ _ _ _ s Hs).
  - intros _. by apply broadcastTick_none.
Qed.

Lemma same_store_refl w : same_store w w.
Proof. by repeat split. Qed.

Lemma same_store_trans w1 w2 w3 : same_store w1 w2 → same_store w2 w3 → same_store w1 w3.
Proof.
  unfold same_store. intros (A1 & A2 & A3 & A4 & A5 & A6 & A7) (B1 & B2 & B3 & B4 & B5 & B6 & B7).
  repeat split; congruence.
Qed.

Lemma same_store_stale uid w w' : same_store w w' → stale_at uid w → stale_at uid w'.
Proof. intros (E & _). unfold stale_at. by rewrite E. Qed.

(** Any number of cycle timers firing on a responded cycle. *)
Lemma fire_all_stale uid ts : ∀ w,
  Forall (λ x, cycle_callback uid (callback x)) ts → stale_at uid w →
  same_store w (fire_all ts w).
Proof.
  induction ts as [|x ts IH]; intros w Hts Hst; [apply same_store_refl|].
  apply list.Forall_cons in Hts as [Hx Hts].
  destruct (fire_stale uid x w Hx Hst) as [H1 _].
  unfold fire_all. cbn [foldl]. fold (fire_all ts (fire x w)).
  eapply same_store_trans; [exact H1|].
  apply IH; [done|]. by eapply same_store_stale.
Qed.

(** C2, as amended.  A timer callback that finds its cycle or incident
    gone does nothing.  When the user has no cycle or the cycle is
    already responded, the grace callback, every ring callback and every
    gap callback return the world as it is: no field of any session
    changes and no event is emitted.  When the user has no incident, the
    broadcast tick changes nothing but the list of live timers, from
    which it removes itself.  No exception is raised.  So after an
    accepted response, through /api/checkin/respond or /api/ivr/respond,
    and for as long as no check-in opens a new cycle, any grace, ring or
    gap timers of the user may fire, in any number and order: the cycle
    stays responded, its [ivrRound] is untouched, no event is sent and no
    timer is armed.  /api/checkin/respond moreover cancels the grace
    timer stored in the timer object. *)
Theorem stale_timer_callbacks_are_silent :
  (∀ uid w, stale_at uid w →
     graceExpired uid w = w
     ∧ (∀ n, ringExpired uid n w = w)
     ∧ (∀ n, startIVR uid n w = w))
  ∧ (∀ uid i self w, no_incident_at uid w →
       broadcastTick uid i self w = clearTimeout self w
       ∧ same_store w (broadcastTick uid i self w)
       ∧ now (broadcastTick uid i self w) = now w)
  ∧ (∀ uid tmr w, cycle_callback uid (callback tmr) → stale_at uid w →
       same_store w (fire tmr w)
       ∧ (period tmr = None → queue (fire tmr w) = cancel (timer_id tmr) (queue w)))
  ∧ (∀ w uid s c w1 ts,
       reachable w →
       sessions w !! uid = Some s → currentCheckin s = Some c → responded c = false →
       w1 = (post_checkin_respond uid (Some (checkin_id c)) w).1
       ∨ (∃ n, w1 = (post_ivr_respond uid n w).1) →
       Forall (λ x, cycle_callback uid (callback x)) ts →
       same_store w1 (fire_all ts w1)
       ∧ ∃ s1 c1, sessions (fire_all ts w1) !! uid = Some s1
                  ∧ currentCheckin s1 = Some c1
                  ∧ checkin_id c1 = checkin_id c ∧ responded c1 = true
                  ∧ ivrRound c1 = ivrRound c)
  ∧ (∀ w uid s c h x,
       reachable w →
       sessions w !! uid = Some s → currentCheckin s = Some c → responded c = false →
       slots_of uid (timers w) !! SGrace = Some h →
       x ∈ queue (post_checkin_respond uid (Some (checkin_id c)) w).1 →
       timer_id x ≠ h).
Proof.
  split; [|split; [|split; [|split]]].
  - intros uid w Hst. split; [by apply graceExpired_stale|].
    split; intros n; [by apply ringExpired_stale | by apply startIVR_stale].
  - intros uid i self w Hn. rewrite broadcastTick_silent by done.
    by repeat split.
  - intros uid tmr w Hcb Hst. destruct (fire_stale uid tmr w Hcb Hst) as [H1 H2].
    split; [done|]. intros Hp. by rewrite H2, Hp.
  - intros w uid s c w1 ts Hr Hs Hc Hresp Hw1 Hts.
    apply reachable_Inv in Hr as (HS & HQ & HH).
    destruct w as [m tm inc q t nu nt ob un]. cbn in Hs, HS, HQ, HH.
    assert (He : enabled s = true).
    { destruct (HS _ _ Hs) as ((_ & Hen & _) & _). apply Hen. rewrite Hc. eauto. }
    assert (H1 : ∃ s1, sessions w1 !! uid = Some s1
                       ∧ currentCheckin s1 = Some (set_responded t c)).
    { destruct Hw1 as [->|(n & ->)].
      - destruct (post_checkin_respond_at uid m tm inc q t nu nt ob un s Hs c Hc Hresp He)
          as (l' & ob' & -> & _).
        cbn. rewrite lookup_insert_eq. eexists. split; [done|]. by destruct s.
      - destruct (post_ivr_respond_at uid m tm inc q t nu nt ob un s Hs n c Hc Hresp He)
          as (l' & ob' & -> & _).
        cbn. rewrite lookup_insert_eq. eexists. split; [done|]. by destruct s. }
    destruct H1 as (s1 & Hs1 & Hc1).
    assert (Hst : stale_at uid w1).
    { unfold stale_at, stale. by rewrite Hs1, Hc1. }
    pose proof (fire_all_stale uid ts w1 Hts Hst) as Hsame.
    split; [exact Hsame|].
    destruct Hsame as (Hses & _). rewrite Hses, Hs1.
    eexists _, _. split; [done|]. split; [exact Hc1|]. by destruct c.
  - intros w uid s c h x Hr Hs Hc Hresp Hh.
    apply reachable_Inv in Hr as (HS & HQ & HH).
    destruct w as [m tm inc q t nu nt ob un]. cbn in Hs, HS, HQ, HH, Hh.
    assert (He : enabled s = true).
    { destruct (HS _ _ Hs) as ((_ & Hen & _) & _). apply Hen. rewrite Hc. eauto. }
    destruct (post_checkin_respond_at uid m tm inc q t nu nt ob un s Hs c Hc Hresp He)
      as (l' & ob' & -> & _).
    cbn [fst queue]. intros Hx Hid.
    apply elem_of_app in Hx as [Hx|Hx].
    + eapply (cleared_queue_gone cycleSlots); [| exact Hh | exact Hx | exact Hid].
      unfold cycleSlots. rewrite keys_of_given. apply list_elem_of_here.
    + apply list_elem_of_singleton in Hx. subst x. cbn in Hid. subst h.
      pose proof (handles_ok_slots _ _ _ _ _ HH Hh). lia.
Qed.

(** The theorem in demo mode: the first cycle of user "u" is answered
    through /api/ivr/respond at 6 s, and its grace timer (handle 1, due at
    15 s) fires before the next check-in. *)
Lemma stale_timer_callbacks_are_silent_witness :
  reachable answering
  ∧ same_store (post_ivr_respond "u" (Some 1) answering).1
      (fire_all [mkTimer 1%nat 15000 None (CbGrace "u")]
                (post_ivr_respond "u" (Some 1) answering).1)
  ∧ ∃ s1 c1, sessions (fire_all [mkTimer 1%nat 15000 None (CbGrace "u")]
                                (post_ivr_respond "u" (Some 1) answering).1) !! "u"
             = Some s1
      ∧ currentCheckin s1 = Some c1 ∧ responded c1 = true ∧ ivrRound c1 = 0.
Proof.
  assert (Hr : reachable answering) by (apply reachable_script; reflexivity).
  assert (Hs : ∃ s c, sessions answering !! "u" = Some s ∧ currentCheckin s = Some c
                      ∧ responded c = false ∧ ivrRound c = 0).
  { eexists _, _. split; [run_eval|]. repeat split; reflexivity. }
  destruct Hs as (s & c & Hs & Hc & Hresp & Hround).
  assert (Hts : Forall (λ x, cycle_callback "u" (callback x))
                  [mkTimer 1%nat 15000 None (CbGrace "u")]).
  { apply list.Forall_cons. split; [by left | apply list.Forall_nil; exact I]. }
  destruct (proj1 (proj2 (proj2 (proj2 stale_timer_callbacks_are_silent)))
              answering "u" s c (post_ivr_respond "u" (Some 1) answering).1
              [mkTimer 1%nat 15000 None (CbGrace "u")]
              Hr Hs Hc Hresp (or_intror (ex_intro _ (Some 1) eq_refl)) Hts)
    as (Hsame & s1 & c1 & Hs1 & Hc1 & _ & Hr1 & Hi1).
  rewrite Hround in Hi1.
  split; [exact Hr|]. split; [exact Hsame|].
  exists s1, c1. split; [exact Hs1|]. split; [exact Hc1|]. split; [exact Hr1 | exact Hi1].
Defined.

(** The response does not always win.  In demo mode the user answers the
    first cycle through /api/ivr/respond at 6 s, before its grace timer
    (handle 1, due at 15 s) has fired; the handler leaves that timer
    live.  The next check-in opens a second cycle at 11 s, and when the
    grace timer of the first cycle fires at 15 s it finds a cycle that is
    not responded: the final state shows [responded = false] and IVR
    call #1 ringing, six seconds before the grace period of the second
    cycle ends. *)
Lemma response_before_the_grace_timer_does_not_stop_the_calls :
  all_in_order (second_cycle ++ [Fire 1%nat]) init = true
  ∧ mkTimer 1%nat 15000 None (CbGrace "u") ∈ queue answering
  ∧ now answering = 6000
  ∧ (post_ivr_respond "u" (Some 1) answering).2
    = Json 200 (BSuccess (Some "IVR responded. Safe confirmed.") None)
  ∧ (∃ s c, sessions (post_ivr_respond "u" (Some 1) answering).1 !! "u" = Some s
            ∧ currentCheckin s = Some c ∧ responded c = true)
  ∧ (∃ s c, sessions (run [Fire 1%nat] second_open) !! "u" = Some s
            ∧ currentCheckin s = Some c
            ∧ responded c = false ∧ ivrRound c = 1 ∧ startedAt c = 11000)
  ∧ now (run [Fire 1%nat] second_open) = 15000
  ∧ mkTimer 4%nat 30000 None (CbRing "u" 1) ∈ queue (run [Fire 1%nat] second_open).
Proof.
  split; [run_eval|]. split.
  { assert (Hq : queue answering = [mkTimer 1%nat 15000 None (CbGrace "u")]) by run_eval.
    rewrite Hq. apply list_elem_of_here. }
  split; [run_eval|]. split; [run_eval|]. split.
  { eexists _, _. split; [run_eval|]. split; reflexivity. }
  split.
  { eexists _, _. split; [run_eval|]. repeat split; reflexivity. }
  split; [run_eval|].
  assert (Hq : ∃ x, queue (run [Fire 1%nat] second_open)
                    = [x; mkTimer 4%nat 30000 None (CbRing "u" 1)]).
  { eexists. run_eval. }
  destruct Hq as (x & ->). apply list_elem_of_further, list_elem_of_here.
Qed.

(** * Responding to a check-in (C3) *)

Lemma cycleSlots_not_checkin k : k ∈ cycleSlots → k ≠ SCheckin.
Proof.
  unfold cycleSlots. intros H ->.
  repeat (apply elem_of_cons in H as [H|H]; [discriminate|]).
  by apply elem_of_nil in H.
Qed.

(** C3, as amended.  [respondToCheckin(userId, checkinId)]
    (POST /api/checkin/respond) succeeds exactly when the user has a cycle
    that is not responded and whose id is [checkinId].  It answers 404
    (NotFound) without a session and 400 (InvalidState) when there is no
    cycle, the cycle is responded or the id differs, leaving the store as
    it is.  On success the cycle is marked responded, the pending gauge is
    decremented but not below 0, the timers whose handles are stored under
    the keys grace, ivr1, ivr2, ivr3, gap1 and gap2 of the user's timer
    object are cancelled and the keys removed, every other live timer
    stays live, and the next check-in is scheduled after the configured
    interval. *)
Theorem respond_to_checkin_contract w uid cid :
  reachable w →
  ((∃ msg ses, (post_checkin_respond uid cid w).2 = Json 200 (BSuccess msg ses))
   ↔ ∃ s c, sessions w !! uid = Some s ∧ currentCheckin s = Some c
            ∧ responded c = false ∧ cid = Some (checkin_id c))
  ∧ (sessions w !! uid = None →
     post_checkin_respond uid cid w = (w, Json 404 (BError "Session not found")))
  ∧ (∀ s, sessions w !! uid = Some s →
       stale s ∨ (∃ c, currentCheckin s = Some c ∧ cid ≠ Some (checkin_id c)) →
       ∃ e, post_checkin_respond uid cid w = (w, Json 400 (BError e)))
  ∧ (∀ s c, sessions w !! uid = Some s → currentCheckin s = Some c →
       responded c = false → cid = Some (checkin_id c) →
       let w' := (post_checkin_respond uid cid w).1 in
       ∃ s', sessions w' !! uid = Some s'
         ∧ currentCheckin s' = Some (set_responded (now w) c)
         ∧ pending (stats s') = Z.max 0 (pending (stats s) - 1)
         ∧ 0 ≤ pending (stats s')
         ∧ totalCheckins (stats s') = totalCheckins (stats s)
         ∧ missedCheckins (stats s') = missedCheckins (stats s)
         ∧ rescueDispatches (stats s') = rescueDispatches (stats s)
         ∧ (∀ k, k ∈ cycleSlots → slots_of uid (timers w') !! k = None)
         ∧ (∀ k h x, k ∈ cycleSlots → slots_of uid (timers w) !! k = Some h →
                     x ∈ queue w' → timer_id x ≠ h)
         ∧ (∀ x, x ∈ queue w →
                 (∀ k, k ∈ cycleSlots →
                       slots_of uid (timers w) !! k ≠ Some (timer_id x)) →
                 x ∈ queue w')
         ∧ slots_of uid (timers w') !! SCheckin = Some (next_timer w)
         ∧ mkTimer (next_timer w) (now w + timer_ms (intervalMinutes s * 60 * 1000))
                   None (CbCheckin uid) ∈ queue w').
Proof.
  intros Hr. apply reachable_Inv in Hr as (HS & HQ & HH).
  destruct w as [m tm inc q t nu nt ob un]. cbn in HS, HQ, HH. cbn [sessions].
  assert (Hok : ∀ s c, m !! uid = Some s → currentCheckin s = Some c →
            responded c = false → cid = Some (checkin_id c) →
            ∃ l' ob',
              post_checkin_respond uid cid (mkWorld m tm inc q t nu nt ob un)
              = (mkWorld (<[uid := set_log l'
                           (set_stats (mkStats (totalCheckins (stats s))
                                               (missedCheckins (stats s))
                                               (rescueDispatches (stats s))
                                               (Z.max 0 (pending (stats s) - 1)))
                              (set_currentCheckin (Some (set_responded t c)) s))]> m)
                   (<[uid := <[SCheckin := nt]>
                               (cleared_slots cycleSlots (slots_of uid tm) q)]> tm) inc
                   (cleared_queue cycleSlots (slots_of uid tm) q
                    ++ [mkTimer nt (t + timer_ms (intervalMinutes s * 60 * 1000)) None
                                (CbCheckin uid)])
                   t (S (S nu)) (S nt) ob' un,
                 Json 200 (BSuccess (Some "Safety confirmed. Next check-in scheduled.")
                                    None))).
  { intros s c Hs Hc Hresp ->.
    assert (He : enabled s = true).
    { destruct (HS _ _ Hs) as ((_ & Hen & _) & _). apply Hen. rewrite Hc. eauto. }
    destruct (post_checkin_respond_at uid m tm inc q t nu nt ob un s Hs c Hc Hresp He)
      as (l' & ob' & Heq & _). eauto. }
  split; [|split; [|split]].
  - split.
    + intros (msg & ses & Hres).
      destruct (m !! uid) as [s|] eqn:Hs.
      2: { rewrite post_checkin_respond_none in Hres by done. discriminate. }
      destruct (stale_dec s) as [Hst|Hst].
      { destruct (post_checkin_respond_fail uid cid (mkWorld m tm inc q t nu nt ob un) s Hs (or_introl Hst)) as (e & He).
        rewrite He in Hres. discriminate. }
      apply not_stale in Hst as (c & Hc & Hresp).
      destruct (decide (cid = Some (checkin_id c))) as [->|Hne]; [by eauto 10|].
      destruct (post_checkin_respond_fail uid cid (mkWorld m tm inc q t nu nt ob un) s Hs) as (e & He); [by eauto|].
      rewrite He in Hres. discriminate.
    + intros (s & c & Hs & Hc & Hresp & Hcid).
      destruct (Hok s c Hs Hc Hresp Hcid) as (l' & ob' & ->). cbn. eauto.
  - intros Hs. by apply post_checkin_respond_none.
  - intros s Hs Hfail. by apply (post_checkin_respond_fail uid cid (mkWorld m tm inc q t nu nt ob un) s).
  - intros s c Hs Hc Hresp Hcid.
    destruct (Hok s c Hs Hc Hresp Hcid) as (l' & ob' & Heq).
    rewrite Heq. cbn [fst sessions timers queue now next_timer].
    rewrite lookup_insert_eq, slots_of_insert.
    eexists. split; [done|].
    destruct s as [? ? ? ? ? ? ? ? ? ? ? [] ?]; cbn.
    repeat split; try lia.
    + intros k Hk. rewrite lookup_insert_ne by (symmetry; by apply cycleSlots_not_checkin).
      by apply cleared_slots_gone.
    + intros k h x Hk Hh Hx Hid.
      apply elem_of_app in Hx as [Hx|Hx].
      * by eapply (cleared_queue_gone cycleSlots); [| exact Hh | exact Hx | exact Hid].
      * apply list_elem_of_singleton in Hx. subst x. cbn in Hid. subst h.
        pose proof (handles_ok_slots _ _ _ _ _ HH Hh). lia.
    + intros x Hx Hk. apply elem_of_app. left. by apply cleared_queue_kept.
    + by rewrite lookup_insert_eq.
    + apply elem_of_app. right. by apply list_elem_of_singleton.
Qed.

(** The theorem at the first cycle of user "u", answered with its id while
    IVR call #1 is ringing: the ring timer (handle 2, stored under
    "ivr1") is cancelled and the pending gauge stays at 0. *)
Lemma respond_to_checkin_contract_witness :
  reachable ringing
  ∧ (∃ msg ses, (post_checkin_respond "u" (Some 2%nat) ringing).2
                = Json 200 (BSuccess msg ses))
  ∧ ∃ s', sessions (post_checkin_respond "u" (Some 2%nat) ringing).1 !! "u" = Some s'
      ∧ (responded <$> currentCheckin s') = Some true
      ∧ pending (stats s') = 0
      ∧ slots_of "u" (timers (post_checkin_respond "u" (Some 2%nat) ringing).1)
          !! SIvr (Some 1) = None
      ∧ ∀ x, x ∈ queue (post_checkin_respond "u" (Some 2%nat) ringing).1 →
             timer_id x ≠ 2%nat.
Proof.
  assert (Hr : reachable ringing).
  { apply reachable_run; [apply reachable_script; reflexivity | reflexivity]. }
  assert (Hs : ∃ s c, sessions ringing !! "u" = Some s ∧ currentCheckin s = Some c
                      ∧ responded c = false ∧ Some 2%nat = Some (checkin_id c)
                      ∧ pending (stats s) = 0).
  { eexists _, _. split; [run_eval|]. repeat split; reflexivity. }
  assert (Hh : slots_of "u" (timers ringing) !! SIvr (Some 1) = Some 2%nat) by run_eval.
  assert (Hin : SIvr (Some 1) ∈ cycleSlots).
  { unfold cycleSlots. apply list_elem_of_further, list_elem_of_here. }
  destruct Hs as (s & c & Hs & Hc & Hresp & Hid & Hp).
  destruct (respond_to_checkin_contract ringing "u" (Some 2%nat) Hr)
    as ([_ Hok] & _ & _ & Hdo).
  split; [exact Hr|]. split.
  { apply Hok. exists s, c. split; [exact Hs|]. split; [exact Hc|].
    split; [exact Hresp | exact Hid]. }
  destruct (Hdo s c Hs Hc Hresp Hid)
    as (s' & Hs' & Hc' & Hp' & _ & _ & _ & _ & Hk & Hgone & _).
  exists s'. split; [exact Hs'|]. split; [rewrite Hc'; reflexivity|].
  split; [rewrite Hp', Hp; reflexivity|].
  split; [exact (Hk _ Hin)|].
  intros x Hx. exact (Hgone _ _ x Hin Hh Hx).
Defined.

(** An accepted response does not cancel every grace timer.  In demo mode
    the user answered the first cycle through /api/ivr/respond, which
    left its grace timer (handle 1) live; the key "grace" now holds the
    handle of the second cycle's grace timer.  The response to the second
    cycle is accepted, and the grace timer of the first cycle is still
    live after it. *)
Lemma accepted_respond_leaves_a_grace_timer_live :
  all_in_order (second_cycle ++ [Sleep 12000]) init = true
  ∧ (∃ s c, sessions second_pending !! "u" = Some s ∧ currentCheckin s = Some c
            ∧ responded c = false ∧ checkin_id c = 6%nat)
  ∧ slots_of "u" (timers second_pending) !! SGrace = Some 3%nat
  ∧ (post_checkin_respond "u" (Some 6%nat) second_pending).2
    = Json 200 (BSuccess (Some "Safety confirmed. Next check-in scheduled.") None)
  ∧ mkTimer 1%nat 15000 None (CbGrace "u")
      ∈ queue (post_checkin_respond "u" (Some 6%nat) second_pending).1.
Proof.
  split; [run_eval|]. split.
  { eexists _, _. split; [run_eval|]. repeat split; reflexivity. }
  split; [run_eval|]. split; [run_eval|].
  assert (Hq : ∃ q, queue (post_checkin_respond "u" (Some 6%nat) second_pending).1
                    = mkTimer 1%nat 15000 None (CbGrace "u") :: q).
  { eexists. run_eval. }
  destruct Hq as (q & ->). apply list_elem_of_here.
Qed.

(** * Answering an IVR call (C7) *)

Lemma answerSlots_not_checkin cn k : k ∈ answerSlots cn → k ≠ SCheckin.
Proof.
  unfold answerSlots. intros H ->.
  repeat (apply elem_of_cons in H as [H|H]; [discriminate|]).
  by apply elem_of_nil in H.
Qed.

Lemma post_ivr_respond_no_cycle uid cn w :
  (sessions w !! uid ≫= currentCheckin) = None →
  post_ivr_respond uid cn w = (w, Json 404 (BError "No active check-in")).
Proof.
  destruct w as [m tm inc q t nu nt ob un]. cbn.
  cbv beta delta [post_ivr_respond]. cbn.
  destruct (m !! uid) as [s|]; [|done]. cbn. by intros ->.
Qed.

Lemma post_ivr_respond_responded uid cn w s c :
  sessions w !! uid = Some s → currentCheckin s = Some c → responded c = true →
  post_ivr_respond uid cn w = (w, Json 400 (BError "Already responded")).
Proof.
  destruct w as [m tm inc q t nu nt ob un]. cbn. intros Hs Hc Hr.
  cbv beta delta [post_ivr_respond]. cbn. by rewrite Hs, Hc, Hr.
Qed.

(** C7, as amended.  [respondToCall(userId, callNumber)] (POST
    /api/ivr/respond) succeeds exactly when the user has a cycle that is
    not responded; [callNumber] is not compared with [ivrRound].  Without
    a session or without a cycle it answers 404; when the cycle is already
    responded it answers 400, not 404.  On success the cycle is marked
    responded with [ivrRound] and [missedCalls] as they were, the timers
    stored under [ivr<callNumber>], [gap<callNumber>], [gap1] and [gap2]
    are cancelled, no incident is created, and the next check-in is
    scheduled. *)
Theorem respond_to_call_contract w uid cn :
  reachable w →
  ((∃ msg ses, (post_ivr_respond uid cn w).2 = Json 200 (BSuccess msg ses))
   ↔ ∃ s c, sessions w !! uid = Some s ∧ currentCheckin s = Some c
            ∧ responded c = false)
  ∧ ((sessions w !! uid ≫= currentCheckin) = None →
     post_ivr_respond uid cn w = (w, Json 404 (BError "No active check-in")))
  ∧ (∀ s c, sessions w !! uid = Some s → currentCheckin s = Some c →
       responded c = true →
       post_ivr_respond uid cn w = (w, Json 400 (BError "Already responded")))
  ∧ (∀ s c, sessions w !! uid = Some s → currentCheckin s = Some c →
       responded c = false →
       ∃ s', sessions (post_ivr_respond uid cn w).1 !! uid = Some s'
         ∧ currentCheckin s' = Some (set_responded (now w) c)
         ∧ activeIncident s' = activeIncident s
         ∧ stats s' = stats s
         ∧ incidents (post_ivr_respond uid cn w).1 = incidents w
         ∧ (∀ k, k ∈ answerSlots cn →
                 slots_of uid (timers (post_ivr_respond uid cn w).1) !! k = None)
         ∧ (∀ k h x, k ∈ answerSlots cn → slots_of uid (timers w) !! k = Some h →
                     x ∈ queue (post_ivr_respond uid cn w).1 → timer_id x ≠ h)
         ∧ slots_of uid (timers (post_ivr_respond uid cn w).1) !! SCheckin
           = Some (next_timer w)
         ∧ mkTimer (next_timer w) (now w + timer_ms (intervalMinutes s * 60 * 1000))
                   None (CbCheckin uid) ∈ queue (post_ivr_respond uid cn w).1).
Proof.
  intros Hr. apply reachable_Inv in Hr as (HS & HQ & HH).
  destruct w as [m tm inc q t nu nt ob un]. cbn in HS, HQ, HH.
  cbn [sessions timers queue now next_timer incidents].
  assert (Hok : ∀ s c, m !! uid = Some s → currentCheckin s = Some c →
            responded c = false →
            ∃ l' ob',
              post_ivr_respond uid cn (mkWorld m tm inc q t nu nt ob un)
              = (mkWorld (<[uid := set_log l'
                           (set_currentCheckin (Some (set_responded t c)) s)]> m)
                   (<[uid := <[SCheckin := nt]>
                               (cleared_slots (answerSlots cn) (slots_of uid tm) q)]> tm)
                   inc
                   (cleared_queue (answerSlots cn) (slots_of uid tm) q
                    ++ [mkTimer nt (t + timer_ms (intervalMinutes s * 60 * 1000)) None
                                (CbCheckin uid)])
                   t (S (S nu)) (S nt) ob' un,
                 Json 200 (BSuccess (Some "IVR responded. Safe confirmed.") None))).
  { intros s c Hs Hc Hresp.
    assert (He : enabled s = true).
    { destruct (HS _ _ Hs) as ((_ & Hen & _) & _). apply Hen. rewrite Hc. eauto. }
    destruct (post_ivr_respond_at uid m tm inc q t nu nt ob un s Hs cn c Hc Hresp He)
      as (l' & ob' & Heq & _). eauto. }
  split; [|split; [|split]].
  - split.
    + intros (msg & ses & Hres).
      destruct (m !! uid) as [s|] eqn:Hs.
      2: { rewrite post_ivr_respond_no_cycle in Hres by (cbn; by rewrite Hs).
           discriminate. }
      destruct (currentCheckin s) as [c|] eqn:Hc.
      2: { rewrite post_ivr_respond_no_cycle in Hres by (cbn; by rewrite Hs).
           discriminate. }
      destruct (responded c) eqn:Hresp; [|by eauto 10].
      rewrite (post_ivr_respond_responded uid cn (mkWorld m tm inc q t nu nt ob un) s c)
        in Hres by done.
      discriminate.
    + intros (s & c & Hs & Hc & Hresp).
      destruct (Hok s c Hs Hc Hresp) as (l' & ob' & ->). cbn. eauto.
  - apply (post_ivr_respond_no_cycle uid cn (mkWorld m tm inc q t nu nt ob un)).
  - intros s c Hs Hc Hresp.
    by apply (post_ivr_respond_responded uid cn (mkWorld m tm inc q t nu nt ob un) s c).
  - intros s c Hs Hc Hresp.
    destruct (Hok s c Hs Hc Hresp) as (l' & ob' & Heq).
    rewrite Heq. cbn [fst sessions timers queue now next_timer incidents].
    rewrite lookup_insert_eq, slots_of_insert.
    eexists. split; [done|].
    destruct s; cbn.
    repeat split.
    + intros k Hk.
      rewrite lookup_insert_ne by (symmetry; by eapply answerSlots_not_checkin).
      by apply cleared_slots_gone.
    + intros k h x Hk Hh Hx Hid.
      apply elem_of_app in Hx as [Hx|Hx].
      * by eapply (cleared_queue_gone (answerSlots cn)); [| exact Hh | exact Hx | exact Hid].
      * apply list_elem_of_singleton in Hx. subst x. cbn in Hid. subst h.
        pose proof (handles_ok_slots _ _ _ _ _ HH Hh). lia.
    + by rewrite lookup_insert_eq.
    + apply elem_of_app. right. by apply list_elem_of_singleton.
Qed.

(** The theorem while IVR call #1 rings: the user answers it. *)
Lemma respond_to_call_contract_witness :
  reachable ringing
  ∧ (∃ msg ses, (post_ivr_respond "u" (Some 1) ringing).2 = Json 200 (BSuccess msg ses))
  ∧ ∃ s' c', sessions (post_ivr_respond "u" (Some 1) ringing).1 !! "u" = Some s'
      ∧ currentCheckin s' = Some c'
      ∧ responded c' = true ∧ ivrRound c' = 1
      ∧ activeIncident s' = None
      ∧ slots_of "u" (timers (post_ivr_respond "u" (Some 1) ringing).1) !! SIvr (Some 1)
        = None
      ∧ slots_of "u" (timers (post_ivr_respond "u" (Some 1) ringing).1) !! SCheckin
        = Some 3%nat.
Proof.
  assert (Hr : reachable ringing).
  { apply reachable_run; [apply reachable_script; reflexivity | reflexivity]. }
  assert (Hs : ∃ s c, sessions ringing !! "u" = Some s ∧ currentCheckin s = Some c
                      ∧ responded c = false ∧ ivrRound c = 1 ∧ activeIncident s = None).
  { eexists _, _. split; [run_eval|]. repeat split; reflexivity. }
  assert (Hnt : next_timer ringing = 3%nat) by run_eval.
  destruct Hs as (s & c & Hs & Hc & Hresp & Hround & Hinc).
  destruct (respond_to_call_contract ringing "u" (Some 1) Hr) as ([_ Hok] & _ & _ & Hdo).
  split; [exact Hr|]. split.
  { apply Hok. exists s, c. split; [exact Hs|]. split; [exact Hc | exact Hresp]. }
  destruct (Hdo s c Hs Hc Hresp) as (s' & Hs' & Hc' & Ha' & _ & _ & Hk & _ & Hch & _).
  rewrite Hnt in Hch.
  exists s', (set_responded (now ringing) c). split; [exact Hs'|]. split; [exact Hc'|].
  split; [reflexivity|]. split; [exact Hround|]. split; [rewrite Ha'; exact Hinc|].
  split; [apply Hk, list_elem_of_here | exact Hch].
Defined.

(** The specification has 404 for a cycle that is already responded; the
    handler answers 400. *)
Lemma respond_to_call_already_responded_is_400 :
  ∃ s c, sessions answered !! "u" = Some s ∧ currentCheckin s = Some c
    ∧ responded c = true
    ∧ post_ivr_respond "u" (Some 1) answered
      = (answered, Json 400 (BError "Already responded"))
    ∧ (post_ivr_respond "u" (Some 1) answered).2
      ≠ Json 404 (BError "No active check-in").
Proof.
  assert (Hs : ∃ s c, sessions answered !! "u" = Some s ∧ currentCheckin s = Some c
                      ∧ responded c = true).
  { eexists _, _. split; [run_eval|]. split; reflexivity. }
  destruct Hs as (s & c & Hs & Hc & Hresp).
  pose proof (post_ivr_respond_responded "u" (Some 1) answered s c Hs Hc Hresp) as H.
  exists s, c. split; [exact Hs|]. split; [exact Hc|]. split; [exact Hresp|].
  split; [exact H|]. rewrite H. discriminate.
Qed.

(** * Enabling the monitor (C4) *)

Lemma truthy_num_false v : (v =? 0)%float = true → truthy_num v = false.
Proof. intros H. unfold truthy_num. by rewrite H. Qed.

Lemma truthy_num_true v : truthy_num v = true → (v =? 0)%float = false.
Proof.
  unfold truthy_num. intros H. apply andb_prop in H as [H _].
  by apply negb_true_iff in H.
Qed.

Lemma filter_all {A} (P : A → Prop) `{∀ x, Decision (P x)} (l : list A) :
  Forall P l → filter P l = l.
Proof.
  induction 1 as [|x l Hx Hl IH]; [done|].
  rewrite filter_cons_True by done. by rewrite IH.
Qed.

(** Clearing a timer object that only holds the handle scheduled last. *)
Lemma cleared_queue_last k nt q d p cb :
  queue_ok nt q →
  cleared_queue [] {[k := nt]} (q ++ [mkTimer nt d p cb]) = q.
Proof.
  intros HQ. rewrite cleared_queue_filter.
  assert (Hh : handles (keys_of [] ({[k := nt]} : gmap Slot TimerId)) {[k := nt]} = [nt]).
  { unfold keys_of, handles. rewrite map_to_list_singleton. cbn.
    by rewrite lookup_singleton_eq. }
  rewrite Hh, list.filter_app.
  rewrite filter_all.
  - rewrite filter_cons_False; [by rewrite filter_nil, app_nil_r|].
    cbn. intros Hn. apply Hn. by apply list_elem_of_singleton.
  - eapply list.Forall_impl; [exact HQ|]. cbn. intros x Hx Hin.
    apply list_elem_of_singleton in Hin. lia.
Qed.

Lemma effective_idem o p d :
  truthy_num d = true → effective o (effective o p d) d = effective o p d.
Proof.
  intros Hd. unfold effective, or_default.
  destruct o as [x|]; [destruct (truthy_num x) eqn:E; [done|]|];
    destruct (truthy_num p) eqn:E'; by rewrite ?E', ?Hd.
Qed.

Lemma post_checkin_enable_none uid ri rg w :
  sessions w !! uid = None →
  post_checkin_enable uid ri rg w
  = (w, Json 404 (BError "Session not found. Register first.")).
Proof. destruct w. cbn. intros Hs. cbv beta delta [post_checkin_enable]. by wsimpl. Qed.

(** C4, as amended.  [enable(userId, intervalMinutes?, graceSeconds?)]
    (POST /api/checkin/enable) answers 404 when the user has no session.
    Otherwise it cancels every timer stored in the user's timer object,
    clears the cycle and the incident, sets [enabled], and schedules the
    first check-in after the configured interval.  A supplied value is
    applied when it is not 0; a value that is absent or 0 leaves the prior
    value (or the default, 30 minutes and 60 seconds, when the prior value
    is itself 0).  Calling it again with the same arguments, even later,
    leaves the configuration as it is and replaces the pending check-in
    timer by one with the same delay. *)
Theorem enable_contract w uid ri rg :
  reachable w →
  (sessions w !! uid = None →
   post_checkin_enable uid ri rg w
   = (w, Json 404 (BError "Session not found. Register first.")))
  ∧ (∀ s, sessions w !! uid = Some s →
       let w1 := (post_checkin_enable uid ri rg w).1 in
       ∃ s1,
         sessions w1 !! uid = Some s1
         ∧ (post_checkin_enable uid ri rg w).2
           = Json 200 (BSuccess (Some "Monitor enabled") (Some (safe s1)))
         ∧ enabled s1 = true ∧ currentCheckin s1 = None ∧ activeIncident s1 = None
         ∧ (∀ v, ri = Some v → truthy_num v = true → intervalMinutes s1 = v)
         ∧ (ri = None ∨ (∃ v, ri = Some v ∧ (v =? 0)%float = true) →
            intervalMinutes s1 = intervalMinutes s)
         ∧ (∀ v, rg = Some v → truthy_num v = true → graceSeconds s1 = v)
         ∧ (rg = None ∨ (∃ v, rg = Some v ∧ (v =? 0)%float = true) →
            graceSeconds s1 = graceSeconds s)
         ∧ slots_of uid (timers w1) = {[SCheckin := next_timer w]}
         ∧ (∀ k h x, slots_of uid (timers w) !! k = Some h → x ∈ queue w1 →
                     timer_id x ≠ h)
         ∧ (∃ q1, queue w1
                  = q1 ++ [mkTimer (next_timer w)
                                   (now w + timer_ms (intervalMinutes s1 * 60 * 1000))
                                   None (CbCheckin uid)]
                  ∧ (∀ x, x ∈ q1 → x ∈ queue w)
                  ∧ ∀ t',
                      let w2 := (post_checkin_enable uid ri rg
                                   (set_now (Z.max (now w1) t') w1)).1 in
                      ∃ s2, sessions w2 !! uid = Some s2
                        ∧ enabled s2 = true ∧ currentCheckin s2 = None
                        ∧ activeIncident s2 = None
                        ∧ intervalMinutes s2 = intervalMinutes s1
                        ∧ graceSeconds s2 = graceSeconds s1
                        ∧ slots_of uid (timers w2) = {[SCheckin := next_timer w1]}
                        ∧ queue w2
                          = q1 ++ [mkTimer (next_timer w1)
                                     (now w2 + timer_ms (intervalMinutes s1 * 60 * 1000))
                                     None (CbCheckin uid)])).
Proof.
  intros Hr. split; [apply post_checkin_enable_none|].
  intros s Hs. cbv zeta.
  apply reachable_Inv in Hr as (HS & HQ & HH).
  destruct w as [m tm inc q t nu nt ob un]. cbn in HS, HQ, HH, Hs.
  destruct (HS _ _ Hs) as ((_ & _ & _ & _ & _ & Him & Hgs & _) & _).
  destruct (post_checkin_enable_at uid m tm inc q t nu nt ob un s Hs ri rg)
    as (l' & ob' & Heq & _).
  rewrite Heq. cbv zeta. cbn [fst snd sessions timers queue now next_timer].
  rewrite lookup_insert_eq, slots_of_insert, cleared_slots_all.
  eexists. split; [done|]. split; [done|].
  assert (Heff : ∀ o p d, truthy_num p = true →
            (∀ v, o = Some v → truthy_num v = true → effective o p d = v)
            ∧ (o = None ∨ (∃ v, o = Some v ∧ (v =? 0)%float = true) → effective o p d = p)).
  { intros o p d Hp. unfold effective, or_default. split.
    - by intros v -> ->.
    - intros [->|(v & -> & Hv)]; rewrite ?Hp; [done|].
      apply truthy_num_false in Hv. by rewrite Hv. }
  destruct (Heff ri (intervalMinutes s) 30%float Him) as [Hi1 Hi2].
  destruct (Heff rg (graceSeconds s) 60%float Hgs) as [Hg1 Hg2].
  destruct s as [su sn sp sc se si sg sl scc sai slog sst ssock]; cbn in *.
  repeat split; try done.
  - intros k h x Hk Hx Hid.
    apply elem_of_app in Hx as [Hx|Hx].
    + eapply (cleared_queue_gone []); [| exact Hk | exact Hx | exact Hid].
      apply keys_of_all. eauto.
    + apply list_elem_of_singleton in Hx. subst x. cbn in Hid. subst h.
      pose proof (handles_ok_slots _ _ _ _ _ HH Hk). lia.
  - eexists. split; [done|]. split.
    + intros x Hx. by eapply cleared_queue_elem.
    + intros t'. cbv beta iota delta [set_now sessions timers incidents queue now
                                       next_uuid next_timer outbox uncaught].
      match goal with
      | |- context [post_checkin_enable uid ri rg (mkWorld ?m' ?a ?b ?c ?d ?e ?f ?g ?h)] =>
          destruct (post_checkin_enable_at uid m' a b c d e f g h _
                      (lookup_insert_eq _ _ _) ri rg) as (l2 & ob2 & Heq2 & _)
      end.
      rewrite Heq2. cbv zeta. cbn [fst snd sessions timers queue now next_timer].
      rewrite lookup_insert_eq, !slots_of_insert, cleared_slots_all, !insert_empty.
      eexists. split; [done|]. cbn.
      rewrite !effective_idem by done.
      rewrite cleared_queue_last by (by apply queue_ok_cleared).
      by repeat split.
Qed.

(** The theorem at the registered user "u", enabled with [graceSeconds: 0]. *)
Lemma enable_contract_witness :
  reachable registered
  ∧ ∃ s1, sessions zero_grace !! "u" = Some s1
      ∧ enabled s1 = true ∧ currentCheckin s1 = None ∧ activeIncident s1 = None
      ∧ intervalMinutes s1 = 30%float ∧ graceSeconds s1 = 60%float
      ∧ slots_of "u" (timers zero_grace) = {[SCheckin := 0%nat]}.
Proof.
  assert (Hr : reachable registered) by (apply reachable_script; reflexivity).
  assert (Hs : ∃ s, sessions registered !! "u" = Some s
                    ∧ intervalMinutes s = 30%float ∧ graceSeconds s = 60%float).
  { eexists. split; [run_eval|]. split; reflexivity. }
  assert (Hnt : next_timer registered = 0%nat) by run_eval.
  destruct Hs as (s & Hs & Hi & Hg).
  destruct (proj2 (enable_contract registered "u" None (Some 0%float) Hr) s Hs)
    as (s1 & Hs1 & _ & He & Hc & Ha & _ & Hi1 & _ & Hg1 & Hsl & _).
  rewrite Hnt in Hsl.
  split; [exact Hr|]. exists s1. split; [exact Hs1|].
  split; [exact He|]. split; [exact Hc|]. split; [exact Ha|].
  split; [rewrite Hi1, Hi; [reflexivity | left; reflexivity]|].
  split; [rewrite Hg1, Hg; [reflexivity | right; exists 0%float; split; reflexivity]|].
  exact Hsl.
Defined.

(** A supplied 0 is not applied: the prior values stay. *)
Lemma enable_ignores_a_supplied_zero :
  ∃ s1, sessions (post_checkin_enable "u" (Some 0%float) (Some 0%float) registered).1 !! "u"
        = Some s1
      ∧ intervalMinutes s1 = 30%float ∧ graceSeconds s1 = 60%float
      ∧ (intervalMinutes s1 =? 0)%float = false ∧ (graceSeconds s1 =? 0)%float = false.
Proof.
  eexists. split; [run_eval|]. split; [reflexivity|]. split; [reflexivity|].
  split; reflexivity.
Qed.

(** * Resolving an incident (C5) *)

Lemma post_incident_resolve_none uid i w :
  sessions w !! uid = None →
  post_incident_resolve uid i w = (w, Json 404 (BError "Session not found")).
Proof. destruct w. cbn. intros Hs. cbv beta delta [post_incident_resolve]. by wsimpl. Qed.

(** X10.  With an [incidentId] in the request, POST /api/incident/resolve
    answers 404 without a session and otherwise always reports success; it
    is a no-op unless the id is the one of the active incident, and in
    that case it cancels the broadcast, marks the incident object RESOLVED
    with a timestamp, clears incident and cycle, and schedules the next
    check-in. *)
Lemma resolve_incident_with_id w uid r :
  reachable w →
  (sessions w !! uid = None →
   post_incident_resolve uid (Some r) w = (w, Json 404 (BError "Session not found")))
  ∧ (∀ s, sessions w !! uid = Some s →
       (post_incident_resolve uid (Some r) w).2 = Json 200 (BSuccess None None))
  ∧ (∀ s, sessions w !! uid = Some s → activeIncident s ≠ Some r →
       (post_incident_resolve uid (Some r) w).1 = w)
  ∧ (∀ s, sessions w !! uid = Some s → activeIncident s = Some r →
       ∃ s' i0,
         sessions (post_incident_resolve uid (Some r) w).1 !! uid = Some s'
         ∧ activeIncident s' = None ∧ currentCheckin s' = None
         ∧ incidents w !! r = Some i0
         ∧ incidents (post_incident_resolve uid (Some r) w).1 !! r
           = Some (resolve (now w) i0)
         ∧ status (resolve (now w) i0) = RESOLVED
         ∧ resolvedAt (resolve (now w) i0) = Some (now w)
         ∧ slots_of uid (timers (post_incident_resolve uid (Some r) w).1) !! SBroadcast
           = None
         ∧ (∀ h x, slots_of uid (timers w) !! SBroadcast = Some h →
                   x ∈ queue (post_incident_resolve uid (Some r) w).1 → timer_id x ≠ h)
         ∧ mkTimer (next_timer w) (now w + timer_ms (intervalMinutes s * 60 * 1000))
                   None (CbCheckin uid) ∈ queue (post_incident_resolve uid (Some r) w).1).
Proof.
  intros Hr. apply reachable_Inv in Hr as (HS & HQ & HH).
  destruct w as [m tm inc q t nu nt ob un]. cbn in HS, HQ, HH.
  cbn [sessions timers queue now next_timer incidents].
  assert (Hno : ∀ s, m !! uid = Some s → activeIncident s ≠ Some r →
            post_incident_resolve uid (Some r) (mkWorld m tm inc q t nu nt ob un)
            = (mkWorld m tm inc q t nu nt ob un, Json 200 (BSuccess None None))).
  { intros s Hs Hne. by apply (post_incident_resolve_other uid m tm inc q t nu nt ob un s). }
  assert (Hyes : ∀ s, m !! uid = Some s → activeIncident s = Some r →
            ∃ l' ob',
              post_incident_resolve uid (Some r) (mkWorld m tm inc q t nu nt ob un)
              = (mkWorld (<[uid := set_log l'
                           (set_currentCheckin None (set_activeIncident None s))]> m)
                   (<[uid := <[SCheckin := nt]>
                               (cleared_slots [SBroadcast] (slots_of uid tm) q)]> tm)
                   (alter (resolve t) r inc)
                   (cleared_queue [SBroadcast] (slots_of uid tm) q
                    ++ [mkTimer nt (t + timer_ms (intervalMinutes s * 60 * 1000)) None
                                (CbCheckin uid)])
                   t (S (S nu)) (S nt) ob' un,
                 Json 200 (BSuccess None None))).
  { intros s Hs Hi.
    assert (He : enabled s = true).
    { destruct (HS _ _ Hs) as ((_ & _ & Hen & _) & _). apply Hen. rewrite Hi. eauto. }
    destruct (post_incident_resolve_at uid m tm inc q t nu nt ob un s Hs r Hi He)
      as (l' & ob' & Heq & _). eauto. }
  split; [|split; [|split]].
  - apply (post_incident_resolve_none uid (Some r) (mkWorld m tm inc q t nu nt ob un)).
  - intros s Hs. destruct (decide (activeIncident s = Some r)) as [Hi|Hne].
    + by destruct (Hyes s Hs Hi) as (l' & ob' & ->).
    + by rewrite (Hno s Hs Hne).
  - intros s Hs Hne. by rewrite (Hno s Hs Hne).
  - intros s Hs Hi. destruct (Hyes s Hs Hi) as (l' & ob' & ->).
    cbn [fst sessions timers queue now next_timer incidents].
    rewrite lookup_insert_eq, slots_of_insert.
    destruct (HS _ _ Hs) as (_ & _ & Hinc). destruct (Hinc _ Hi) as [i0 Hi0].
    exists (set_log l' (set_currentCheckin None (set_activeIncident None s))), i0.
    split; [done|]. destruct s; cbn.
    repeat split; try done.
    + by rewrite lookup_alter_eq, Hi0.
    + rewrite lookup_insert_ne by done. apply cleared_slots_gone.
      rewrite keys_of_given. by apply list_elem_of_singleton.
    + intros h x Hh Hx Hid. apply elem_of_app in Hx as [Hx|Hx].
      * eapply (cleared_queue_gone [SBroadcast]); [| exact Hh | exact Hx | exact Hid].
        rewrite keys_of_given. by apply list_elem_of_singleton.
      * apply list_elem_of_singleton in Hx. subst x. cbn in Hid. subst h.
        pose proof (handles_ok_slots _ _ _ _ _ HH Hh). lia.
    + apply elem_of_app. right. by apply list_elem_of_singleton.
Qed.

(** Without an [incidentId] in the request and without an active incident
    both sides of [s.activeIncident?.id === incidentId] are [undefined]:
    the branch is taken and [s.activeIncident.status = ...] throws. *)
Lemma resolve_incident_throws w uid s :
  sessions w !! uid = Some s → activeIncident s = None →
  (post_incident_resolve uid None w).2 = Uncaught "TypeError"
  ∧ sessions (post_incident_resolve uid None w).1 = sessions w.
Proof.
  destruct w as [m tm inc q t nu nt ob un]. cbn. intros Hs Hi.
  by rewrite (post_incident_resolve_throws uid m tm inc q t nu nt ob un s Hs Hi).
Qed.

(** C5, at the failing input.  The user "u" is registered and has no
    incident; POST /api/incident/resolve with the body [{ userId: "u" }]
    does not report success: the handler throws a TypeError. *)
Theorem resolve_without_incident_id_throws :
  reachable registered
  ∧ (∃ s, sessions registered !! "u" = Some s ∧ activeIncident s = None)
  ∧ (post_incident_resolve "u" None registered).2 = Uncaught "TypeError"
  ∧ ∀ msg ses, (post_incident_resolve "u" None registered).2
               ≠ Json 200 (BSuccess msg ses).
Proof.
  split; [by apply reachable_script|]. split; [by eexists|].
  split; [reflexivity|]. intros msg ses. discriminate.
Qed.

(** * Registering (C6) *)

(** C6, as amended.  Registering a [userId] that already has a session
    keeps [enabled], the configuration, the log, the counters and the
    subscriber handle, replaces name, phone, contacts and location by the
    supplied values (an absent or empty name or phone keeps the prior
    one), and resets [currentCheckin] and [activeIncident] to absent.
    Registering a new [userId] applies the defaults: name "User", the
    default phone and location, no contacts, interval 30 minutes, grace 60
    seconds, disabled, no cycle, no incident, an empty log and zero
    counters.  No other session, no timer and no incident object is
    touched. *)
Theorem register_contract w uid rn rp rc rl :
  reachable w → truthy_str uid = true →
  (∀ s, sessions w !! uid = Some s →
     ∃ s', sessions (post_register (Some uid) rn rp rc rl w).1 !! uid = Some s'
       ∧ (post_register (Some uid) rn rp rc rl w).2
         = Json 200 (BSuccess None (Some (safe s')))
       ∧ name s' = or_default truthy_str rn (name s)
       ∧ phone s' = or_default truthy_str rp (phone s)
       ∧ emergencyContacts s' = default (emergencyContacts s) rc
       ∧ lastLocation s' = default (lastLocation s) rl
       ∧ enabled s' = enabled s
       ∧ intervalMinutes s' = intervalMinutes s
       ∧ graceSeconds s' = graceSeconds s
       ∧ log s' = log s ∧ stats s' = stats s ∧ socketId s' = socketId s
       ∧ currentCheckin s' = None ∧ activeIncident s' = None)
  ∧ (sessions w !! uid = None →
     ∃ s', sessions (post_register (Some uid) rn rp rc rl w).1 !! uid = Some s'
       ∧ name s' = or_default truthy_str rn "User"
       ∧ phone s' = or_default truthy_str rp "+91-0000000000"
       ∧ emergencyContacts s' = default (ContactArray []) rc
       ∧ lastLocation s' = default defaultLocation rl
       ∧ enabled s' = false
       ∧ intervalMinutes s' = 30%float ∧ graceSeconds s' = 60%float
       ∧ log s' = [] ∧ stats s' = mkStats 0 0 0 0 ∧ socketId s' = None
       ∧ currentCheckin s' = None ∧ activeIncident s' = None)
  ∧ (∀ u, u ≠ uid →
       sessions (post_register (Some uid) rn rp rc rl w).1 !! u = sessions w !! u)
  ∧ timers (post_register (Some uid) rn rp rc rl w).1 = timers w
  ∧ queue (post_register (Some uid) rn rp rc rl w).1 = queue w
  ∧ incidents (post_register (Some uid) rn rp rc rl w).1 = incidents w.
Proof.
  intros Hr Hu. apply reachable_Inv in Hr as (HS & _).
  unfold post_register. cbn [js_or]. rewrite Hu.
  cbn [fst snd set_sessions sessions timers queue incidents].
  split; [|split; [|split; [|done]]].
  - intros s Hs. rewrite lookup_insert_eq, Hs. eexists. split; [done|].
    destruct (HS _ _ Hs) as ((_ & _ & _ & Hn & Hp & Hi & Hg & Hk) & _).
    destruct s as [su sn sp sc se si sg sl scc sai slog sst ssock]. cbn in *.
    rewrite Hn, Hp, Hi, Hg.
    repeat split; try done.
    + by destruct se.
    + destruct ssock as [k|]; [|done]. cbn. by rewrite (Hk k).
  - intros Hs. rewrite lookup_insert_eq, Hs. eexists. split; [done|]. cbn.
    by repeat split.
  - intros u Hne. by rewrite lookup_insert_ne.
Qed.

Lemma register_needs_user_id ru rn rp rc rl w :
  js_or truthy_str ru None = None →
  post_register ru rn rp rc rl w = (w, Json 400 (BError "userId required")).
Proof. intros H. unfold post_register. by rewrite H. Qed.

(** The theorem at user "u" after a rescue dispatch: registering again. *)
Lemma register_contract_witness :
  reachable dispatched ∧ truthy_str "u" = true
  ∧ ∃ s', sessions (post_register (Some "u") None None None None dispatched).1 !! "u"
          = Some s'
      ∧ enabled s' = true ∧ currentCheckin s' = None ∧ activeIncident s' = None
      ∧ rescueDispatches (stats s') = 1.
Proof.
  assert (Hr : reachable dispatched).
  { apply reachable_run; [apply reachable_script; reflexivity | reflexivity]. }
  assert (Hs : ∃ s, sessions dispatched !! "u" = Some s
                    ∧ enabled s = true ∧ rescueDispatches (stats s) = 1).
  { eexists. split; [run_eval|]. split; reflexivity. }
  destruct Hs as (s & Hs & He & Hst).
  destruct (proj1 (register_contract dispatched "u" None None None None Hr eq_refl) s Hs)
    as (s' & Hs' & _ & _ & _ & _ & _ & He' & _ & _ & _ & Hst' & _ & Hc & Ha).
  split; [exact Hr|]. split; [reflexivity|]. exists s'. split; [exact Hs'|].
  split; [rewrite He'; exact He|]. split; [exact Hc|]. split; [exact Ha|].
  rewrite Hst'. exact Hst.
Defined.

(** Registering again does not preserve the cycle and the incident. *)
Lemma register_drops_cycle_and_incident :
  (∃ s c r, sessions dispatched !! "u" = Some s
            ∧ currentCheckin s = Some c ∧ activeIncident s = Some r)
  ∧ ∃ s', sessions (post_register (Some "u") None None None None dispatched).1 !! "u"
          = Some s'
      ∧ currentCheckin s' = None ∧ activeIncident s' = None.
Proof.
  split.
  - eexists _, _, _. split; [run_eval|]. split; reflexivity.
  - eexists. split; [run_eval|]. split; reflexivity.
Qed.

(** * Escalation to rescue dispatch (C1) *)


Lemma timer_ms_exact d v :
  num_val d = Some v → (1 <= v)%Q → (v <= inject_Z TIMEOUT_MAX)%Q →
  timer_ms d = Qfloor v.
Proof.
  intros Hv H1 H2. unfold timer_ms. rewrite Hv.
  apply Qle_bool_iff in H1, H2. by rewrite H1, H2.
Qed.

Lemma timer_ms_out_of_range d : out_of_range d → timer_ms d = 1.
Proof.
  unfold out_of_range, timer_ms. destruct (num_val d) as [v|]; [|done].
  intros H.
  destruct (Qle_bool 1 v) eqn:H1; cbn [andb]; [|done].
  destruct (Qle_bool v (inject_Z TIMEOUT_MAX)) eqn:H2; [|done].
  apply Qle_bool_iff in H1, H2. destruct H as [H|H].
  - exfalso. by apply (Qlt_not_le _ _ H).
  - exfalso. by apply (Qlt_not_le _ _ H).
Qed.

Lemma contact_list_thrown cv : contact_list cv ↔ thrown cv = None.
Proof.
  split.
  - intros (cs & ->). cbn. by induction cs.
  - destruct cv as [l|j]; [|done]. cbn. intros H.
    assert (Hl : ∃ cs, l = Some <$> cs).
    { induction l as [|[c|] l IH]; [by exists [] | | done].
      destruct (IH H) as (cs & ->). by exists (c :: cs). }
    destruct Hl as (cs & ->). by exists cs.
Qed.


Lemma timer_ms_gap : timer_ms 10000 = 10000.
Proof. reflexivity. Qed.

Lemma filter_comm {A} (P Q : A → Prop) `{!∀ x, Decision (P x), !∀ x, Decision (Q x)}
    (l : list A) :
  filter P (filter Q l) = filter Q (filter P l).
Proof. rewrite !list_filter_filter. apply list_filter_iff. tauto. Qed.

Section OwnTimers.
Variable uid : string.

Local Abbreviation own := (λ x : Timer, owner (callback x) = uid).






End OwnTimers.









(** * Monotone fields of a cycle (C8) *)

Lemma evolves_same_cycle P w w' uid c c' :
  Inv w → evolves P w w' →
  cycle_of uid w = Some c → cycle_of uid w' = Some c' →
  checkin_id c = checkin_id c' → P c c'.
Proof.
  intros (HS & _) (_ & _ & Hc) Hw Hw' Hid.
  unfold cycle_of in Hw, Hw'.
  destruct (sessions w !! uid) as [s|] eqn:Hs; [|done].
  destruct (sessions w' !! uid) as [s'|] eqn:Hs'; [|done].
  cbn in Hw, Hw'.
  destruct (Hc uid s' c' Hs' Hw') as [Hfresh|(s0 & c0 & Hs0 & Hc0 & _ & HP)].
  - destruct (HS uid s Hs) as (_ & Hlt & _). specialize (Hlt c Hw). lia.
  - rewrite Hs in Hs0. injection Hs0 as <-. rewrite Hw in Hc0. by injection Hc0 as <-.
Qed.

(** C8, as amended.  Within one check-in cycle (same id), across any
    sequence of requests and timer callbacks from a reachable state,
    [missedCalls] never decreases and [responded] never goes back to
    false; the counters [totalCheckins], [missedCheckins] and
    [rescueDispatches] of a session never decrease.  [ivrRound] of a cycle
    is left as it is by every input but the firing of a grace or gap
    timer; it is not monotone, since such a timer sets it to the number of
    the call it starts. *)
Theorem cycle_fields_monotone w ops :
  reachable w → forallb wf_op ops = true →
  (∀ uid s, sessions w !! uid = Some s →
     ∃ s', sessions (run ops w) !! uid = Some s'
           ∧ totalCheckins (stats s) ≤ totalCheckins (stats s')
           ∧ missedCheckins (stats s) ≤ missedCheckins (stats s')
           ∧ rescueDispatches (stats s) ≤ rescueDispatches (stats s'))
  ∧ (∀ uid c c', cycle_of uid w = Some c → cycle_of uid (run ops w) = Some c' →
       checkin_id c = checkin_id c' →
       missedCalls c ≤ missedCalls c' ∧ (responded c = true → responded c' = true))
  ∧ (∀ op uid c c', wf_op op = true → round_input op w = false →
       cycle_of uid w = Some c → cycle_of uid (exec op w) = Some c' →
       checkin_id c = checkin_id c' → ivrRound c' = ivrRound c)
  ∧ (∀ tmr uid c, cycle_of uid w = Some c → responded c = false →
       (callback tmr = CbGrace uid →
        cycle_of uid (fire tmr w) = Some (set_round 1 c))
       ∧ (∀ n, callback tmr = CbGap uid n →
               cycle_of uid (fire tmr w) = Some (set_round (n + 1) c))).
Proof.
  intros Hr Hwf. apply reachable_Inv in Hr.
  destruct (run_step ops w Hr Hwf) as (_ & E).
  split; [|split; [|split]].
  - intros uid s Hs. destruct E as (_ & Hst & _).
    destruct (Hst uid s Hs) as (s' & Hs' & Hle). by exists s'.
  - intros uid c c' Hc Hc' Hid. by apply (evolves_same_cycle keeps_cycle w (run ops w) uid).
  - intros op uid c c' Hop Hri Hc Hc' Hid.
    destruct (exec_step op w Hr Hop) as (_ & _ & E3).
    by destruct (evolves_same_cycle keeps_round w (exec op w) uid c c' Hr (E3 Hri) Hc Hc' Hid).
  - intros tmr uid c Hc Hresp. destruct w as [m tm inc q t nu nt ob un].
    unfold cycle_of in Hc. cbn [sessions] in Hc.
    destruct (m !! uid) as [s|] eqn:Hs; [|done]. cbn in Hc.
    unfold fire.
    cbv beta iota delta [set_now set_queue clearTimeout sessions timers incidents
                         queue now next_uuid next_timer outbox uncaught].
    split.
    + intros ->. cbn [run_callback].
      destruct (period tmr) as [p|];
        match goal with
        | |- context [graceExpired uid (mkWorld _ _ _ ?q' ?t' _ _ _ _)] =>
            destruct (graceExpired_at uid m tm inc q' t' nu nt ob un s Hs c Hc Hresp)
              as (l' & ob' & -> & _)
        end; unfold cycle_of; cbn [sessions]; rewrite lookup_insert_eq; by destruct s.
    + intros n ->. cbn [run_callback].
      destruct (period tmr) as [p|];
        match goal with
        | |- context [startIVR uid _ (mkWorld _ _ _ ?q' ?t' _ _ _ _)] =>
            destruct (startIVR_at uid m tm inc q' t' nu nt ob un s Hs (n + 1) c Hc Hresp)
              as (l' & ob' & -> & _)
        end; unfold cycle_of; cbn [sessions]; rewrite lookup_insert_eq; by destruct s.
Qed.

(** The theorem at the first cycle of user "u", over the grace timer and
    the ring timer of call #1. *)
Lemma cycle_fields_monotone_witness :
  (∀ uid s, sessions awaiting !! uid = Some s →
     ∃ s', sessions (run [Fire 1%nat; Fire 2%nat] awaiting) !! uid = Some s'
           ∧ totalCheckins (stats s) ≤ totalCheckins (stats s')
           ∧ missedCheckins (stats s) ≤ missedCheckins (stats s')
           ∧ rescueDispatches (stats s) ≤ rescueDispatches (stats s'))
  ∧ (∀ uid c c', cycle_of uid awaiting = Some c →
       cycle_of uid (run [Fire 1%nat; Fire 2%nat] awaiting) = Some c' →
       checkin_id c = checkin_id c' →
       missedCalls c ≤ missedCalls c' ∧ (responded c = true → responded c' = true))
  ∧ (∀ op uid c c', wf_op op = true → round_input op awaiting = false →
       cycle_of uid awaiting = Some c → cycle_of uid (exec op awaiting) = Some c' →
       checkin_id c = checkin_id c' → ivrRound c' = ivrRound c)
  ∧ (∀ tmr uid c, cycle_of uid awaiting = Some c → responded c = false →
       (callback tmr = CbGrace uid →
        cycle_of uid (fire tmr awaiting) = Some (set_round 1 c))
       ∧ (∀ n, callback tmr = CbGap uid n →
               cycle_of uid (fire tmr awaiting) = Some (set_round (n + 1) c))).
Proof.
  apply (cycle_fields_monotone awaiting [Fire 1%nat; Fire 2%nat]).
  - apply reachable_script. reflexivity.
  - reflexivity.
Defined.

(** [ivrRound] decreases within a cycle: after three missed calls and the
    dispatch, the grace timer of the same cycle fires and restarts the call
    sequence at call #1. *)
Lemma ivr_round_decreases_within_a_cycle :
  forallb wf_op (overlap ++ [Fire 4%nat]) = true
  ∧ all_in_order (overlap ++ [Fire 4%nat]) init = true
  ∧ ∃ c c', cycle_of "u" (run overlap init) = Some c
      ∧ cycle_of "u" (exec (Fire 4%nat) (run overlap init)) = Some c'
      ∧ checkin_id c = checkin_id c'
      ∧ ivrRound c = 3 ∧ ivrRound c' = 1.
Proof.
  split; [reflexivity|]. split; [run_eval|].
  eexists _, _. split; [run_eval|]. split; [run_eval|].
  repeat split; reflexivity.
Qed.

(** * Cancelling timers *)

(** The handles stored under the keys [clearTimers] walks. *)
Lemma handles_all (t : gmap Slot TimerId) h :
  h ∈ handles (keys_of [] t) t ↔ ∃ k, t !! k = Some h.
Proof.
  unfold handles. rewrite list_elem_of_omap. split.
  - intros (k & _ & Hk). eauto.
  - intros (k & Hk). exists k. split; [|done]. apply keys_of_all. eauto.
Qed.

Lemma handles_given k ks (t : gmap Slot TimerId) h :
  h ∈ handles (k :: ks) t ↔ ∃ k', k' ∈ k :: ks ∧ t !! k' = Some h.
Proof. unfold handles. by rewrite list_elem_of_omap. Qed.

Lemma cleared_timers_frame uid ks w :
  sessions (clearTimers uid ks w) = sessions w
  ∧ incidents (clearTimers uid ks w) = incidents w
  ∧ outbox (clearTimers uid ks w) = outbox w
  ∧ now (clearTimers uid ks w) = now w
  ∧ next_uuid (clearTimers uid ks w) = next_uuid w
  ∧ next_timer (clearTimers uid ks w) = next_timer w
  ∧ uncaught (clearTimers uid ks w) = uncaught w
  ∧ ∀ u, u ≠ uid → timers (clearTimers uid ks w) !! u = timers w !! u.
Proof.
  destruct w. unfold clearTimers. cbn. repeat split; try done.
  intros u Hu. by rewrite lookup_insert_ne.
Qed.

(** X1.  [clearTimers(userId)] without keys empties the timer object of
    the user and cancels exactly the live timers whose handle was stored
    in it: a live timer stays if and only if no key of the object held its
    handle.  Nothing else changes: sessions, incidents, events, clock,
    counters and the timer objects of the other users. *)
Theorem clearTimers_cancels_what_is_stored uid w :
  slots_of uid (timers (clearTimers uid [] w)) = ∅
  ∧ (∀ x, x ∈ queue (clearTimers uid [] w)
          ↔ x ∈ queue w ∧ ∀ k, slots_of uid (timers w) !! k ≠ Some (timer_id x))
  ∧ sessions (clearTimers uid [] w) = sessions w
  ∧ incidents (clearTimers uid [] w) = incidents w
  ∧ outbox (clearTimers uid [] w) = outbox w
  ∧ now (clearTimers uid [] w) = now w
  ∧ next_timer (clearTimers uid [] w) = next_timer w
  ∧ ∀ u, u ≠ uid → timers (clearTimers uid [] w) !! u = timers w !! u.
Proof.
  destruct (cleared_timers_frame uid [] w) as (H1 & H2 & H3 & H4 & _ & H6 & _ & H8).
  split; [|split; [|repeat split; assumption]].
  - destruct w. unfold clearTimers. cbn. by rewrite slots_of_insert, cleared_slots_all.
  - intros x. destruct w as [m tm inc q t nu nt ob un]. unfold clearTimers. cbn.
    rewrite cleared_queue_filter, list_elem_of_filter, handles_all.
    split.
    + intros [Ha Hb]. split; [done|]. intros k Hk. apply Ha. eauto.
    + intros [Ha Hb]. split; [|done]. intros (k & Hk). by apply (Hb k).
Qed.

(** X2.  [clearTimers(userId, k1, ..., kn)] with keys removes those keys
    from the timer object and leaves every other key with its handle; a
    live timer stays if and only if none of the named keys held its
    handle.  Clearing is idempotent, with or without keys. *)
Theorem clearTimers_named_keys uid k ks w :
  (∀ k', slots_of uid (timers (clearTimers uid (k :: ks) w)) !! k'
         = if decide (k' ∈ k :: ks) then None else slots_of uid (timers w) !! k')
  ∧ (∀ x, x ∈ queue (clearTimers uid (k :: ks) w)
          ↔ x ∈ queue w
            ∧ ∀ k', k' ∈ k :: ks → slots_of uid (timers w) !! k' ≠ Some (timer_id x))
  ∧ clearTimers uid (k :: ks) (clearTimers uid (k :: ks) w) = clearTimers uid (k :: ks) w
  ∧ clearTimers uid [] (clearTimers uid [] w) = clearTimers uid [] w.
Proof.
  destruct w as [m tm inc q t nu nt ob un]. rewrite !clearTimers_at.
  cbn [timers queue]. rewrite !slots_of_insert, !insert_insert_eq.
  split; [|split; [|split]].
  - intros k'. by rewrite cleared_slots_lookup.
  - intros x. rewrite cleared_queue_filter, list_elem_of_filter, keys_of_given, handles_given.
    split.
    + intros [Ha Hb]. split; [done|]. intros k' Hin Hk'. apply Ha. eauto.
    + intros [Ha Hb]. split; [|done]. intros (k' & Hin & Hk'). by apply (Hb k').
  - f_equal.
    + f_equal. apply map_eq. intros k'. rewrite !cleared_slots_lookup, !keys_of_given.
      by case_decide.
    + rewrite (cleared_queue_filter (k :: ks) (cleared_slots _ _ _)).
      apply filter_all, list.Forall_forall. intros x _.
      rewrite keys_of_given, handles_given. intros (k' & Hin & Hk').
      rewrite cleared_slots_lookup, keys_of_given in Hk'. by rewrite decide_True in Hk'.
  - rewrite !cleared_slots_all. reflexivity.
Qed.

(** * Scheduling the next check-in *)

(** X3.  [scheduleNextCheckin] does nothing for an unknown user or a
    disabled session.  For an enabled session it logs one SCHEDULE entry,
    arms one timer whose closure is [triggerCheckin(userId)], and stores
    its handle under the key "checkin"; every timer that was live stays
    live (a check-in timer already pending is not cancelled), and no other
    field of the session changes.  The timer is due after the product
    [intervalMinutes * 60 * 1000] as binary64 arithmetic gives it, with
    the fraction of a millisecond dropped, when that is a number within 1
    and 2^31 - 1, and after 1 ms otherwise. *)
Theorem scheduleNextCheckin_arms_one_timer uid w :
  (sessions w !! uid = None → scheduleNextCheckin uid w = w)
  ∧ (∀ s, sessions w !! uid = Some s → enabled s = false →
       scheduleNextCheckin uid w = w)
  ∧ (∀ s, sessions w !! uid = Some s → enabled s = true →
       queue (scheduleNextCheckin uid w)
       = queue w ++ [mkTimer (next_timer w)
                             (now w + timer_ms (intervalMinutes s * 60 * 1000))
                             None (CbCheckin uid)]
       ∧ slots_of uid (timers (scheduleNextCheckin uid w))
         = <[SCheckin := next_timer w]> (slots_of uid (timers w))
       ∧ next_timer (scheduleNextCheckin uid w) = S (next_timer w)
       ∧ ∃ s', sessions (scheduleNextCheckin uid w) !! uid = Some s'
           ∧ log s'
             = log_push (make_entry (next_uuid w) "SCHEDULE"
                           [Txt "Next check-in in "; Num (intervalMinutes s); Txt " min"]
                           (now w) ExtraNone) (log s)
           ∧ set_log (log s) s' = s)
  ∧ (∀ s v, sessions w !! uid = Some s →
       num_val (intervalMinutes s * 60 * 1000) = Some v →
       (1 <= v)%Q → (v <= inject_Z TIMEOUT_MAX)%Q →
       timer_ms (intervalMinutes s * 60 * 1000) = Qfloor v)
  ∧ (∀ s, sessions w !! uid = Some s →
       out_of_range (intervalMinutes s * 60 * 1000) →
       timer_ms (intervalMinutes s * 60 * 1000) = 1).
Proof.
  split; [|split; [|split; [|split]]];
    [| | | intros s v _; apply timer_ms_exact
         | intros s _; apply timer_ms_out_of_range].
  all: destruct w as [m tm inc q t nu nt ob un];
    cbn [sessions queue timers now next_timer next_uuid].
  - intros Hs. by wsimpl.
  - intros s Hs He. by apply (scheduleNextCheckin_off uid m tm inc q t nu nt ob un s).
  - intros s Hs He. destruct s as [su sn sp sc se si sg sl scc sai slog sst ssock].
    cbn in He. subst se. wsimpl. rewrite ?slots_of_insert, ?lookup_insert_eq.
    repeat split. by eexists.
Qed.

(** X4.  A check-in timer can be left behind.  After a rescue dispatch
    the cycle is still unanswered, so /api/checkin/respond is accepted and
    schedules a check-in; /api/incident/resolve then schedules another one
    and overwrites the key "checkin" without cancelling the first.  Both
    timers are live and due at the same time, the timer object knows the
    second only, and [clearTimers(userId)] (as enable and disable call it)
    does not cancel the first. *)
Theorem respond_then_resolve_leaves_two_checkin_timers w uid s c r :
  reachable w →
  sessions w !! uid = Some s → currentCheckin s = Some c → responded c = false →
  activeIncident s = Some r →
  mkTimer (next_timer w) (now w + timer_ms (intervalMinutes s * 60 * 1000)) None
          (CbCheckin uid)
    ∈ queue (post_incident_resolve uid (Some r)
               (post_checkin_respond uid (Some (checkin_id c)) w).1).1
  ∧ mkTimer (S (next_timer w)) (now w + timer_ms (intervalMinutes s * 60 * 1000)) None
            (CbCheckin uid)
    ∈ queue (post_incident_resolve uid (Some r)
               (post_checkin_respond uid (Some (checkin_id c)) w).1).1
  ∧ slots_of uid (timers (post_incident_resolve uid (Some r)
                            (post_checkin_respond uid (Some (checkin_id c)) w).1).1)
      !! SCheckin = Some (S (next_timer w))
  ∧ mkTimer (next_timer w) (now w + timer_ms (intervalMinutes s * 60 * 1000)) None
            (CbCheckin uid)
    ∈ queue (clearTimers uid []
               (post_incident_resolve uid (Some r)
                  (post_checkin_respond uid (Some (checkin_id c)) w).1).1).
Proof.
  intros Hr Hs Hc Hresp Hi. apply reachable_Inv in Hr as (HS & HQ & HH).
  destruct w as [m tm inc q t nu nt ob un]. cbn in Hs, HS, HQ, HH.
  cbn [next_timer now].
  assert (He : enabled s = true).
  { destruct (HS _ _ Hs) as ((_ & Hen & _) & _). apply Hen. rewrite Hc. eauto. }
  destruct (post_checkin_respond_at uid m tm inc q t nu nt ob un s Hs c Hc Hresp He)
    as (l1 & ob1 & -> & _).
  cbn [fst].
  match goal with
  | |- context [post_incident_resolve uid (Some r) (mkWorld ?m' ?a ?b ?e ?f ?g ?h ?i ?j)] =>
      destruct (post_incident_resolve_at uid m' a b e f g h i j _
                  (lookup_insert_eq _ _ _) r) as (l2 & ob2 & -> & _);
        [by destruct s | by destruct s |]
  end.
  cbn [fst]. rewrite clearTimers_at. cbn [queue timers].
  rewrite !slots_of_insert.
  assert (Hint : intervalMinutes
            (set_log l1
               (set_stats
                  (mkStats (totalCheckins (stats s)) (missedCheckins (stats s))
                     (rescueDispatches (stats s)) (Z.max 0 (pending (stats s) - 1)))
                  (set_currentCheckin (Some (set_responded t c)) s)))
          = intervalMinutes s) by (by destruct s).
  rewrite Hint.
  set (T1 := mkTimer nt (t + timer_ms (intervalMinutes s * 60 * 1000)) None (CbCheckin uid)).
  set (T2 := mkTimer (S nt) (t + timer_ms (intervalMinutes s * 60 * 1000)) None (CbCheckin uid)).
  assert (Hold : ∀ k h ks, cleared_slots ks (<[SCheckin:=nt]>
                    (cleared_slots cycleSlots (slots_of uid tm) q)) 
                    (cleared_queue cycleSlots (slots_of uid tm) q ++ [T1]) !! k = Some h →
                 k ≠ SCheckin → (h < nt)%nat).
  { intros k h ks Hk Hne. apply cleared_slots_sub in Hk.
    rewrite lookup_insert_ne in Hk by done. apply cleared_slots_sub in Hk.
    by eapply handles_ok_slots. }
  assert (H1 : T1 ∈ cleared_queue [SBroadcast]
                 (<[SCheckin:=nt]> (cleared_slots cycleSlots (slots_of uid tm) q))
                 (cleared_queue cycleSlots (slots_of uid tm) q ++ [T1])).
  { rewrite cleared_queue_filter. apply list_elem_of_filter. split.
    - rewrite keys_of_given. unfold handles. rewrite list_elem_of_omap.
      intros (k & Hin & Hk). apply list_elem_of_singleton in Hin. subst k.
      rewrite lookup_insert_ne in Hk by done. apply cleared_slots_sub in Hk.
      pose proof (handles_ok_slots _ _ _ _ _ HH Hk). cbn in Hk. cbn in H. lia.
    - apply elem_of_app. right. by apply list_elem_of_singleton. }
  split; [apply elem_of_app; by left|].
  split; [apply elem_of_app; right; by apply list_elem_of_singleton|].
  split; [by rewrite lookup_insert_eq|].
  rewrite cleared_queue_filter. apply list_elem_of_filter. split.
  - unfold handles. rewrite list_elem_of_omap. intros (k & _ & Hk).
    destruct (decide (k = SCheckin)) as [->|Hne].
    + rewrite lookup_insert_eq in Hk. injection Hk as Hk. cbn in Hk. lia.
    + rewrite lookup_insert_ne in Hk by done.
      pose proof (Hold _ _ _ Hk Hne) as Hlt. cbn in Hlt. lia.
  - apply elem_of_app. by left.
Qed.

(** * Disabling the monitor *)

Lemma post_checkin_disable_none uid w :
  sessions w !! uid = None →
  post_checkin_disable uid w = (w, Json 404 (BError "Session not found")).
Proof. destruct w. cbn. intros Hs. cbv beta delta [post_checkin_disable]. by wsimpl. Qed.

(** After the cycle and the incident are gone and the monitor is off,
    every closure of the user finds its guard false. *)
Lemma run_callback_off uid self cb w s :
  sessions w !! uid = Some s →
  enabled s = false → currentCheckin s = None → activeIncident s = None →
  owner cb = uid →
  same_store w (run_callback self cb w)
  ∧ now (run_callback self cb w) = now w
  ∧ ∀ x, x ∈ queue (run_callback self cb w) → x ∈ queue w.
Proof.
  intros Hs He Hc Hi Ho.
  assert (Hst : stale_at uid w) by (unfold stale_at, stale; by rewrite Hs, Hc).
  assert (Hn : no_incident_at uid w) by (unfold no_incident_at; by rewrite Hs).
  destruct cb as [u|u|u n|u n|u i]; cbn in Ho; subst u; cbn [run_callback].
  - destruct w as [m tm inc q t nu nt ob un]. cbn in Hs.
    rewrite (triggerCheckin_off uid m tm inc q t nu nt ob un s Hs He).
    by repeat split.
  - rewrite graceExpired_stale by done. by repeat split.
  - rewrite ringExpired_stale by done. by repeat split.
  - rewrite startIVR_stale by done. by repeat split.
  - rewrite broadcastTick_silent by done. destruct w. cbn.
    repeat split. intros x Hx. unfold cancel in Hx.
    apply list_elem_of_filter in Hx. tauto.
Qed.

(** X5.  POST /api/checkin/disable answers 404 without a session.
    Otherwise it answers success, turns the monitor off, clears the cycle
    and the incident, keeps the configuration, the counters and the other
    fields, empties the timer object, cancels every timer stored in it and
    arms none.  From then on every timer closure of the user, even one
    that was not stored and is still live, changes nothing when it runs:
    no session field, no event, no new timer. *)
Theorem disable_contract uid w :
  (sessions w !! uid = None →
   post_checkin_disable uid w = (w, Json 404 (BError "Session not found")))
  ∧ (∀ s, sessions w !! uid = Some s →
       (post_checkin_disable uid w).2 = Json 200 (BSuccess None None)
       ∧ (∃ s', sessions (post_checkin_disable uid w).1 !! uid = Some s'
            ∧ enabled s' = false ∧ currentCheckin s' = None ∧ activeIncident s' = None
            ∧ intervalMinutes s' = intervalMinutes s ∧ graceSeconds s' = graceSeconds s
            ∧ stats s' = stats s ∧ lastLocation s' = lastLocation s
            ∧ emergencyContacts s' = emergencyContacts s ∧ socketId s' = socketId s)
       ∧ slots_of uid (timers (post_checkin_disable uid w).1) = ∅
       ∧ next_timer (post_checkin_disable uid w).1 = next_timer w
       ∧ (∀ x, x ∈ queue (post_checkin_disable uid w).1
               ↔ x ∈ queue w ∧ ∀ k, slots_of uid (timers w) !! k ≠ Some (timer_id x))
       ∧ (∀ self cb, owner cb = uid →
            same_store (post_checkin_disable uid w).1
                       (run_callback self cb (post_checkin_disable uid w).1)
            ∧ ∀ x, x ∈ queue (run_callback self cb (post_checkin_disable uid w).1) →
                   x ∈ queue (post_checkin_disable uid w).1)).
Proof.
  split; [apply post_checkin_disable_none|].
  intros s Hs. destruct w as [m tm inc q t nu nt ob un]. cbn in Hs.
  destruct (post_checkin_disable_at uid m tm inc q t nu nt ob un s Hs)
    as (l' & ob' & -> & _).
  cbn [fst snd sessions timers queue next_timer].
  rewrite lookup_insert_eq, slots_of_insert, cleared_slots_all.
  split; [done|]. split; [eexists; split; [done|]; by destruct s|].
  split; [done|]. split; [done|]. split.
  - intros x. rewrite cleared_queue_filter, list_elem_of_filter, handles_all. split.
    + intros [Ha Hb]. split; [done|]. intros k Hk. apply Ha. eauto.
    + intros [Ha Hb]. split; [|done]. intros (k & Hk). by apply (Hb k).
  - intros self cb Ho.
    match goal with
    | |- context [run_callback self cb ?W] =>
        destruct (run_callback_off uid self cb W _ (lookup_insert_eq _ _ _))
          as (H1 & _ & H3); try done; by destruct s
    end.
Qed.

(** * Location updates *)

Lemma post_location_update_none uid la lo ad w :
  sessions w !! uid = None →
  post_location_update uid la lo ad w = (w, Json 404 (BError "Session not found")).
Proof. destruct w. cbn. intros Hs. cbv beta delta [post_location_update]. by wsimpl. Qed.

(** X6.  POST /api/location/update answers 404 without a session.
    Otherwise it replaces [lastLocation]: latitude and longitude are the
    ones of the request (absent ones erase the stored coordinates), the
    address is the one of the request unless it is absent or empty, in
    which case the stored address stays, and [updatedAt] is the time of
    the request.  No other field, timer, log entry or event changes, and
    the location recorded in an incident object stays as it was at
    dispatch; the next broadcast tick of an active incident sends the new
    location to the subscriber. *)
Theorem location_update_contract uid la lo ad w :
  (sessions w !! uid = None →
   post_location_update uid la lo ad w = (w, Json 404 (BError "Session not found")))
  ∧ (∀ s, sessions w !! uid = Some s →
       post_location_update uid la lo ad w
       = (set_sessions
            (<[uid := set_lastLocation
                        (mkLocation la lo
                           (match ad with
                            | Some a => if String.eqb a "" then address (lastLocation s)
                                        else Some a
                            | None => address (lastLocation s)
                            end)
                           (Some (now w))) s]> (sessions w)) w,
          Json 200 (BSuccess None None))
       ∧ incidents (post_location_update uid la lo ad w).1 = incidents w
       ∧ (∀ i self r k,
            activeIncident s = Some r → socketId s = Some k → k ≠ "" →
            broadcastTick uid i self (post_location_update uid la lo ad w).1
            = set_outbox
                (outbox w
                 ++ [mkEvent k
                       (location_broadcast
                          (mkLocation la lo
                             (match ad with
                              | Some a => if String.eqb a "" then address (lastLocation s)
                                          else Some a
                              | None => address (lastLocation s)
                              end)
                             (Some (now w))) i)
                       (Some (now w))])
                (post_location_update uid la lo ad w).1)).
Proof.
  split; [apply post_location_update_none|].
  intros s Hs. destruct w as [m tm inc q t nu nt ob un]. cbn in Hs.
  rewrite (post_location_update_at uid m tm inc q t nu nt ob un s Hs).
  cbn [fst snd incidents sessions set_sessions timers queue now next_uuid next_timer
       outbox uncaught].
  assert (Had : js_or truthy_str ad (address (lastLocation s))
                = match ad with
                  | Some a => if String.eqb a "" then address (lastLocation s) else Some a
                  | None => address (lastLocation s)
                  end).
  { destruct ad as [a|]; [|done]. unfold js_or, truthy_str. by destruct (String.eqb a ""). }
  rewrite Had. split; [done|]. split; [done|].
  intros i self r k Hi Hk Hne.
  erewrite broadcastTick_at; [| apply lookup_insert_eq | by destruct s].
  cbn [set_outbox sessions timers incidents queue now next_uuid next_timer outbox uncaught].
  f_equal. f_equal. destruct s; cbn in *. subst. unfold events_to, truthy_str.
  apply String.eqb_neq in Hne. by rewrite Hne.
Qed.

(** * What a response shows of a session *)

(** X7.  GET /api/session/:userId answers 404 without a session and
    otherwise the stored session without its socket id; it changes
    nothing.  No response of the handlers that return a session
    (register, enable, get-session) carries a socket id, whatever the
    stored session holds, and every other field is shown as stored. *)
Theorem responses_hide_the_socket_id :
  (∀ uid w, (get_session uid w).1 = w)
  ∧ (∀ uid w, sessions w !! uid = None →
       (get_session uid w).2 = Json 404 (BError "Session not found"))
  ∧ (∀ uid w s, sessions w !! uid = Some s →
       (get_session uid w).2 = Json 200 (BSession (safe s)))
  ∧ (∀ s, socketId (safe s) = None ∧ set_socketId (socketId s) (safe s) = s
          ∧ safe (safe s) = safe s)
  ∧ (∀ uid w ses, session_of (get_session uid w).2 = Some ses →
       socketId ses = None ∧ ∃ s, sessions w !! uid = Some s ∧ ses = safe s)
  ∧ (∀ ru rn rp rc rl w ses,
       session_of (post_register ru rn rp rc rl w).2 = Some ses →
       socketId ses = None
       ∧ ∃ uid s, ru = Some uid
           ∧ sessions (post_register ru rn rp rc rl w).1 !! uid = Some s ∧ ses = safe s)
  ∧ (∀ uid ri rg w ses,
       session_of (post_checkin_enable uid ri rg w).2 = Some ses →
       socketId ses = None
       ∧ ∃ s, sessions (post_checkin_enable uid ri rg w).1 !! uid = Some s ∧ ses = safe s).
Proof.
  split; [|split; [|split; [|split; [|split; [|split]]]]].
  - intros uid w. unfold get_session. by destruct (sessions w !! uid).
  - intros uid w Hs. unfold get_session. by rewrite Hs.
  - intros uid w s Hs. unfold get_session. by rewrite Hs.
  - intros s. by destruct s.
  - intros uid w ses. unfold get_session.
    destruct (sessions w !! uid) as [s|]; [|done]. cbn. intros [= <-]. eauto.
  - intros ru rn rp rc rl w ses. unfold post_register.
    destruct (js_or truthy_str ru None) as [uid|] eqn:Hu; [|done].
    cbn [snd session_of fst set_sessions sessions]. intros [= <-]. split; [done|].
    exists uid. eexists. split; [|split; [apply lookup_insert_eq | done]].
    destruct ru as [x|]; [|done]. cbn in Hu. by destruct (truthy_str x).
  - intros uid ri rg [m tm inc q t nu nt ob un] ses.
    destruct (m !! uid) as [s|] eqn:Hs.
    + destruct (post_checkin_enable_at uid m tm inc q t nu nt ob un s Hs ri rg)
        as (l' & ob' & -> & _).
      cbv zeta. cbn [snd fst session_of sessions]. intros [= <-]. split; [done|].
      eexists. split; [apply lookup_insert_eq | done].
    + rewrite post_checkin_enable_none by done. done.
Qed.

(** * Demo mode *)

Lemma post_dev_demo_none uid w :
  sessions w !! uid = None →
  post_dev_demo uid w = (w, Json 404 (BError "Session not found")).
Proof. destruct w. cbn. intros Hs. cbv beta delta [post_dev_demo]. by wsimpl. Qed.




(** * Registration without a user id *)

(** X9.  POST /api/register answers 400 "userId required" exactly when
    the [userId] of the request is absent or empty, and then it changes
    nothing; otherwise it answers success with the session it stored
    under that id, whose [userId] field is the id. *)
Theorem register_requires_user_id ru rn rp rc rl w :
  ((post_register ru rn rp rc rl w).2 = Json 400 (BError "userId required")
   ↔ ru = None ∨ ru = Some "")
  ∧ (ru = None ∨ ru = Some "" → (post_register ru rn rp rc rl w).1 = w)
  ∧ (∀ uid, ru = Some uid → uid ≠ "" →
       ∃ s, (post_register ru rn rp rc rl w).2 = Json 200 (BSuccess None (Some (safe s)))
            ∧ sessions (post_register ru rn rp rc rl w).1 !! uid = Some s
            ∧ userId s = uid).
Proof.
  unfold post_register. destruct ru as [uid|]; cbn [js_or].
  - unfold truthy_str. destruct (String.eqb_spec uid "") as [->|Hne]; cbn [negb].
    + split; [split; [by right | done]|]. split; [done|]. by intros ? [= <-].
    + split; [split; [done | by intros [|[=]]]|]. split; [by intros [|[=]]|].
      intros ? [= <-] _. eexists. split; [done|]. cbn. by rewrite lookup_insert_eq.
  - split; [split; [by left | done]|]. split; [done|]. done.
Qed.

(** * Invariants of the reachable states *)

(** X11.  In every state the server can reach: a session that has a
    check-in cycle or an active incident is enabled (a disabled session
    has neither); the configured interval and grace are never 0; name and
    phone are never empty; the id of a
    cycle is one [uuid()] has already handed out; the active incident is
    an incident object that exists; and every live timer and every handle
    kept in a timer object was handed out by the timer facility. *)
Theorem reachable_state_invariants w :
  reachable w →
  (∀ uid s, sessions w !! uid = Some s →
     (enabled s = false → currentCheckin s = None ∧ activeIncident s = None)
     ∧ (intervalMinutes s =? 0)%float = false ∧ (graceSeconds s =? 0)%float = false
     ∧ name s ≠ "" ∧ phone s ≠ ""
     ∧ (∀ c, currentCheckin s = Some c → (checkin_id c < next_uuid w)%nat)
     ∧ (∀ r, activeIncident s = Some r → ∃ i, incidents w !! r = Some i))
  ∧ (∀ x, x ∈ queue w → (timer_id x < next_timer w)%nat)
  ∧ (∀ uid k h, slots_of uid (timers w) !! k = Some h → (h < next_timer w)%nat).
Proof.
  intros Hr. apply reachable_Inv in Hr as (HS & HQ & HH).
  split; [|split].
  - intros uid s Hs.
    destruct (HS _ _ Hs) as ((_ & Hc & Hi & Hn & Hp & Him & Hg & _) & Hid & Hinc).
    assert (Hnum : ∀ v, truthy_num v = true → (v =? 0)%float = false)
      by apply truthy_num_true.
    assert (Hstr : ∀ x, truthy_str x = true → x ≠ "").
    { intros x Hx ->. discriminate. }
    split.
    { intros He. split.
      - destruct (currentCheckin s) eqn:E; [|done].
        rewrite Hc in He by eauto. discriminate.
      - destruct (activeIncident s) eqn:E; [|done].
        rewrite Hi in He by eauto. discriminate. }
    repeat split; auto.
  - intros x Hx. unfold queue_ok in HQ. rewrite list.Forall_forall in HQ. by apply HQ.
  - intros uid k h Hk. by eapply handles_ok_slots.
Qed.

(** * No timer callback throws *)

Lemma cycle_enabled nu inc m uid s c :
  sessions_ok nu inc m → m !! uid = Some s → currentCheckin s = Some c →
  enabled s = true.
Proof.
  intros HS Hs Hc. destruct (HS _ _ Hs) as ((_ & Hen & _) & _).
  apply Hen. rewrite Hc. eauto.
Qed.

Lemma incident_enabled nu inc m uid s r :
  sessions_ok nu inc m → m !! uid = Some s → activeIncident s = Some r →
  enabled s = true.
Proof.
  intros HS Hs Hi. destruct (HS _ _ Hs) as ((_ & _ & Hen & _) & _).
  apply Hen. rewrite Hi. eauto.
Qed.

Lemma run_callback_uncaught self cb w :
  Inv w → owner_contacts_ok cb w →
  uncaught (run_callback self cb w) = uncaught w.
Proof.
  destruct w as [m tm inc q t nu nt ob un]. intros (HS & _ & _). cbn in HS.
  unfold owner_contacts_ok. cbn [sessions].
  assert (Hstale : ∀ u s, m !! u = Some s → stale s →
            stale_at u (mkWorld m tm inc q t nu nt ob un))
    by (intros u s Hs Hst; unfold stale_at; cbn; by rewrite Hs).
  assert (Hnone : ∀ u, m !! u = None → stale_at u (mkWorld m tm inc q t nu nt ob un))
    by (intros u Hs; unfold stale_at; cbn; by rewrite Hs).
  destruct cb as [u|u|u n|u n|u i]; cbn [run_callback owner];
    destruct (m !! u) as [s|] eqn:Hs; intros Hok.
  - destruct (enabled s) eqn:He.
    + by destruct (triggerCheckin_at u m tm inc q t nu nt ob un s Hs He) as (? & ? & -> & _).
    + by rewrite (triggerCheckin_off u m tm inc q t nu nt ob un s Hs He).
  - by rewrite triggerCheckin_none.
  - destruct (stale_dec s) as [Hst|Hst]; [by rewrite graceExpired_stale by eauto|].
    apply not_stale in Hst as (c & Hc & Hr).
    by destruct (graceExpired_at u m tm inc q t nu nt ob un s Hs c Hc Hr) as (? & ? & -> & _).
  - by rewrite graceExpired_stale by eauto.
  - destruct (stale_dec s) as [Hst|Hst]; [by rewrite ringExpired_stale by eauto|].
    apply not_stale in Hst as (c & Hc & Hr).
    pose proof (cycle_enabled _ _ _ _ _ _ HS Hs Hc) as He.
    apply contact_list_thrown in Hok.
    destruct (n <? 3) eqn:Hn.
    { by destruct (ringExpired_gap u m tm inc q t nu nt ob un s Hs n c Hc Hr Hn)
        as (? & ? & -> & _). }
    destruct (2 <=? missedCalls c + 1) eqn:Hd.
    { by destruct (ringExpired_dispatch u m tm inc q t nu nt ob un s Hs n c Hc Hr Hn Hd Hok)
        as (? & ? & -> & _). }
    by destruct (ringExpired_resume u m tm inc q t nu nt ob un s Hs n c Hc Hr Hn Hd He)
      as (? & ? & -> & _).
  - by rewrite ringExpired_stale by eauto.
  - destruct (stale_dec s) as [Hst|Hst]; [by rewrite startIVR_stale by eauto|].
    apply not_stale in Hst as (c & Hc & Hr).
    by destruct (startIVR_at u m tm inc q t nu nt ob un s Hs (n + 1) c Hc Hr)
      as (? & ? & -> & _).
  - by rewrite startIVR_stale by eauto.
  - destruct (activeIncident s) as [r|] eqn:Hi.
    + by rewrite (broadcastTick_at u m tm inc q t nu nt ob un s Hs i self r Hi).
    + by rewrite (broadcastTick_off u m tm inc q t nu nt ob un s Hs i self Hi).
  - by rewrite broadcastTick_none.
Qed.

Lemma fire_uncaught tmr w :
  Inv w → owner_contacts_ok (callback tmr) w → uncaught (fire tmr w) = uncaught w.
Proof.
  intros HI Hok. unfold fire.
  set (w1 := match period tmr with Some p => _ | None => _ end).
  assert (H1 : Inv w1 ∧ uncaught w1 = uncaught w ∧ sessions w1 = sessions w).
  { subst w1. destruct w as [m tm inc q t nu nt ob un].
    destruct HI as (HS & HQ & HH). cbn in HS, HQ, HH.
    destruct (period tmr); (split; [|done]); (split; [|split]); cbn; try done.
    - by apply queue_ok_rearm.
    - by apply queue_ok_cancel. }
  destruct H1 as (I1 & <- & Hses). apply run_callback_uncaught; [done|].
  unfold owner_contacts_ok in *. by rewrite Hses.
Qed.

(** A request handler leaves no exception behind: Express answers 500. *)
Lemma handler_uncaught op w :
  Inv w → (∀ h, op ≠ Fire h) → uncaught (exec op w) = uncaught w.
Proof.
  intros HI Hop. unfold exec. destruct (uncaught w) eqn:Hu; [done|]. rewrite <- Hu. clear Hu.
  destruct w as [m tm inc q t nu nt ob un]. pose proof HI as (HS & _). cbn in HS.
  destruct op; cbn [uncaught].
  - unfold post_register. by destruct (js_or truthy_str rUserId None).
  - destruct (m !! uid) as [s|] eqn:Hs.
    + by destruct (post_checkin_enable_at uid m tm inc q t nu nt ob un s Hs rInterval rGrace)
        as (? & ? & -> & _).
    + by rewrite post_checkin_enable_none.
  - destruct (m !! uid) as [s|] eqn:Hs.
    + by destruct (post_checkin_disable_at uid m tm inc q t nu nt ob un s Hs)
        as (? & ? & -> & _).
    + by rewrite post_checkin_disable_none.
  - destruct (m !! uid) as [s|] eqn:Hs; [|by rewrite post_checkin_respond_none].
    destruct (stale_dec s) as [Hst|Hst].
    { by destruct (post_checkin_respond_fail uid checkinId
                     (mkWorld m tm inc q t nu nt ob un) s Hs (or_introl Hst)) as (? & ->). }
    apply not_stale in Hst as (c & Hc & Hr).
    destruct (decide (checkinId = Some (checkin_id c))) as [->|Hne].
    + pose proof (cycle_enabled _ _ _ _ _ _ HS Hs Hc) as He.
      by destruct (post_checkin_respond_at uid m tm inc q t nu nt ob un s Hs c Hc Hr He)
        as (? & ? & -> & _).
    + destruct (post_checkin_respond_fail uid checkinId
                  (mkWorld m tm inc q t nu nt ob un) s Hs) as (? & ->); [by eauto | done].
  - destruct (m !! uid) as [s|] eqn:Hs.
    2: { by rewrite post_ivr_respond_no_cycle by (cbn; by rewrite Hs). }
    destruct (stale_dec s) as [Hst|Hst].
    { destruct (post_ivr_respond_fail uid callNumber (mkWorld m tm inc q t nu nt ob un))
        as (? & ? & -> & _); [|done]. unfold stale_at. cbn. by rewrite Hs. }
    apply not_stale in Hst as (c & Hc & Hr).
    pose proof (cycle_enabled _ _ _ _ _ _ HS Hs Hc) as He.
    by destruct (post_ivr_respond_at uid m tm inc q t nu nt ob un s Hs callNumber c Hc Hr He)
      as (? & ? & -> & _).
  - destruct (m !! uid) as [s|] eqn:Hs.
    + by rewrite (post_location_update_at uid m tm inc q t nu nt ob un s Hs).
    + by rewrite post_location_update_none.
  - destruct (m !! uid) as [s|] eqn:Hs; [|by rewrite post_incident_resolve_none].
    destruct (decide (activeIncident s = incidentId)) as [Heq|Hne].
    + destruct incidentId as [r|].
      * pose proof (incident_enabled _ _ _ _ _ _ HS Hs Heq) as He.
        by destruct (post_incident_resolve_at uid m tm inc q t nu nt ob un s Hs r Heq He)
          as (? & ? & -> & _).
      * by rewrite (post_incident_resolve_throws uid m tm inc q t nu nt ob un s Hs Heq).
    + by rewrite (post_incident_resolve_other uid m tm inc q t nu nt ob un s Hs incidentId Hne).
  - unfold get_session. cbn. by destruct (m !! uid).
  - destruct (m !! uid) as [s|] eqn:Hs.
    + by destruct (post_dev_demo_at uid m tm inc q t nu nt ob un s Hs) as (? & ? & -> & _).
    + by rewrite post_dev_demo_none.
  - destruct (m !! uid) as [s|] eqn:Hs.
    + by rewrite (register_socket_at uid m tm inc q t nu nt ob un s Hs).
    + cbv beta delta [register_socket]. by wsimpl.
  - done.
  - by destruct (Hop h).
  - done.
Qed.

Lemma thrown_TypeError cv e : thrown cv = Some e → e = "TypeError".
Proof.
  destruct cv as [l|j]; cbn; [|congruence].
  induction l as [|[c|] l IH]; cbn; [done | exact IH | congruence].
Qed.

(** X12.  A timer callback throws in one place only, the [forEach] of
    [dispatchRescue].  In every state the server can reach without an
    exception, running the closure of any timer (check-in, grace, ring,
    gap, broadcast; live or not) of a user whose [emergencyContacts] is
    an array without [null] elements raises no exception; in particular
    the unguarded read [s.currentCheckin.missedCalls] never fails.  No
    request handler leaves an exception behind.  But when the contacts
    are anything else, the ring callback that reaches the rescue
    threshold throws a TypeError, which nothing catches. *)
Theorem timer_callbacks_throw_only_in_forEach w :
  reachable w → uncaught w = None →
  (∀ self cb, owner_contacts_ok cb w → uncaught (run_callback self cb w) = None)
  ∧ (∀ tmr, owner_contacts_ok (callback tmr) w → uncaught (fire tmr w) = None)
  ∧ (∀ op, (∀ h, op ≠ Fire h) → uncaught (exec op w) = None)
  ∧ (∀ self uid n s c,
       sessions w !! uid = Some s → currentCheckin s = Some c → responded c = false →
       3 ≤ n → 1 ≤ missedCalls c → ¬ contact_list (emergencyContacts s) →
       uncaught (run_callback self (CbRing uid n) w) = Some "TypeError").
Proof.
  intros Hr Hu. pose proof (reachable_Inv w Hr) as HI.
  split; [|split; [|split]].
  - intros self cb Hok. by rewrite run_callback_uncaught.
  - intros tmr Hok. by rewrite fire_uncaught.
  - intros op Hop. by rewrite handler_uncaught.
  - intros self uid n s c Hs Hc Hresp Hn Hm Hcl.
    destruct w as [m tm inc q t nu nt ob un]. cbn in Hs. cbn [run_callback].
    destruct (thrown (emergencyContacts s)) as [e|] eqn:Hth.
    2: { by apply contact_list_thrown in Hth. }
    assert (Hn' : (n <? 3) = false) by (apply Z.ltb_ge; lia).
    assert (Hd : (2 <=? missedCalls c + 1) = true) by (apply Z.leb_le; lia).
    destruct (ringExpired_throws uid m tm inc q t nu nt ob un s Hs n c e Hc Hresp Hn' Hd Hth)
      as (l' & ob' & -> & _).
    cbn. by rewrite (thrown_TypeError _ _ Hth).
Qed.

(** * The rescue threshold *)

Lemma evaluateAndDispatch_none uid w :
  cycle_of uid w = None → evaluateAndDispatch uid w = w.
Proof.
  destruct w as [m tm inc q t nu nt ob un]. unfold cycle_of. cbn.
  destruct (m !! uid) as [s|] eqn:Hs; cbn.
  - intros Hc. destruct s; cbn in Hc; subst. by wsimpl.
  - intros _. by wsimpl.
Qed.

Lemma evaluateAndDispatch_dispatch uid m tm inc q t nu nt ob un s c :
  m !! uid = Some s → currentCheckin s = Some c → (2 <=? missedCalls c) = true →
  thrown (emergencyContacts s) = None →
  ∃ l' ob',
    evaluateAndDispatch uid (mkWorld m tm inc q t nu nt ob un)
    = mkWorld (<[uid := set_log l'
                          (set_activeIncident (Some (S nu))
                             (set_stats (mkStats (totalCheckins (stats s))
                                                 (missedCheckins (stats s))
                                                 (rescueDispatches (stats s) + 1)
                                                 (pending (stats s))) s))]> m)
              (<[uid := <[SBroadcast := nt]> (slots_of uid tm)]> tm)
              (<[S nu := mkIncident (S nu) uid (lastLocation s) (phone s)
                           (emergencyContacts s) (missedCalls c) t
                           DISPATCHED None alphaUnit]> inc)
              (q ++ [mkTimer nt (t + timer_ms 10000) (Some (timer_ms 10000))
                             (CbBroadcast uid (S nu))])
              t (length (notified (emergencyContacts s)) + S (S (S nu)))%nat (S nt) ob' un
    ∧ log_grows (log s) l'.
Proof.
  intros Hs Hc Hd Hth.
  destruct s as [? ? ? ? ? ? ? ? ? ? ? []]; destruct c; cbn in Hc, Hd, Hth; subst.
  wsimpl. eexists _, _. split; [reflexivity | solve_log].
Qed.

Lemma evaluateAndDispatch_throws uid m tm inc q t nu nt ob un s c e :
  m !! uid = Some s → currentCheckin s = Some c → (2 <=? missedCalls c) = true →
  thrown (emergencyContacts s) = Some e →
  ∃ l' ob',
    evaluateAndDispatch uid (mkWorld m tm inc q t nu nt ob un)
    = mkWorld (<[uid := set_log l'
                          (set_activeIncident (Some (S nu))
                             (set_stats (mkStats (totalCheckins (stats s))
                                                 (missedCheckins (stats s))
                                                 (rescueDispatches (stats s) + 1)
                                                 (pending (stats s))) s))]> m)
              tm
              (<[S nu := mkIncident (S nu) uid (lastLocation s) (phone s)
                           (emergencyContacts s) (missedCalls c) t
                           DISPATCHED None alphaUnit]> inc)
              q t (length (notified (emergencyContacts s)) + S (S (S nu)))%nat nt ob'
              (Some e)
    ∧ log_grows (log s) l'.
Proof.
  intros Hs Hc Hd Hth.
  destruct s as [? ? ? ? ? ? ? ? ? ? ? []]; destruct c; cbn in Hc, Hd, Hth; subst.
  wsimpl. eexists _, _. split; [reflexivity | solve_log].
Qed.

Lemma evaluateAndDispatch_resume uid m tm inc q t nu nt ob un s c :
  m !! uid = Some s → currentCheckin s = Some c → (2 <=? missedCalls c) = false →
  ∃ l' ob',
    evaluateAndDispatch uid (mkWorld m tm inc q t nu nt ob un)
    = (if enabled s
       then mkWorld (<[uid := set_log l' s]> m)
                    (<[uid := <[SCheckin := nt]> (slots_of uid tm)]> tm) inc
                    (q ++ [mkTimer nt (t + timer_ms (intervalMinutes s * 60 * 1000)) None
                                   (CbCheckin uid)])
                    t (S (S (S nu))) (S nt) ob' un
       else mkWorld (<[uid := set_log l' s]> m) tm inc q t (S (S nu)) nt ob' un)
    ∧ log_grows (log s) l'.
Proof.
  intros Hs Hc Hd.
  destruct s as [? ? ? ? [] ? ? ? ? ? ? ?]; destruct c; cbn in Hc, Hd; subst;
    wsimpl; (eexists _, _; split; [reflexivity | solve_log]).
Qed.

(** X14.  [evaluateAndDispatch] does nothing without a cycle.  With a
    cycle it dispatches rescue exactly when [missedCalls >= 2]: then an
    incident object with status DISPATCHED, the user's location, phone and
    contacts and the number of missed calls becomes the active incident
    and [rescueDispatches] grows by one; when the contacts are an array
    without [null] elements a broadcast interval of 10 s is armed, and
    otherwise the [forEach] throws, no timer is armed and the exception
    is uncaught.  With fewer than 2 missed calls no incident is created,
    the counters stay, and the next check-in is scheduled (when the
    monitor is on).  The cycle itself is left as it is in every case. *)
Theorem evaluateAndDispatch_threshold uid w :
  (cycle_of uid w = None → evaluateAndDispatch uid w = w)
  ∧ (∀ s c, sessions w !! uid = Some s → currentCheckin s = Some c →
       2 ≤ missedCalls c →
       ∃ s' i,
         sessions (evaluateAndDispatch uid w) !! uid = Some s'
         ∧ activeIncident s' = Some i
         ∧ incidents (evaluateAndDispatch uid w) !! i
           = Some (mkIncident i uid (lastLocation s) (phone s) (emergencyContacts s)
                              (missedCalls c) (now w) DISPATCHED None alphaUnit)
         ∧ i = S (next_uuid w)
         ∧ rescueDispatches (stats s') = rescueDispatches (stats s) + 1
         ∧ currentCheckin s' = Some c
         ∧ (contact_list (emergencyContacts s) →
            uncaught (evaluateAndDispatch uid w) = uncaught w
            ∧ slots_of uid (timers (evaluateAndDispatch uid w)) !! SBroadcast
              = Some (next_timer w)
            ∧ queue (evaluateAndDispatch uid w)
              = queue w ++ [mkTimer (next_timer w) (now w + 10000) (Some 10000)
                                    (CbBroadcast uid i)])
         ∧ (¬ contact_list (emergencyContacts s) →
            uncaught (evaluateAndDispatch uid w) = Some "TypeError"
            ∧ timers (evaluateAndDispatch uid w) = timers w
            ∧ queue (evaluateAndDispatch uid w) = queue w))
  ∧ (∀ s c, sessions w !! uid = Some s → currentCheckin s = Some c →
       missedCalls c < 2 →
       incidents (evaluateAndDispatch uid w) = incidents w
       ∧ (∃ s', sessions (evaluateAndDispatch uid w) !! uid = Some s'
            ∧ activeIncident s' = activeIncident s ∧ stats s' = stats s
            ∧ currentCheckin s' = Some c)
       ∧ queue (evaluateAndDispatch uid w)
         = queue w ++ (if enabled s
                       then [mkTimer (next_timer w)
                                     (now w + timer_ms (intervalMinutes s * 60 * 1000))
                                     None (CbCheckin uid)]
                       else [])).
Proof.
  split; [apply evaluateAndDispatch_none|]. split.
  - intros s c Hs Hc Hm. destruct w as [m tm inc q t nu nt ob un]. cbn in Hs.
    apply Z.leb_le in Hm.
    destruct (thrown (emergencyContacts s)) as [e|] eqn:Hth.
    + destruct (evaluateAndDispatch_throws uid m tm inc q t nu nt ob un s c e Hs Hc Hm Hth)
        as (l' & ob' & -> & _).
      cbn [sessions incidents timers queue now next_uuid next_timer uncaught].
      rewrite !lookup_insert_eq.
      eexists _, _. split; [done|]. split; [by destruct s|].
      split; [by rewrite lookup_insert_eq|]. split; [done|].
      split; [by destruct s|]. split; [by destruct s|]. split.
      * intros Hcl. apply contact_list_thrown in Hcl. congruence.
      * intros _. by rewrite (thrown_TypeError _ _ Hth).
    + destruct (evaluateAndDispatch_dispatch uid m tm inc q t nu nt ob un s c Hs Hc Hm Hth)
        as (l' & ob' & -> & _).
      cbn [sessions incidents timers queue now next_uuid next_timer uncaught].
      rewrite !lookup_insert_eq, slots_of_insert, lookup_insert_eq, timer_ms_gap.
      eexists _, _. split; [done|]. split; [by destruct s|].
      split; [by rewrite lookup_insert_eq|]. split; [done|].
      split; [by destruct s|]. split; [by destruct s|]. split.
      * by intros _.
      * intros Hcl. by apply contact_list_thrown in Hth.
  - intros s c Hs Hc Hm. destruct w as [m tm inc q t nu nt ob un]. cbn in Hs.
    apply Z.leb_gt in Hm.
    destruct (evaluateAndDispatch_resume uid m tm inc q t nu nt ob un s c Hs Hc Hm)
      as (l' & ob' & -> & _).
    destruct s as [? ? ? ? [] ? ? ? ? ? ? ? ?]; cbn in *;
      rewrite lookup_insert_eq, ?app_nil_r; (split; [done|]); (split; [|done]);
      eexists; by repeat split.
Qed.

(** * Subscriber sockets *)

Lemma emit_outbox uid d w :
  outbox (emit uid d w)
  = outbox w ++ match sessions w !! uid with
                | Some s => events_to (socketId s) (now w) d
                | None => []
                end.
Proof.
  destruct w as [m tm inc q t nu nt ob un]. cbn [sessions outbox now].
  destruct (m !! uid) as [s|] eqn:Hs.
  - by rewrite (emit_at uid m tm inc q t nu nt ob un s d Hs).
  - unfold emit. cbn. rewrite Hs. cbn. by rewrite app_nil_r.
Qed.

Lemma events_to_socket sock t d e :
  e ∈ events_to sock t d → sock = Some (event_socket e) ∧ event_socket e ≠ "".
Proof.
  unfold events_to. destruct sock as [k|]; [|by intros ?%elem_of_nil].
  unfold truthy_str. destruct (String.eqb_spec k "") as [->|Hne]; cbn.
  - by intros ?%elem_of_nil.
  - intros ->%list_elem_of_singleton. by cbn.
Qed.

(** X13.  [emit] sends an event only to the socket the session of the
    user is bound to, and nothing when the user is unknown or has no
    socket.  [register_socket] for an unknown user does nothing; for a
    known user it binds the session to the socket, acknowledges on that
    socket, and later events of the user go to it.  When a socket
    disconnects, every session bound to it loses its socket and the
    sessions bound to other sockets keep theirs; no event is sent to the
    disconnected socket afterwards, for any user. *)
Theorem socket_binding_contract sock w :
  (∀ uid d e, e ∈ outbox (emit uid d w) →
     e ∈ outbox w
     ∨ (e = mkEvent (event_socket e) d (Some (now w))
        ∧ ∃ s, sessions w !! uid = Some s ∧ socketId s = Some (event_socket e)))
  ∧ (∀ uid, sessions w !! uid = None → register_socket sock uid w = w)
  ∧ (∀ uid s, sessions w !! uid = Some s →
       sessions (register_socket sock uid w) = <[uid := set_socketId (Some sock) s]> (sessions w)
       ∧ outbox (register_socket sock uid w)
         = outbox w ++ [mkEvent sock (socket_registered uid) None]
       ∧ (sock ≠ "" → ∀ d,
            outbox (emit uid d (register_socket sock uid w))
            = outbox (register_socket sock uid w) ++ [mkEvent sock d (Some (now w))]))
  ∧ (∀ uid s, sessions w !! uid = Some s →
       sessions (disconnect sock w) !! uid
       = Some (if bool_decide (socketId s = Some sock) then set_socketId None s else s))
  ∧ outbox (disconnect sock w) = outbox w
  ∧ (∀ uid d e, e ∈ outbox (emit uid d (disconnect sock w)) →
       e ∈ outbox w ∨ event_socket e ≠ sock).
Proof.
  split; [|split; [|split; [|split; [|split]]]].
  - intros uid d e. rewrite emit_outbox, elem_of_app. intros [He|He]; [by left|right].
    destruct (sessions w !! uid) as [s|] eqn:Hs; [|by apply elem_of_nil in He].
    pose proof (events_to_socket _ _ _ _ He) as [Hk Hne].
    split; [|by eauto].
    unfold events_to in He. rewrite Hk in He. unfold truthy_str in He.
    apply String.eqb_neq in Hne. rewrite Hne in He. cbn in He.
    by apply list_elem_of_singleton in He.
  - intros uid Hs. unfold register_socket. by rewrite Hs.
  - intros uid s Hs. destruct w as [m tm inc q t nu nt ob un]. cbn in Hs.
    rewrite (register_socket_at uid m tm inc q t nu nt ob un s Hs).
    cbn [sessions outbox now]. split; [done|]. split; [done|].
    intros Hne d. rewrite emit_outbox. cbn [sessions outbox now].
    rewrite lookup_insert_eq. f_equal. destruct s; cbn. unfold events_to, truthy_str.
    apply String.eqb_neq in Hne. by rewrite Hne.
  - intros uid s Hs. unfold disconnect. cbn. by rewrite lookup_fmap, Hs.
  - by destruct w.
  - intros uid d e. rewrite emit_outbox, elem_of_app.
    intros [He|He]; [left; by destruct w|right].
    unfold disconnect in He. cbn [sessions set_sessions now] in He.
    rewrite lookup_fmap in He.
    destruct (sessions w !! uid) as [s|] eqn:Hs; cbn in He; [|by apply elem_of_nil in He].
    apply events_to_socket in He as [Hk _]. intros <-.
    case_bool_decide as Hb; [by destruct s|]. congruence.
Qed.

(** * The prototype backend: counting escalations *)

Lemma post_location_own k la lo m pr po u :
  Prototype.post_location k la lo (Prototype.mkUsers (<[k := u]> m) pr po)
  = (Prototype.mkUsers
       (<[k := Prototype.mkUser (Prototype.interval u) (Prototype.pmissedCalls u + 1)]> m)
       pr po,
     Prototype.Sent "Escalation started").
Proof.
  unfold Prototype.post_location, Prototype.ivrCall, Prototype.assign_missedCalls,
    Prototype.lookup_key.
  cbn [Prototype.own Prototype.proto Prototype.polluted]. rewrite lookup_insert_eq.
  by rewrite insert_insert_eq.
Qed.

Lemma locations_cons k p ps us :
  locations k (p :: ps) us = locations k ps (Prototype.post_location k p.1 p.2 us).1.
Proof. reflexivity. Qed.

Lemma locations_counts k i ps : ∀ m pr po n,
  locations k ps (Prototype.mkUsers (<[k := Prototype.mkUser i n]> m) pr po)
  = Prototype.mkUsers (<[k := Prototype.mkUser i (n + Z.of_nat (length ps))]> m) pr po.
Proof.
  induction ps as [|p ps IH]; intros m pr po n.
  - cbn. by rewrite Z.add_0_r.
  - rewrite locations_cons, post_location_own.
    cbn [fst Prototype.interval Prototype.pmissedCalls].
    rewrite IH. do 3 f_equal. cbn [length]. lia.
Qed.

(** X15.  In the prototype backend, after POST /start for a user id
    (other than "__proto__"), every POST /location adds one to the
    [missedCalls] of that user whatever coordinates it carries, so after
    [n] of them the counter is [n]; POST /ok then answers "User safe" and
    puts the entry back to what /start stored.  The entries of the other
    users are not touched. *)
Theorem prototype_counts_escalations k i us ps :
  k ≠ "__proto__" →
  Prototype.lookup_key k (Prototype.post_start k i us).1
  = Prototype.ROwn (Prototype.mkUser i 0)
  ∧ Prototype.lookup_key k (locations k ps (Prototype.post_start k i us).1)
    = Prototype.ROwn (Prototype.mkUser i (Z.of_nat (length ps)))
  ∧ Prototype.post_ok k (locations k ps (Prototype.post_start k i us).1)
    = ((Prototype.post_start k i us).1, Prototype.Sent "User safe")
  ∧ (∀ k', k' ≠ k →
       Prototype.own (locations k ps (Prototype.post_start k i us).1) !! k'
       = Prototype.own us !! k').
Proof.
  intros Hk. unfold Prototype.post_start.
  destruct (String.eqb_spec k "__proto__") as [->|_]; [done|]. cbn [fst].
  rewrite locations_counts. cbn [Z.add].
  unfold Prototype.post_ok, Prototype.assign_missedCalls, Prototype.lookup_key.
  cbn [Prototype.own Prototype.proto Prototype.polluted]. rewrite !lookup_insert_eq.
  cbn [Prototype.interval]. rewrite insert_insert_eq.
  repeat split. intros k' Hne. by rewrite lookup_insert_ne.
Qed.

(** X16.  The key "__proto__" reaches [Object.prototype].  On a server
    whose [users] object still has its original prototype, POST /ok and
    POST /location with [userId: "__proto__"] do not throw: they answer as
    for a started user and create [Object.prototype.missedCalls].  From
    then on the id "missedCalls", which no /start registered, no longer
    makes POST /ok throw, while it did before. *)
Theorem proto_key_reaches_object_prototype us :
  Prototype.own us !! "__proto__" = None → Prototype.proto us = None →
  Prototype.post_ok "__proto__" us
  = (Prototype.mkUsers (Prototype.own us) None true, Prototype.Sent "User safe")
  ∧ (∀ la lo, Prototype.post_location "__proto__" la lo us
              = (Prototype.mkUsers (Prototype.own us) None true,
                 Prototype.Sent "Escalation started"))
  ∧ (Prototype.own us !! "missedCalls" = None →
     (Prototype.polluted us = false →
      Prototype.post_ok "missedCalls" us = (us, Prototype.TypeError))
     ∧ (Prototype.post_ok "missedCalls" (Prototype.post_ok "__proto__" us).1).2
       = Prototype.Sent "User safe").
Proof.
  intros Ho Hp.
  unfold Prototype.post_ok, Prototype.post_location, Prototype.ivrCall,
    Prototype.assign_missedCalls, Prototype.lookup_key.
  rewrite Ho, Hp. cbn. split; [done|]. split; [done|].
  intros Hm. rewrite Hm. split; [by intros ->|]. done.
Qed.

(** * The browser client *)

Section ClientPage.
Variable delay_ms : option string → Z.

Local Abbreviation startTimer := (Client.startTimer delay_ms).
Local Abbreviation exec := (Client.exec delay_ms).
Local Abbreviation run := (Client.run delay_ms).

Lemma client_filter_ok h (q : list Client.Timer) :
  NoDup (Client.timer_id <$> q) →
  NoDup (Client.timer_id <$> filter (λ t, Client.timer_id t ≠ h) q).
Proof.
  induction q as [|x q IH]; [done|]. intros Hnd.
  rewrite fmap_cons in Hnd. apply list.NoDup_cons in Hnd as [Hx Hq].
  destruct (decide (Client.timer_id x ≠ h)) as [Hne|He].
  - rewrite filter_cons_True by done. rewrite fmap_cons. apply list.NoDup_cons. split; [|auto].
    intros Hin. apply Hx. apply list_elem_of_fmap in Hin as (y & Hy & Hin).
    apply list_elem_of_filter in Hin as [_ Hin]. apply list_elem_of_fmap. eauto.
  - rewrite filter_cons_False by done. auto.
Qed.

Lemma client_snoc_ok n (q : list Client.Timer) d cb :
  NoDup (Client.timer_id <$> q) → Forall (λ x, (Client.timer_id x < n)%nat) q →
  NoDup (Client.timer_id <$> (q ++ [Client.mkTimer n d cb]))
  ∧ Forall (λ x, (Client.timer_id x < S n)%nat) (q ++ [Client.mkTimer n d cb]).
Proof.
  intros Hnd Hlt. split.
  - rewrite fmap_app. apply list.NoDup_app. split; [done|]. split; [|apply list.NoDup_singleton].
    intros h Hin Hh. cbn in Hh. apply list_elem_of_singleton in Hh. subst h.
    apply list_elem_of_fmap in Hin as (y & Hy & Hin).
    rewrite list.Forall_forall in Hlt. specialize (Hlt y Hin). lia.
  - apply list.Forall_app. split.
    + eapply list.Forall_impl; [exact Hlt|]. cbn. intros. lia.
    + apply Forall_singleton. cbn. lia.
Qed.

Lemma arm_alert_ok im hid hr (q : list Client.Timer) t nt lc sn al d :
  NoDup (Client.timer_id <$> q) → Forall (λ x, (Client.timer_id x < nt)%nat) q →
  (∀ x, x ∈ q → Client.callback x ≠ Client.CbAlert) →
  page_ok (Client.mkPage (Some nt) im hid hr (q ++ [Client.mkTimer nt d Client.CbAlert])
                         t (S nt) lc sn al).
Proof.
  intros Hnd Hlt Hno.
  destruct (client_snoc_ok nt q d Client.CbAlert Hnd Hlt) as [H1 H2].
  split; [done|]. split; [done|]. split; [intros h [= <-]; cbn; lia|]. split; cbn.
  - intros x Hx Hcb. apply elem_of_app in Hx as [Hx|Hx].
    + by destruct (Hno x Hx).
    + apply list_elem_of_singleton in Hx. by subst x.
  - intros x Hx Hcb. apply elem_of_app in Hx as [Hx|Hx].
    + rewrite list.Forall_forall in Hlt. specialize (Hlt x Hx). intros [= E]. lia.
    + apply list_elem_of_singleton in Hx. by subst x.
Qed.

Lemma startTimer_ok p : page_ok p → page_ok (startTimer p).
Proof.
  intros (Hnd & Hlt & Hc & Ha & He).
  destruct p as [[h|] im hid hr q t nt lc sn al]; cbn in *;
    unfold Client.startTimer, Client.clearTimeout, Client.setTimeout; cbn;
    apply arm_alert_ok.
  - by apply client_filter_ok.
  - apply list.Forall_forall. intros x Hx. rewrite list.Forall_forall in Hlt.
    apply Hlt. apply list_elem_of_filter in Hx. tauto.
  - intros x Hx Hcb. apply list_elem_of_filter in Hx as [Hne Hin].
    specialize (Ha x Hin Hcb). congruence.
  - done.
  - done.
  - intros x Hx Hcb. by specialize (Ha x Hx Hcb).
Qed.

Lemma page_ok_frame p p' :
  page_ok p →
  Client.checkTimer p' = Client.checkTimer p → Client.queue p' = Client.queue p →
  Client.next_timer p' = Client.next_timer p → page_ok p'.
Proof. unfold page_ok. by intros H -> -> ->. Qed.

Lemma alertDue_ok p :
  page_ok p →
  (∀ x, x ∈ Client.queue p → Client.callback x ≠ Client.CbAlert) →
  page_ok (Client.alertDue p).
Proof.
  intros (Hnd & Hlt & Hc & Ha & He) Hno.
  destruct p as [ct im hid hr q t nt lc sn al]. cbn in *.
  unfold Client.alertDue, Client.setTimeout. cbn.
  destruct (client_snoc_ok nt q (t + 30000) Client.CbEscalation Hnd Hlt) as [H1 H2].
  split; [done|]. split; [done|].
  split; [intros h Hh; specialize (Hc h Hh); cbn; lia|]. split; cbn.
  - intros x Hx Hcb. apply elem_of_app in Hx as [Hx|Hx]; [by apply Ha|].
    apply list_elem_of_singleton in Hx. by subst x.
  - intros x Hx Hcb. apply elem_of_app in Hx as [Hx|Hx]; [by apply He|].
    apply list_elem_of_singleton in Hx. subst x. cbn. intros Hh.
    specialize (Hc _ Hh). lia.
Qed.

Lemma find_timer_elem h (q : list Client.Timer) x :
  List.find (λ t, bool_decide (Client.timer_id t = h)) q = Some x →
  x ∈ q ∧ Client.timer_id x = h.
Proof.
  intros H. apply find_some in H as [Hin Hb]. apply bool_decide_eq_true in Hb.
  split; [by apply list_elem_of_In | done].
Qed.

Lemma same_id_same_timer (q : list Client.Timer) x y :
  NoDup (Client.timer_id <$> q) → x ∈ q → y ∈ q →
  Client.timer_id x = Client.timer_id y → x = y.
Proof.
  induction q as [|z q IH]; [by intros _ ?%elem_of_nil|].
  intros Hnd Hx Hy E. rewrite fmap_cons in Hnd. apply list.NoDup_cons in Hnd as [Hz Hq].
  apply elem_of_cons in Hx as [->|Hx]; apply elem_of_cons in Hy as [->|Hy]; auto.
  - exfalso. apply Hz. rewrite E. apply list_elem_of_fmap. eauto.
  - exfalso. apply Hz. rewrite <- E. apply list_elem_of_fmap. eauto.
Qed.

Lemma fire_ok x p : page_ok p → x ∈ Client.queue p → page_ok (Client.fire x p).
Proof.
  intros Hok Hx. pose proof Hok as (Hnd & Hlt & Hc & Ha & He).
  unfold Client.fire.
  set (p1 := Client.set_queue _ _).
  assert (Hsub : ∀ y, y ∈ Client.queue p1 → y ∈ Client.queue p ∧ y ≠ x).
  { intros y Hy. subst p1. destruct p. cbn in *.
    apply list_elem_of_filter in Hy as [Hne Hin]. split; [done|]. by intros ->. }
  assert (Hok1 : page_ok p1).
  { subst p1. destruct p as [ct im hid hr q t nt lc sn al]. cbn in *.
    split; [by apply client_filter_ok|]. split.
    { apply list.Forall_forall. intros y Hy. rewrite list.Forall_forall in Hlt.
      apply Hlt. apply list_elem_of_filter in Hy. tauto. }
    split; [done|]. split.
    - intros y Hy. apply Ha. apply list_elem_of_filter in Hy. tauto.
    - intros y Hy. apply He. apply list_elem_of_filter in Hy. tauto. }
  destruct (Client.callback x) eqn:Hcb; cbn [Client.run_callback].
  - apply alertDue_ok; [done|]. intros y Hy Hcy.
    destruct (Hsub y Hy) as [Hin Hne]. apply Hne.
    apply (same_id_same_timer (Client.queue p)); try done.
    pose proof (Ha x Hx Hcb) as Hax. pose proof (Ha y Hin Hcy) as Hay.
    congruence.
  - eapply page_ok_frame; [exact Hok1 | reflexivity..].
Qed.

Lemma exec_ok op p : page_ok p → page_ok (exec op p).
Proof.
  intros Hok. destruct op; cbn [Client.exec].
  - unfold Client.startMonitoring.
    eapply page_ok_frame; [apply startTimer_ok | reflexivity..].
    eapply page_ok_frame; [exact Hok | reflexivity..].
  - unfold Client.confirmOK.
    eapply page_ok_frame; [apply startTimer_ok | reflexivity..].
    eapply page_ok_frame; [exact Hok | reflexivity..].
  - unfold Client.resetTimer.
    eapply page_ok_frame; [apply startTimer_ok | reflexivity..].
    eapply page_ok_frame; [exact Hok | reflexivity..].
  - eapply page_ok_frame; [exact Hok | reflexivity..].
  - destruct (List.find _ _) as [x|] eqn:Hf; [|done].
    apply find_timer_elem in Hf as [Hin _]. by apply fire_ok.
  - unfold Client.position. destruct (Client.locating p); [done|].
    eapply page_ok_frame; [exact Hok | reflexivity..].
Qed.

Lemma run_ok ops : ∀ p, page_ok p → page_ok (run ops p).
Proof.
  induction ops as [|op ops IH]; intros p Hok; [done|].
  unfold Client.run. cbn [foldl]. apply IH. by apply exec_ok.
Qed.

Lemma loaded_ok hidden : page_ok (Client.loaded hidden).
Proof.
  split; [constructor|]. split; [constructor|]. split; [done|].
  split; intros x Hx; by apply elem_of_nil in Hx.
Qed.

Lemma page_reachable_ok p : page_reachable delay_ms p → page_ok p.
Proof. intros (hidden & ops & ->). apply run_ok, loaded_ok. Qed.

End ClientPage.

Section ClientProperties.
Variable delay_ms : option string → Z.

Local Abbreviation startTimer := (Client.startTimer delay_ms).
Local Abbreviation exec := (Client.exec delay_ms).
Local Abbreviation run := (Client.run delay_ms).

Lemma filter_none {A} (P : A → Prop) `{∀ x, Decision (P x)} (l : list A) :
  Forall (λ x, ¬ P x) l → filter P l = [].
Proof.
  induction 1 as [|x l Hx Hl IH]; [done|]. by rewrite filter_cons_False.
Qed.

Lemma startTimer_queue p :
  Client.queue (startTimer p)
  = Client.queue (Client.clearTimeout (Client.checkTimer p) p)
    ++ [Client.mkTimer (Client.next_timer p)
          (Client.now p + delay_ms (Client.intervalMinutes p)) Client.CbAlert].
Proof. destruct p as [[h|] ? ? ? ? ? ? ? ? ?]; reflexivity. Qed.

Lemma clearTimeout_no_alert p x :
  page_ok p → x ∈ Client.queue (Client.clearTimeout (Client.checkTimer p) p) →
  x ∈ Client.queue p ∧ Client.callback x ≠ Client.CbAlert.
Proof.
  intros (_ & _ & _ & Ha & _) Hx. destruct p as [[h|] ? ? ? q ? ? ? ? ?]; cbn in *.
  - apply list_elem_of_filter in Hx as [Hne Hin]. split; [done|].
    intros Hcb. specialize (Ha x Hin Hcb). congruence.
  - split; [done|]. intros Hcb. by specialize (Ha x Hx Hcb).
Qed.

Lemma clearTimeout_keeps_escalation p x :
  page_ok p → x ∈ Client.queue p → Client.callback x = Client.CbEscalation →
  x ∈ Client.queue (Client.clearTimeout (Client.checkTimer p) p).
Proof.
  intros (_ & _ & _ & _ & He) Hx Hcb. destruct p as [[h|] ? ? ? q ? ? ? ? ?]; cbn in *.
  - apply list_elem_of_filter. split; [|done]. intros E. apply (He x Hx Hcb). by rewrite E.
  - done.
Qed.

(** X17.  The page never has two alert timers pending.  In every state
    the page can reach from its load, by any clicks, timers and positions,
    at most one timer of [startTimer] is live, and it is the one
    [checkTimer] names; right after [startTimer] (as [startMonitoring],
    [confirmOK] and [resetTimer] call it) exactly one is live, due after
    the delay derived from [intervalMinutes]. *)
Theorem page_has_one_alert_timer p :
  page_reachable delay_ms p →
  (∀ x y, x ∈ Client.queue p → y ∈ Client.queue p →
          Client.callback x = Client.CbAlert → Client.callback y = Client.CbAlert →
          x = y ∧ Client.checkTimer p = Some (Client.timer_id x))
  ∧ filter (λ x, Client.callback x = Client.CbAlert) (Client.queue (startTimer p))
    = [Client.mkTimer (Client.next_timer p)
         (Client.now p + delay_ms (Client.intervalMinutes p)) Client.CbAlert].
Proof.
  intros Hr. apply page_reachable_ok in Hr. pose proof Hr as (Hnd & _ & _ & Ha & _).
  split.
  - intros x y Hx Hy Hcx Hcy. split; [|by apply Ha].
    apply (same_id_same_timer (Client.queue p)); try done.
    pose proof (Ha x Hx Hcx). pose proof (Ha y Hy Hcy). congruence.
  - rewrite startTimer_queue, list.filter_app.
    rewrite (filter_cons_True _ _ []) by done. rewrite filter_nil.
    replace (filter _ (Client.queue (Client.clearTimeout _ p))) with (@nil Client.Timer);
      [done|].
    symmetry. apply filter_none. apply list.Forall_forall. intros x Hx.
    by destruct (clearTimeout_no_alert p x Hr Hx).
Qed.

Lemma exec_keeps_escalation op p x :
  page_ok p → x ∈ Client.queue p → Client.callback x = Client.CbEscalation →
  op ≠ Client.Fire (Client.timer_id x) → x ∈ Client.queue (exec op p).
Proof.
  intros Hok Hx Hcb Hop.
  assert (Hst : ∀ p', page_ok p' → x ∈ Client.queue p' → x ∈ Client.queue (startTimer p')).
  { intros p' Hok' Hx'. rewrite startTimer_queue. apply elem_of_app. left.
    by apply clearTimeout_keeps_escalation. }
  destruct op; cbn [Client.exec].
  - unfold Client.startMonitoring. cbn [Client.alert Client.queue].
    apply Hst; [|by destruct p]. eapply page_ok_frame; [exact Hok | reflexivity..].
  - unfold Client.confirmOK. cbn [Client.alert Client.queue].
    apply Hst; [|by destruct p]. eapply page_ok_frame; [exact Hok | reflexivity..].
  - unfold Client.resetTimer. cbn [Client.alert Client.queue].
    apply Hst; [|by destruct p]. eapply page_ok_frame; [exact Hok | reflexivity..].
  - by destruct p.
  - destruct (List.find _ _) as [t|] eqn:Hf; [|done].
    apply find_timer_elem in Hf as [Hin Hid].
    assert (Hne : Client.timer_id x ≠ Client.timer_id t) by congruence.
    unfold Client.fire. destruct (Client.callback t); destruct p; cbn in *.
    + apply elem_of_app. left. apply list_elem_of_filter. by split.
    + apply list_elem_of_filter. by split.
  - unfold Client.position. destruct (Client.locating p) eqn:E; [done|]. by destruct p.
Qed.

Lemma run_keeps_escalation ops : ∀ p x,
  page_ok p → x ∈ Client.queue p → Client.callback x = Client.CbEscalation →
  Forall (λ op, op ≠ Client.Fire (Client.timer_id x)) ops →
  x ∈ Client.queue (run ops p).
Proof.
  induction ops as [|op ops IH]; intros p x Hok Hx Hcb Hops; [done|].
  apply list.Forall_cons in Hops as [Hop Hops].
  unfold Client.run. cbn [foldl]. apply IH; try done.
  - by apply exec_ok.
  - by apply exec_keeps_escalation.
Qed.

(** X18.  Nothing on the page cancels a pending escalation.  Once the
    alert has been shown and the 30 s escalation timer is armed, it stays
    live through every click ("I am OK", reset, start monitoring,
    emergency call), every other timer and every position; when it fires
    and the browser delivers a position, the page posts that position for
    "user001" to /location. *)
Theorem escalation_cannot_be_cancelled p x ops :
  page_reachable delay_ms p →
  x ∈ Client.queue p → Client.callback x = Client.CbEscalation →
  Forall (λ op, op ≠ Client.Fire (Client.timer_id x)) ops →
  x ∈ Client.queue (run ops p)
  ∧ ∀ la lo,
      Client.sent (Client.position la lo (Client.fire x (run ops p)))
      = Client.sent (run ops p) ++ [Client.PostLocation "user001" la lo].
Proof.
  intros Hr Hx Hcb Hops. apply page_reachable_ok in Hr.
  split; [by apply run_keeps_escalation|].
  intros la lo. unfold Client.fire. rewrite Hcb. cbn [Client.run_callback].
  by destruct (run ops p).
Qed.

Lemma startTimer_sent p : Client.sent (startTimer p) = Client.sent p.
Proof. destruct p as [[h|] ? ? ? ? ? ? ? ? ?]; reflexivity. Qed.

Lemma exec_sent op p : Client.sent (exec op p) = Client.sent p ++ requests_of op p.
Proof.
  destruct op; cbn [Client.exec requests_of].
  - unfold Client.startMonitoring. cbn [Client.alert Client.sent].
    rewrite startTimer_sent. by destruct p.
  - unfold Client.confirmOK. cbn [Client.alert Client.sent].
    rewrite startTimer_sent. by destruct p.
  - unfold Client.resetTimer. cbn [Client.alert Client.sent].
    rewrite startTimer_sent, app_nil_r. by destruct p.
  - rewrite app_nil_r. by destruct p.
  - rewrite app_nil_r. destruct (List.find _ _) as [t|]; [|done].
    unfold Client.fire. destruct (Client.callback t); by destruct p.
  - unfold Client.position. destruct (Client.locating p); [by rewrite app_nil_r|].
    by destruct p.
Qed.

Lemma answers_app rs1 : ∀ rs2 us,
  Client.answers (rs1 ++ rs2) us
  = Client.answers rs1 us
    ++ Client.answers rs2 (foldl (λ us r, (Client.serve r us).1) us rs1).
Proof.
  induction rs1 as [|r rs1 IH]; intros rs2 us; [done|].
  cbn [app Client.answers foldl]. by rewrite IH.
Qed.

Lemma serve_started r us :
  started us → request_key r = "user001" →
  is_sent (Client.serve r us).2 = true ∧ started (Client.serve r us).1.
Proof.
  intros [u Hu] Hk. unfold started.
  destruct r as [k i|k|k la lo]; cbn in Hk; subst k; cbn [Client.serve].
  - unfold Prototype.post_start. cbn. rewrite lookup_insert_eq. eauto.
  - unfold Prototype.post_ok, Prototype.assign_missedCalls, Prototype.lookup_key.
    rewrite Hu. cbn. rewrite lookup_insert_eq. eauto.
  - unfold Prototype.post_location, Prototype.ivrCall, Prototype.assign_missedCalls,
      Prototype.lookup_key.
    rewrite Hu. cbn. rewrite lookup_insert_eq. eauto.
Qed.

Lemma requests_of_key op p r : r ∈ requests_of op p → request_key r = "user001".
Proof.
  destruct op; cbn; try (by intros ?%elem_of_nil);
    try (by intros ->%list_elem_of_singleton).
  destruct (Client.locating p); [by intros ?%elem_of_nil|].
  by intros ->%list_elem_of_singleton.
Qed.

Lemma answers_started rs : ∀ us,
  started us → Forall (λ r, request_key r = "user001") rs →
  forallb is_sent (Client.answers rs us) = true
  ∧ started (foldl (λ us r, (Client.serve r us).1) us rs).
Proof.
  induction rs as [|r rs IH]; intros us Hst Hk; [done|].
  apply list.Forall_cons in Hk as [Hr Hk].
  destruct (serve_started r us Hst Hr) as [H1 H2].
  cbn [Client.answers forallb foldl]. rewrite H1. cbn. by apply IH.
Qed.

Lemma run_requests ops : ∀ p us,
  started (foldl (λ us r, (Client.serve r us).1) us (Client.sent p)) →
  forallb is_sent (Client.answers (Client.sent p) us) = true →
  forallb is_sent (Client.answers (Client.sent (run ops p)) us) = true
  ∧ started (foldl (λ us r, (Client.serve r us).1) us (Client.sent (run ops p))).
Proof.
  induction ops as [|op ops IH]; intros p us Hst Hans; [done|].
  unfold Client.run. cbn [foldl]. apply IH.
  - rewrite exec_sent, foldl_app. apply answers_started; [done|].
    apply list.Forall_forall. intros r. apply requests_of_key.
  - rewrite exec_sent, answers_app, forallb_app, Hans. cbn.
    apply answers_started; [done|].
    apply list.Forall_forall. intros r. apply requests_of_key.
Qed.

Lemma serve_not_started r us :
  Prototype.lookup_key "user001" us = Prototype.RUndefined →
  request_key r = "user001" → (∀ k i, r ≠ Client.PostStart k i) →
  Client.serve r us = (us, Prototype.TypeError).
Proof.
  intros Hu Hk Hns. destruct r as [k i|k|k la lo]; cbn in Hk; subst; cbn [Client.serve].
  - by destruct (Hns "user001" i).
  - unfold Prototype.post_ok, Prototype.assign_missedCalls. by rewrite Hu.
  - unfold Prototype.post_location, Prototype.ivrCall, Prototype.assign_missedCalls.
    by rewrite Hu.
Qed.

Lemma run_requests_not_started ops : ∀ p us,
  Prototype.lookup_key "user001" us = Prototype.RUndefined →
  forallb (λ op, negb (is_start op)) ops = true →
  foldl (λ us r, (Client.serve r us).1) us (Client.sent p) = us →
  forallb (λ a, negb (is_sent a)) (Client.answers (Client.sent p) us) = true →
  forallb (λ a, negb (is_sent a)) (Client.answers (Client.sent (run ops p)) us) = true.
Proof.
  induction ops as [|op ops IH]; intros p us Hu Hops Hfold Hans; [done|].
  cbn in Hops. apply andb_prop in Hops as [Hop Hops].
  unfold Client.run. cbn [foldl].
  assert (Hreq : ∀ r, r ∈ requests_of op p →
            Client.serve r us = (us, Prototype.TypeError)).
  { intros r Hr. apply serve_not_started; [done | by eapply requests_of_key|].
    intros k i ->. destruct op; cbn in Hr, Hop; try done;
      try (by apply elem_of_nil in Hr); try (by apply list_elem_of_singleton in Hr).
    destruct (Client.locating p); [by apply elem_of_nil in Hr|].
    by apply list_elem_of_singleton in Hr. }
  assert (Hone : requests_of op p = [] ∨ ∃ r, requests_of op p = [r]).
  { destruct op; cbn; eauto. destruct (Client.locating p); eauto. }
  apply IH; try done.
  - rewrite exec_sent, foldl_app, Hfold.
    destruct Hone as [->|(r & Hr)]; [done|]. rewrite Hr. cbn.
    rewrite Hreq; [done|]. rewrite Hr. apply list_elem_of_here.
  - rewrite exec_sent, answers_app, forallb_app, Hans, Hfold. cbn.
    destruct Hone as [->|(r & Hr)]; [done|]. rewrite Hr. cbn.
    rewrite Hreq; [done|]. rewrite Hr. apply list_elem_of_here.
Qed.

(** X19.  The page and the prototype backend together, with the requests
    of the page arriving in the order they were sent at a backend that
    starts empty.  When the first thing the user does is start the
    monitoring, every request the page ever sends is answered: none makes
    the backend throw.  When the user never starts the monitoring, every
    request the page sends ("I am OK", an escalation) makes the backend
    throw. *)
Theorem page_requests_and_backend hidden v ops :
  forallb is_sent
    (Client.answers
       (Client.sent (run (Client.StartMonitoring v :: ops) (Client.loaded hidden)))
       Prototype.empty) = true
  ∧ (forallb (λ op, negb (is_start op)) ops = true →
     forallb (λ a, negb (is_sent a))
       (Client.answers (Client.sent (run ops (Client.loaded hidden))) Prototype.empty)
     = true).
Proof.
  split.
  - unfold Client.run. cbn [foldl]. apply run_requests.
    + rewrite exec_sent. cbn. unfold started. cbn. rewrite lookup_insert_eq. eauto.
    + rewrite exec_sent. reflexivity.
  - intros Hops. by apply run_requests_not_started.
Qed.

End ClientProperties.

(** * From the check-in ping to the confirmation *)

Lemma triggerCheckin_ping uid m tm inc q t nu nt ob un s k :
  m !! uid = Some s → enabled s = true → socketId s = Some k → k ≠ "" →
  ∃ l' e,
    triggerCheckin uid (mkWorld m tm inc q t nu nt ob un)
    = mkWorld (<[uid := set_log l'
                          (set_stats (mkStats (totalCheckins (stats s) + 1)
                                              (missedCheckins (stats s))
                                              (rescueDispatches (stats s))
                                              (pending (stats s) + 1))
                             (set_currentCheckin
                                (Some (mkCheckin nu t false None 0 0)) s))]> m)
              (<[uid := <[SGrace := nt]> (slots_of uid tm)]> tm) inc
              (q ++ [mkTimer nt (t + timer_ms (graceSeconds s * 1000)) None (CbGrace uid)])
              t (S (S nu)) (S nt)
              (ob ++ [mkEvent k (log_entry e) (Some t);
                      mkEvent k (checkin_ping nu (graceSeconds s)
                                   "Safety check-in! Tap I'M SAFE within the countdown.")
                              (Some t)])
              un
    ∧ entry_type e = "CHECKIN".
Proof.
  intros Hs He Hk Hne.
  destruct s as [? ? ? ? ? ? ? ? ? ? ? [] ?]; cbn in He, Hk; subst.
  wsimpl. unfold events_to, truthy_str. apply String.eqb_neq in Hne. rewrite Hne.
  cbn [negb]. rewrite <- app_assoc. eexists _, _. split; reflexivity.
Qed.

(** X20.  The id a check-in ping carries is the one /api/checkin/respond
    accepts.  For an enabled session with a subscriber, [triggerCheckin]
    opens a cycle with a fresh id (not responded, no round, no missed
    call), counts it in [totalCheckins] and [pending], arms the grace
    timer, and sends the subscriber a CHECKIN log entry followed by a
    [checkin_ping] with that id and the grace period; answering with that
    id right away is accepted, marks the cycle responded and cancels the
    grace timer just armed.  The timers live afterwards are timers that
    were live before the ping and the check-in timer the response arms;
    so no grace timer of the user is live unless one was left over from
    before. *)
Theorem checkin_ping_round_trip w uid s k :
  sessions w !! uid = Some s → enabled s = true → socketId s = Some k → k ≠ "" →
  cycle_of uid (triggerCheckin uid w) = Some (mkCheckin (next_uuid w) (now w) false None 0 0)
  ∧ (∃ e, outbox (triggerCheckin uid w)
          = outbox w
            ++ [mkEvent k (log_entry e) (Some (now w));
                mkEvent k (checkin_ping (next_uuid w) (graceSeconds s)
                             "Safety check-in! Tap I'M SAFE within the countdown.")
                        (Some (now w))]
          ∧ entry_type e = "CHECKIN")
  ∧ (∃ s1, sessions (triggerCheckin uid w) !! uid = Some s1
        ∧ totalCheckins (stats s1) = totalCheckins (stats s) + 1
        ∧ pending (stats s1) = pending (stats s) + 1)
  ∧ queue (triggerCheckin uid w)
    = queue w ++ [mkTimer (next_timer w) (now w + timer_ms (graceSeconds s * 1000)) None
                          (CbGrace uid)]
  ∧ (post_checkin_respond uid (Some (next_uuid w)) (triggerCheckin uid w)).2
    = Json 200 (BSuccess (Some "Safety confirmed. Next check-in scheduled.") None)
  ∧ (responded <$> cycle_of uid
                     (post_checkin_respond uid (Some (next_uuid w)) (triggerCheckin uid w)).1)
    = Some true
  ∧ (∀ x, x ∈ queue (post_checkin_respond uid (Some (next_uuid w))
                       (triggerCheckin uid w)).1 →
          timer_id x ≠ next_timer w
          ∧ (x ∈ queue w
             ∨ x = mkTimer (S (next_timer w))
                     (now w + timer_ms (intervalMinutes s * 60 * 1000)) None
                     (CbCheckin uid)))
  ∧ ((∀ y, y ∈ queue w → callback y ≠ CbGrace uid) →
     ∀ x, x ∈ queue (post_checkin_respond uid (Some (next_uuid w))
                       (triggerCheckin uid w)).1 →
          callback x ≠ CbGrace uid).
Proof.
  intros Hs He Hk Hne. destruct w as [m tm inc q t nu nt ob un]. cbn in Hs.
  destruct (triggerCheckin_ping uid m tm inc q t nu nt ob un s k Hs He Hk Hne)
    as (l' & e & -> & Hty).
  cbn [sessions outbox queue next_uuid next_timer now]. unfold cycle_of.
  cbn [sessions]. rewrite lookup_insert_eq.
  split; [by destruct s|]. split; [by eauto|].
  split; [eexists; split; [done|]; by destruct s as [? ? ? ? ? ? ? ? ? ? ? [] ?]|].
  split; [done|].
  match goal with
  | |- context [post_checkin_respond uid _ (mkWorld ?m' ?a ?b ?c ?d ?f ?g ?h ?i)] =>
      destruct (post_checkin_respond_at uid m' a b c d f g h i _ (lookup_insert_eq _ _ _)
                  (mkCheckin nu t false None 0 0)) as (l2 & ob2 & Heq & _);
        [by destruct s | done | by destruct s |]
  end.
  cbn [checkin_id] in Heq. rewrite Heq. cbn [fst snd sessions queue].
  rewrite lookup_insert_eq, slots_of_insert.
  split; [done|]. split; [by destruct s|].
  assert (Hall : ∀ x,
            x ∈ cleared_queue cycleSlots (<[SGrace:=nt]> (slots_of uid tm))
                  (q ++ [mkTimer nt (t + timer_ms (graceSeconds s * 1000)) None
                                 (CbGrace uid)])
                ++ [mkTimer (S nt) (t + timer_ms (intervalMinutes s * 60 * 1000)) None
                            (CbCheckin uid)] →
            timer_id x ≠ nt
            ∧ (x ∈ q ∨ x = mkTimer (S nt) (t + timer_ms (intervalMinutes s * 60 * 1000))
                             None (CbCheckin uid))).
  { intros x Hx. apply elem_of_app in Hx as [Hx|Hx].
    - assert (Hid : timer_id x ≠ nt).
      { intros Hid. eapply (cleared_queue_gone cycleSlots); [| | exact Hx | exact Hid].
        + unfold cycleSlots. rewrite keys_of_given. apply list_elem_of_here.
        + apply lookup_insert_eq. }
      split; [exact Hid|]. left.
      apply cleared_queue_elem, elem_of_app in Hx as [Hx|Hx]; [done|].
      apply list_elem_of_singleton in Hx. subst x. by destruct Hid.
    - apply list_elem_of_singleton in Hx. subst x. split; [cbn; lia | by right]. }
  replace (intervalMinutes (set_log l' _)) with (intervalMinutes s) by (by destruct s).
  split; [exact Hall|].
  intros Hno x Hx. destruct (Hall x Hx) as [_ [Hq| ->]]; [by apply Hno | done].
Qed.

(** X20 for the registered user "u" with a subscriber, once enabled. *)
Lemma checkin_ping_round_trip_witness :
  ∃ s, sessions (run [Enable "u" None None] subscribed) !! "u" = Some s
    ∧ enabled s = true ∧ socketId s = Some "sock1"
    ∧ (post_checkin_respond "u" (Some (next_uuid (run [Enable "u" None None] subscribed)))
         (triggerCheckin "u" (run [Enable "u" None None] subscribed))).2
      = Json 200 (BSuccess (Some "Safety confirmed. Next check-in scheduled.") None).
Proof.
  assert (Hs : ∃ s, sessions (run [Enable "u" None None] subscribed) !! "u" = Some s
                    ∧ enabled s = true ∧ socketId s = Some "sock1").
  { eexists. split; [run_eval|]. split; reflexivity. }
  destruct Hs as (s & Hs & He & Hk). exists s.
  split; [exact Hs|]. split; [exact He|]. split; [exact Hk|].
  assert (Hne : "sock1" ≠ "") by discriminate.
  exact (proj1 (proj2 (proj2 (proj2 (proj2
           (checkin_ping_round_trip (run [Enable "u" None None] subscribed) "u" s "sock1"
              Hs He Hk Hne)))))).
Defined.

(** * An incident that can no longer be resolved *)

(** X21.  Turning the monitor off, or on again, during an incident
    orphans the incident.  POST /api/checkin/disable, /api/checkin/enable
    and /api/dev/demo drop the reference to the active incident without
    touching the incident object, which keeps the status and the fields it
    had; POST /api/incident/resolve with the id of that incident then
    reports success and changes nothing. *)
Theorem reset_orphans_the_incident w uid s r i :
  sessions w !! uid = Some s → activeIncident s = Some r → incidents w !! r = Some i →
  (incidents (post_checkin_disable uid w).1 !! r = Some i
   ∧ post_incident_resolve uid (Some r) (post_checkin_disable uid w).1
     = ((post_checkin_disable uid w).1, Json 200 (BSuccess None None)))
  ∧ (∀ ri rg,
       incidents (post_checkin_enable uid ri rg w).1 !! r = Some i
       ∧ post_incident_resolve uid (Some r) (post_checkin_enable uid ri rg w).1
         = ((post_checkin_enable uid ri rg w).1, Json 200 (BSuccess None None)))
  ∧ (incidents (post_dev_demo uid w).1 !! r = Some i
     ∧ post_incident_resolve uid (Some r) (post_dev_demo uid w).1
       = ((post_dev_demo uid w).1, Json 200 (BSuccess None None))).
Proof.
  intros Hs Hi Hinc. destruct w as [m tm inc q t nu nt ob un]. cbn in Hs, Hinc.
  split; [|split].
  - destruct (post_checkin_disable_at uid m tm inc q t nu nt ob un s Hs)
      as (l' & ob' & -> & _).
    cbn [fst incidents]. split; [done|].
    erewrite post_incident_resolve_other; [done | apply lookup_insert_eq | by destruct s].
  - intros ri rg.
    destruct (post_checkin_enable_at uid m tm inc q t nu nt ob un s Hs ri rg)
      as (l' & ob' & -> & _).
    cbv zeta. cbn [fst incidents]. split; [done|].
    erewrite post_incident_resolve_other; [done | apply lookup_insert_eq | by destruct s].
  - destruct (post_dev_demo_at uid m tm inc q t nu nt ob un s Hs) as (l' & ob' & -> & _).
    cbn [fst incidents]. split; [done|].
    erewrite post_incident_resolve_other; [done | apply lookup_insert_eq | by destruct s].
Qed.

(** X21 at user "u" after a rescue dispatch: the incident has id 14. *)
Lemma reset_orphans_the_incident_witness :
  ∃ s i, sessions dispatched !! "u" = Some s ∧ activeIncident s = Some 14%nat
    ∧ incidents dispatched !! 14%nat = Some i ∧ status i = DISPATCHED
    ∧ incidents (post_checkin_disable "u" dispatched).1 !! 14%nat = Some i
    ∧ post_incident_resolve "u" (Some 14%nat) (post_checkin_disable "u" dispatched).1
      = ((post_checkin_disable "u" dispatched).1, Json 200 (BSuccess None None)).
Proof.
  assert (Hs : ∃ s, sessions dispatched !! "u" = Some s ∧ activeIncident s = Some 14%nat).
  { eexists. split; [run_eval | reflexivity]. }
  assert (Hi : ∃ i, incidents dispatched !! 14%nat = Some i ∧ status i = DISPATCHED).
  { eexists. split; [run_eval | reflexivity]. }
  destruct Hs as (s & Hs & Ha). destruct Hi as (i & Hi & Hst).
  destruct (proj1 (reset_orphans_the_incident dispatched "u" s 14%nat i Hs Ha Hi))
    as [H1 H2].
  exists s, i. split; [exact Hs|]. split; [exact Ha|]. split; [exact Hi|].
  split; [exact Hst|]. split; [exact H1 | exact H2].
Defined.

(** * Intervals the timer facility cannot honour *)

(** X22.  The interval is not validated.  When /api/checkin/enable gets
    an [intervalMinutes] that is truthy and for which the product
    [intervalMinutes * 60 * 1000], computed in binary64 arithmetic as the
    program computes it, is not a number within 1 ms and 2^31 - 1 ms
    (about 24.8 days), the value is stored as given, the monitor is on,
    and the timer facility arms the first check-in 1 ms after the
    request. *)
Theorem enable_with_an_interval_out_of_range w uid s v rg :
  sessions w !! uid = Some s →
  truthy_num v = true →
  out_of_range (v * 60 * 1000) →
  (∃ s1, sessions (post_checkin_enable uid (Some v) rg w).1 !! uid = Some s1
         ∧ intervalMinutes s1 = v ∧ enabled s1 = true)
  ∧ mkTimer (next_timer w) (now w + 1) None (CbCheckin uid)
      ∈ queue (post_checkin_enable uid (Some v) rg w).1.
Proof.
  intros Hs Hv Hr. destruct w as [m tm inc q t nu nt ob un]. cbn in Hs.
  destruct (post_checkin_enable_at uid m tm inc q t nu nt ob un s Hs (Some v) rg)
    as (l' & ob' & -> & _).
  cbv zeta. cbn [fst sessions queue next_timer now]. rewrite lookup_insert_eq.
  assert (Heff : effective (Some v) (intervalMinutes s) 30 = v).
  { unfold effective, or_default. by rewrite Hv. }
  rewrite Heff, timer_ms_out_of_range by done.
  split; [eexists; split; [done|]; by destruct s|].
  apply elem_of_app. right. by apply list_elem_of_singleton.
Qed.

(** X22 for the registered user "u" and an interval of
    35791.394116666666378 minutes: the exact product is just below
    2^31 - 1 ms, the product the program computes is above it. *)
Lemma enable_with_an_interval_out_of_range_witness :
  ∃ s, sessions registered !! "u" = Some s
    ∧ truthy_num 35791.394116666666378 = true
    ∧ num_val (35791.394116666666378 * 60 * 1000) = Some (9007199250546689 # 4194304)%Q
    ∧ mkTimer (next_timer registered) (now registered + 1) None (CbCheckin "u")
        ∈ queue (post_checkin_enable "u" (Some 35791.394116666666378%float) None
                   registered).1.
Proof.
  assert (Hs : ∃ s, sessions registered !! "u" = Some s) by (eexists; run_eval).
  destruct Hs as (s & Hs).
  assert (Hv : truthy_num 35791.394116666666378 = true) by reflexivity.
  assert (Hn : num_val (35791.394116666666378 * 60 * 1000) = Some (9007199250546689 # 4194304)%Q)
    by run_eval.
  assert (Hr : out_of_range (35791.394116666666378 * 60 * 1000)).
  { unfold out_of_range. rewrite Hn. right. reflexivity. }
  exists s. split; [exact Hs|]. split; [exact Hv|]. split; [exact Hn|].
  exact (proj2 (enable_with_an_interval_out_of_range registered "u" s
                  35791.394116666666378%float None Hs Hv Hr)).
Defined.

(** * The counters of a session *)

Section Live.
Variable kind : Callback → option string.

Lemma live_snoc u q x :
  live kind u (q ++ [x])
  = (live kind u q + if decide (kind (callback x) = Some u) then 1 else 0)%nat.
Proof.
  unfold live. rewrite list.filter_app, length_app. f_equal.
  destruct (decide (kind (callback x) = Some u)).
  - by rewrite filter_cons_True.
  - by rewrite filter_cons_False.
Qed.

Lemma live_filter u (P : Timer → Prop) `{∀ x, Decision (P x)} q :
  (live kind u (filter P q) ≤ live kind u q)%nat.
Proof. unfold live. rewrite filter_comm. apply length_filter. Qed.

Lemma live_cleared u ks t q : (live kind u (cleared_queue ks t q) ≤ live kind u q)%nat.
Proof. rewrite cleared_queue_filter. apply live_filter. Qed.

Lemma live_cancel u h q : (live kind u (cancel h q) ≤ live kind u q)%nat.
Proof. apply live_filter. Qed.

Lemma live_rearm u h a q : live kind u (rearm h a q) = live kind u q.
Proof.
  unfold live, rearm. induction q as [|x q IH]; [done|]. rewrite fmap_cons.
  assert (Hcb : callback (if bool_decide (timer_id x = h)
                          then mkTimer (timer_id x) a (period x) (callback x) else x)
                = callback x) by (by case_bool_decide).
  destruct (decide (kind (callback x) = Some u)) as [E|E].
  - rewrite !filter_cons_True by (by rewrite ?Hcb). cbn. by rewrite IH.
  - rewrite !filter_cons_False by (by rewrite ?Hcb). done.
Qed.

(** The timer that fires leaves the list. *)
Lemma live_fired u x q :
  x ∈ q → kind (callback x) = Some u →
  (live kind u (cancel (timer_id x) q) + 1 ≤ live kind u q)%nat.
Proof.
  intros Hx Hcb. induction q as [|y q IH]; [by apply elem_of_nil in Hx|].
  unfold live, cancel in *.
  apply elem_of_cons in Hx as [<-|Hx].
  - rewrite (filter_cons_False _ x) by (intros Hn; by apply Hn).
    rewrite (filter_cons_True _ x q) by done. cbn.
    pose proof (live_filter u (λ t, timer_id t ≠ timer_id x) q) as Hle.
    unfold live in Hle. lia.
  - specialize (IH Hx). destruct (decide (timer_id y = timer_id x)) as [E|E].
    + rewrite (filter_cons_False _ y) by (intros Hn; by apply Hn).
      destruct (decide (kind (callback y) = Some u)).
      * rewrite (filter_cons_True _ y q) by done. cbn. lia.
      * rewrite (filter_cons_False _ y q) by done. lia.
    + rewrite (filter_cons_True _ y) by done.
      destruct (decide (kind (callback y) = Some u)).
      * rewrite !(filter_cons_True _ y) by done. cbn. lia.
      * rewrite !(filter_cons_False _ y) by done. lia.
Qed.

End Live.

Lemma one_shot_filter (P : Timer → Prop) `{∀ x, Decision (P x)} q :
  one_shot q → one_shot (filter P q).
Proof. intros Hq x Hx. apply (Hq x). apply list_elem_of_filter in Hx. tauto. Qed.

Lemma one_shot_cleared ks t q : one_shot q → one_shot (cleared_queue ks t q).
Proof. rewrite cleared_queue_filter. apply one_shot_filter. Qed.

Lemma one_shot_cancel h q : one_shot q → one_shot (cancel h q).
Proof. apply one_shot_filter. Qed.

Lemma one_shot_rearm h a q : one_shot q → one_shot (rearm h a q).
Proof.
  intros Hq x Hx Hcb. unfold rearm in Hx. apply list_elem_of_fmap in Hx as (y & -> & Hy).
  case_bool_decide; cbn in *; by apply (Hq y).
Qed.

Lemma one_shot_timeout q h d cb : one_shot q → one_shot (q ++ [mkTimer h d None cb]).
Proof.
  intros Hq x Hx Hcb. apply elem_of_app in Hx as [Hx|Hx]; [by apply (Hq x)|].
  apply list_elem_of_singleton in Hx. by subst x.
Qed.

Lemma one_shot_interval q h d p u i :
  one_shot q → one_shot (q ++ [mkTimer h d p (CbBroadcast u i)]).
Proof.
  intros Hq x Hx Hcb. apply elem_of_app in Hx as [Hx|Hx]; [by apply (Hq x)|].
  apply list_elem_of_singleton in Hx. subst x. by destruct (Hcb u i).
Qed.

Ltac one_shot H :=
  repeat first
    [ exact H | apply one_shot_timeout | apply one_shot_interval
    | apply one_shot_cleared | apply one_shot_cancel | apply one_shot_rearm ].

(** The timers an engine function or a handler leaves are the ones that
    were live, less the cancelled ones, plus the one it arms. *)
Ltac live_norm :=
  repeat first
    [ rewrite live_snoc
    | rewrite decide_False by (cbn [callback call_of grace_of]; congruence)
    | rewrite decide_True by reflexivity ];
  rewrite ?Nat.add_0_r.

Ltac live_others :=
  let u := fresh "u" in let Hne := fresh "Hne" in
  intros u Hne; split; live_norm;
  first [ reflexivity | apply live_cleared | apply live_cancel ].

Ltac live_bounds :=
  repeat match goal with
         | |- context [live ?k ?u (cleared_queue ?ks ?t ?q)] =>
             lazymatch goal with
             | _ : (live k u (cleared_queue ks t q) ≤ live k u q)%nat |- _ => fail
             | _ => pose proof (live_cleared k u ks t q)
             end
         | |- context [live ?k ?u (cancel ?h ?q)] =>
             lazymatch goal with
             | _ : (live k u (cancel h q) ≤ live k u q)%nat |- _ => fail
             | _ : (live k u (cancel h q) + 1 ≤ live k u q)%nat |- _ => fail
             | _ => pose proof (live_cancel k u h q)
             end
         end.

Ltac counters_stats s :=
  let H1 := fresh in let H2 := fresh in let H3 := fresh in let H4 := fresh in
  intros H1 H2 H3 H4;
  destruct s as [? ? ? ? ? ? ? ? ? ? ? [? ? ? ?] ?]; cbn in *; live_norm; live_bounds;
  lia.

Section Counters.
Variables (uid : string) (m : gmap string Session)
          (tm : gmap string (gmap Slot TimerId)) (inc : gmap Uuid Incident)
          (q : list Timer) (t : Time) (nu : Uuid) (nt : TimerId)
          (ob : list Event) (un : option string).
Hypothesis HJ : counters_ok (mkWorld m tm inc q t nu nt ob un).

(** The session of the running handler is replaced and the list of live
    timers changes. *)
Lemma counters_step s s' q' tm' inc' t' nu' nt' ob' un' :
  m !! uid = Some s →
  one_shot q' →
  (∀ u, u ≠ uid → (live call_of u q' ≤ live call_of u q)%nat
                  ∧ (live grace_of u q' ≤ live grace_of u q)%nat) →
  (0 ≤ rescueDispatches (stats s) → 0 ≤ pending (stats s) →
   rescueDispatches (stats s) + Z.of_nat (live call_of uid q) ≤ missedCheckins (stats s) →
   missedCheckins (stats s) + Z.of_nat (live grace_of uid q) ≤ totalCheckins (stats s) →
   0 ≤ rescueDispatches (stats s') ∧ 0 ≤ pending (stats s')
   ∧ rescueDispatches (stats s') + Z.of_nat (live call_of uid q')
     ≤ missedCheckins (stats s')
   ∧ missedCheckins (stats s') + Z.of_nat (live grace_of uid q')
     ≤ totalCheckins (stats s')) →
  counters_ok (mkWorld (<[uid := s']> m) tm' inc' q' t' nu' nt' ob' un').
Proof.
  intros Hs Hone Hq Hst. split; [exact Hone|]. intros u. cbn [sessions queue].
  pose proof (proj2 HJ u) as Hu. cbn [sessions queue] in Hu.
  destruct (decide (u = uid)) as [->|Hne].
  - rewrite lookup_insert_eq. rewrite Hs in Hu.
    destruct Hu as (H1 & H2 & H3 & H4). by apply Hst.
  - rewrite lookup_insert_ne by done. destruct (Hq u Hne) as [Hq1 Hq2].
    destruct (m !! u); cbv beta iota in Hu |- *; [|lia].
    destruct Hu as (H1 & H2 & H3 & H4). repeat split; try done; lia.
Qed.

(** A new session, with the counters at 0. *)
Lemma counters_new s' :
  m !! uid = None → stats s' = defaultStats →
  counters_ok (mkWorld (<[uid := s']> m) tm inc q t nu nt ob un).
Proof.
  intros Hs Hst. split; [exact (proj1 HJ)|]. intros u. cbn [sessions queue].
  pose proof (proj2 HJ u) as Hu. cbn [sessions queue] in Hu.
  destruct (decide (u = uid)) as [->|Hne].
  - rewrite lookup_insert_eq. rewrite Hs in Hu. rewrite Hst. cbn. lia.
  - by rewrite lookup_insert_ne.
Qed.

(** Only the list of live timers changes, and it loses timers. *)
Lemma counters_frame q' tm' inc' t' nu' nt' ob' un' :
  one_shot q' →
  (∀ u, (live call_of u q' ≤ live call_of u q)%nat
        ∧ (live grace_of u q' ≤ live grace_of u q)%nat) →
  counters_ok (mkWorld m tm' inc' q' t' nu' nt' ob' un').
Proof.
  intros Hone Hq. split; [exact Hone|]. intros u. cbn [sessions queue].
  pose proof (proj2 HJ u) as Hu. cbn [sessions queue] in Hu.
  destruct (Hq u) as [Hq1 Hq2]. destruct (m !! u); cbv beta iota in Hu |- *; [|lia].
  destruct Hu as (H1 & H2 & H3 & H4). repeat split; try done; lia.
Qed.

(** The sessions keep their counters. *)
Lemma counters_fmap (f : Session → Session) :
  (∀ s, stats (f s) = stats s) →
  counters_ok (mkWorld (f <$> m) tm inc q t nu nt ob un).
Proof.
  intros Hf. split; [exact (proj1 HJ)|]. intros u. cbn [sessions queue].
  pose proof (proj2 HJ u) as Hu. cbn [sessions queue] in Hu.
  rewrite lookup_fmap. destruct (m !! u); cbn; [|done]. by rewrite Hf.
Qed.

End Counters.

Lemma find_timer_live h q x : find_timer h q = Some x → x ∈ q.
Proof.
  unfold find_timer. intros H. apply find_some in H as [Hin _].
  by apply list_elem_of_In.
Qed.

(** The check-in and the broadcast closures. *)
Lemma callback_counters self cb w :
  Inv w → counters_ok w → grace_of cb = None → call_of cb = None →
  counters_ok (run_callback self cb w).
Proof.
  destruct w as [m tm inc q t nu nt ob un]. intros (HS & _ & _) HJ Hg Hc. cbn in HS.
  destruct cb as [u|u|u n|u n|u i]; cbn [run_callback]; try discriminate;
    destruct (m !! u) as [s|] eqn:Hs.
  - destruct (enabled s) eqn:He.
    + destruct (triggerCheckin_at u m tm inc q t nu nt ob un s Hs He) as (? & ? & -> & _).
      eapply counters_step;
        [exact HJ | exact Hs | one_shot (proj1 HJ) | live_others | counters_stats s].
    + by rewrite (triggerCheckin_off u m tm inc q t nu nt ob un s Hs He).
  - by rewrite triggerCheckin_none.
  - destruct (activeIncident s) as [r|] eqn:Hi.
    + rewrite (broadcastTick_at u m tm inc q t nu nt ob un s Hs i self r Hi).
      apply (counters_frame m tm inc q t nu nt ob un HJ); [one_shot (proj1 HJ) | done].
    + rewrite (broadcastTick_off u m tm inc q t nu nt ob un s Hs i self Hi).
      apply (counters_frame m tm inc q t nu nt ob un HJ); [one_shot (proj1 HJ)|].
      intros u'. split; apply live_cancel.
  - rewrite broadcastTick_none by done.
    apply (counters_frame m tm inc q t nu nt ob un HJ); [one_shot (proj1 HJ)|].
    intros u'. split; apply live_cancel.
Qed.

(** The closure of a timer that fires and finds its guard false. *)
Ltac fired_stale HJ :=
  match goal with
  | |- counters_ok (mkWorld ?m ?tm ?inc (cancel ?h ?q) _ ?nu ?nt ?ob ?un) =>
      apply (counters_frame m tm inc q _ nu nt ob un HJ); [one_shot (proj1 HJ)|];
      let u' := fresh "u" in intros u'; split; apply live_cancel
  end.

Lemma fire_counters tmr w :
  Inv w → counters_ok w → tmr ∈ queue w → counters_ok (fire tmr w).
Proof.
  intros HI HJ Hin. destruct w as [m tm inc q t nu nt ob un]. cbn in Hin.
  pose proof HI as (HS & _ & _). cbn in HS.
  assert (Hframe : ∀ w1,
            w1 = match period tmr with
                 | Some p => mkWorld m tm inc
                               (rearm (timer_id tmr) (Z.max t (due tmr) + p) q)
                               (Z.max t (due tmr)) nu nt ob un
                 | None => mkWorld m tm inc (cancel (timer_id tmr) q)
                             (Z.max t (due tmr)) nu nt ob un
                 end → Inv w1 ∧ counters_ok w1).
  { intros w1 ->. destruct HI as (_ & HQ & HH). cbn in HQ, HH.
    destruct (period tmr); split.
    - split; [done|]. split; [by apply queue_ok_rearm | done].
    - apply (counters_frame m tm inc q t nu nt ob un HJ); [one_shot (proj1 HJ)|].
      intros u'. by rewrite !live_rearm.
    - split; [done|]. split; [by apply queue_ok_cancel | done].
    - apply (counters_frame m tm inc q t nu nt ob un HJ); [one_shot (proj1 HJ)|].
      intros u'. split; apply live_cancel. }
  assert (Hst : ∀ u s q' t', m !! u = Some s → stale s →
            stale_at u (mkWorld m tm inc q' t' nu nt ob un))
    by (intros u s q' t' Hs Hs'; unfold stale_at; cbn; by rewrite Hs).
  assert (Hno : ∀ u q' t', m !! u = None →
            stale_at u (mkWorld m tm inc q' t' nu nt ob un))
    by (intros u q' t' Hs; unfold stale_at; cbn; by rewrite Hs).
  unfold fire.
  cbv beta iota delta [set_now set_queue clearTimeout sessions timers incidents
                       queue now next_uuid next_timer outbox uncaught].
  destruct (callback tmr) as [u|u|u n|u n|u i] eqn:Hcb.
  - destruct (Hframe _ eq_refl) as [I1 J1]. by apply callback_counters.
  - (* the grace timer of a cycle *)
    cbn [run_callback].
    rewrite (proj1 HJ tmr Hin) by (rewrite Hcb; discriminate).
    pose proof (live_fired grace_of u tmr q Hin) as Hfired.
    rewrite Hcb in Hfired. specialize (Hfired eq_refl).
    destruct (m !! u) as [s|] eqn:Hs;
      [|rewrite graceExpired_stale by auto; fired_stale HJ].
    destruct (stale_dec s) as [Hs'|Hs'];
      [rewrite graceExpired_stale by eauto; fired_stale HJ|].
    apply not_stale in Hs' as (c & Hc & Hr).
    destruct (graceExpired_at u m tm inc (cancel (timer_id tmr) q) (Z.max t (due tmr))
                nu nt ob un s Hs c Hc Hr) as (? & ? & -> & _).
    eapply counters_step;
      [exact HJ | exact Hs | one_shot (proj1 HJ) | live_others | counters_stats s].
  - (* a ring timer *)
    cbn [run_callback].
    rewrite (proj1 HJ tmr Hin) by (rewrite Hcb; discriminate).
    pose proof (live_fired call_of u tmr q Hin) as Hfired.
    rewrite Hcb in Hfired. specialize (Hfired eq_refl).
    destruct (m !! u) as [s|] eqn:Hs;
      [|rewrite ringExpired_stale by auto; fired_stale HJ].
    destruct (stale_dec s) as [Hs'|Hs'];
      [rewrite ringExpired_stale by eauto; fired_stale HJ|].
    apply not_stale in Hs' as (c & Hc & Hr).
    pose proof (cycle_enabled _ _ _ _ _ _ HS Hs Hc) as He.
    destruct (n <? 3) eqn:Hn.
    { destruct (ringExpired_gap u m tm inc (cancel (timer_id tmr) q) (Z.max t (due tmr))
                  nu nt ob un s Hs n c Hc Hr Hn) as (? & ? & -> & _).
      eapply counters_step;
        [exact HJ | exact Hs | one_shot (proj1 HJ) | live_others | counters_stats s]. }
    destruct (2 <=? missedCalls c + 1) eqn:Hd.
    { destruct (thrown (emergencyContacts s)) as [e|] eqn:Hth.
      - destruct (ringExpired_throws u m tm inc (cancel (timer_id tmr) q)
                    (Z.max t (due tmr)) nu nt ob un s Hs n c e Hc Hr Hn Hd Hth)
          as (? & ? & -> & _).
        eapply counters_step;
          [exact HJ | exact Hs | one_shot (proj1 HJ) | live_others | counters_stats s].
      - destruct (ringExpired_dispatch u m tm inc (cancel (timer_id tmr) q)
                    (Z.max t (due tmr)) nu nt ob un s Hs n c Hc Hr Hn Hd Hth)
          as (? & ? & -> & _).
        eapply counters_step;
          [exact HJ | exact Hs | one_shot (proj1 HJ) | live_others | counters_stats s]. }
    destruct (ringExpired_resume u m tm inc (cancel (timer_id tmr) q) (Z.max t (due tmr))
                nu nt ob un s Hs n c Hc Hr Hn Hd He) as (? & ? & -> & _).
    eapply counters_step;
      [exact HJ | exact Hs | one_shot (proj1 HJ) | live_others | counters_stats s].
  - (* a gap timer *)
    cbn [run_callback].
    rewrite (proj1 HJ tmr Hin) by (rewrite Hcb; discriminate).
    pose proof (live_fired call_of u tmr q Hin) as Hfired.
    rewrite Hcb in Hfired. specialize (Hfired eq_refl).
    destruct (m !! u) as [s|] eqn:Hs;
      [|rewrite startIVR_stale by auto; fired_stale HJ].
    destruct (stale_dec s) as [Hs'|Hs'];
      [rewrite startIVR_stale by eauto; fired_stale HJ|].
    apply not_stale in Hs' as (c & Hc & Hr).
    destruct (startIVR_at u m tm inc (cancel (timer_id tmr) q) (Z.max t (due tmr))
                nu nt ob un s Hs (n + 1) c Hc Hr) as (? & ? & -> & _).
    eapply counters_step;
      [exact HJ | exact Hs | one_shot (proj1 HJ) | live_others | counters_stats s].
  - destruct (Hframe _ eq_refl) as [I1 J1]. by apply callback_counters.
Qed.

Lemma exec_counters op w : Inv w → counters_ok w → counters_ok (exec op w).
Proof.
  intros HI HJ. unfold exec. destruct (uncaught w) eqn:Hu; [done|]. clear Hu.
  destruct w as [m tm inc q t nu nt ob un]. pose proof HI as (HS & _). cbn in HS.
  destruct op.
  - unfold post_register. destruct (js_or truthy_str rUserId None) as [u|]; [|done].
    cbn [fst set_sessions sessions timers incidents queue now next_uuid next_timer
         outbox uncaught].
    destruct (m !! u) as [s|] eqn:Hs.
    + eapply counters_step; [exact HJ | exact Hs | one_shot (proj1 HJ) | done |].
      cbn. destruct s as [? ? ? ? ? ? ? ? ? ? ? [? ? ? ?] ?]; cbn. tauto.
    + by apply counters_new.
  - destruct (m !! uid) as [s|] eqn:Hs; [|by rewrite post_checkin_enable_none].
    destruct (post_checkin_enable_at uid m tm inc q t nu nt ob un s Hs rInterval rGrace)
      as (? & ? & -> & _). cbv zeta. cbn [fst].
    eapply counters_step;
      [exact HJ | exact Hs | one_shot (proj1 HJ) | live_others | counters_stats s].
  - destruct (m !! uid) as [s|] eqn:Hs; [|by rewrite post_checkin_disable_none].
    destruct (post_checkin_disable_at uid m tm inc q t nu nt ob un s Hs)
      as (? & ? & -> & _). cbn [fst].
    eapply counters_step;
      [exact HJ | exact Hs | one_shot (proj1 HJ) | live_others | counters_stats s].
  - destruct (m !! uid) as [s|] eqn:Hs; [|by rewrite post_checkin_respond_none].
    destruct (stale_dec s) as [Hst|Hst].
    { by destruct (post_checkin_respond_fail uid checkinId
                     (mkWorld m tm inc q t nu nt ob un) s Hs (or_introl Hst)) as (? & ->). }
    apply not_stale in Hst as (c & Hc & Hr).
    destruct (decide (checkinId = Some (checkin_id c))) as [->|Hne].
    + pose proof (cycle_enabled _ _ _ _ _ _ HS Hs Hc) as He.
      destruct (post_checkin_respond_at uid m tm inc q t nu nt ob un s Hs c Hc Hr He)
        as (? & ? & -> & _). cbn [fst].
      eapply counters_step;
        [exact HJ | exact Hs | one_shot (proj1 HJ) | live_others | counters_stats s].
    + destruct (post_checkin_respond_fail uid checkinId
                  (mkWorld m tm inc q t nu nt ob un) s Hs) as (? & ->); [by eauto | done].
  - destruct (m !! uid) as [s|] eqn:Hs.
    2: { by rewrite post_ivr_respond_no_cycle by (cbn; by rewrite Hs). }
    destruct (stale_dec s) as [Hst|Hst].
    { destruct (post_ivr_respond_fail uid callNumber (mkWorld m tm inc q t nu nt ob un))
        as (? & ? & -> & _); [|done]. unfold stale_at. cbn. by rewrite Hs. }
    apply not_stale in Hst as (c & Hc & Hr).
    pose proof (cycle_enabled _ _ _ _ _ _ HS Hs Hc) as He.
    destruct (post_ivr_respond_at uid m tm inc q t nu nt ob un s Hs callNumber c Hc Hr He)
      as (? & ? & -> & _). cbn [fst].
    eapply counters_step;
      [exact HJ | exact Hs | one_shot (proj1 HJ) | live_others | counters_stats s].
  - destruct (m !! uid) as [s|] eqn:Hs; [|by rewrite post_location_update_none].
    rewrite (post_location_update_at uid m tm inc q t nu nt ob un s Hs). cbn [fst].
    eapply counters_step;
      [exact HJ | exact Hs | one_shot (proj1 HJ) | done | counters_stats s].
  - destruct (m !! uid) as [s|] eqn:Hs; [|by rewrite post_incident_resolve_none].
    destruct (decide (activeIncident s = incidentId)) as [Heq|Hne].
    + destruct incidentId as [r|].
      * pose proof (incident_enabled _ _ _ _ _ _ HS Hs Heq) as He.
        destruct (post_incident_resolve_at uid m tm inc q t nu nt ob un s Hs r Heq He)
          as (? & ? & -> & _). cbn [fst].
        eapply counters_step;
          [exact HJ | exact Hs | one_shot (proj1 HJ) | live_others | counters_stats s].
      * rewrite (post_incident_resolve_throws uid m tm inc q t nu nt ob un s Hs Heq).
        cbn [fst].
        apply (counters_frame m tm inc q t nu nt ob un HJ); [one_shot (proj1 HJ)|].
        intros u'. split; apply live_cleared.
    + by rewrite (post_incident_resolve_other uid m tm inc q t nu nt ob un s Hs
                    incidentId Hne).
  - unfold get_session. cbn. by destruct (m !! uid).
  - destruct (m !! uid) as [s|] eqn:Hs; [|by rewrite post_dev_demo_none].
    destruct (post_dev_demo_at uid m tm inc q t nu nt ob un s Hs) as (? & ? & -> & _).
    cbn [fst].
    eapply counters_step;
      [exact HJ | exact Hs | one_shot (proj1 HJ) | live_others | counters_stats s].
  - destruct (m !! uid) as [s|] eqn:Hs.
    + rewrite (register_socket_at uid m tm inc q t nu nt ob un s Hs).
      eapply counters_step;
        [exact HJ | exact Hs | one_shot (proj1 HJ) | done | counters_stats s].
    + cbv beta delta [register_socket]. by wsimpl.
  - unfold disconnect. cbn. apply (counters_fmap m tm inc q t nu nt ob un HJ).
    intros s. by case_bool_decide.
  - cbn [queue]. destruct (find_timer h q) as [tmr|] eqn:Hf; [|done].
    apply fire_counters; [done | done |]. by apply find_timer_live in Hf.
  - cbn. apply (counters_frame m tm inc q t nu nt ob un HJ); [one_shot (proj1 HJ) | done].
Qed.

Lemma counters_init : counters_ok init.
Proof.
  split; [by intros x Hx%elem_of_nil|]. intros u. cbn. by rewrite lookup_empty.
Qed.

Lemma run_counters ops : ∀ w,
  Inv w → counters_ok w → forallb wf_op ops = true → counters_ok (run ops w).
Proof.
  induction ops as [|op ops IH]; intros w HI HJ Hwf; [done|].
  cbn in Hwf. apply andb_prop in Hwf as [Hop Hops].
  destruct (exec_step op w HI Hop) as (I1 & _).
  unfold run. cbn [foldl]. apply IH; [done | by apply exec_counters | done].
Qed.

(** X23.  The counters of a session are consistent.  In every state the
    server can reach, for every session,
    [0 <= rescueDispatches <= missedCheckins <= totalCheckins] and
    [pending >= 0]: every rescue dispatch stems from a missed check-in and
    every missed check-in from a check-in that was counted, whatever
    timers were left behind. *)
Theorem counters_are_consistent w uid s :
  reachable w → sessions w !! uid = Some s →
  0 ≤ rescueDispatches (stats s)
  ∧ rescueDispatches (stats s) ≤ missedCheckins (stats s)
  ∧ missedCheckins (stats s) ≤ totalCheckins (stats s)
  ∧ 0 ≤ pending (stats s).
Proof.
  intros (ops & Hwf & ->) Hs.
  pose proof (run_counters ops init Inv_init counters_init Hwf) as [_ HJ].
  specialize (HJ uid). rewrite Hs in HJ. lia.
Qed.

(** * Contacts and exceptions over a whole run *)

Section Contacts.
Variables (uid : string) (m : gmap string Session)
          (tm : gmap string (gmap Slot TimerId)) (inc : gmap Uuid Incident)
          (q : list Timer) (t : Time) (nu : Uuid) (nt : TimerId)
          (ob : list Event) (un : option string).
Hypothesis HK : contacts_inv (mkWorld m tm inc q t nu nt ob un).

Lemma contacts_step s s' tm' inc' q' t' nu' nt' ob' un' :
  m !! uid = Some s → emergencyContacts s' = emergencyContacts s →
  contacts_inv (mkWorld (<[uid := s']> m) tm' inc' q' t' nu' nt' ob' un').
Proof.
  intros Hs He u s0. cbn. destruct (decide (u = uid)) as [->|Hne].
  - rewrite lookup_insert_eq. intros [= <-]. rewrite He. by apply (HK uid).
  - rewrite lookup_insert_ne by done. apply (HK u).
Qed.

Lemma contacts_frame tm' inc' q' t' nu' nt' ob' un' :
  contacts_inv (mkWorld m tm' inc' q' t' nu' nt' ob' un').
Proof. exact HK. Qed.

End Contacts.

Ltac contacts_same HK Hs s :=
  eapply contacts_step; [exact HK | exact Hs | by destruct s].

Lemma callback_contacts self cb w :
  Inv w → contacts_inv w → contacts_inv (run_callback self cb w).
Proof.
  destruct w as [m tm inc q t nu nt ob un]. intros (HS & _ & _) HK. cbn in HS.
  assert (Hstale : ∀ u s, m !! u = Some s → stale s →
            stale_at u (mkWorld m tm inc q t nu nt ob un))
    by (intros u s Hs Hst; unfold stale_at; cbn; by rewrite Hs).
  assert (Hnone : ∀ u, m !! u = None → stale_at u (mkWorld m tm inc q t nu nt ob un))
    by (intros u Hs; unfold stale_at; cbn; by rewrite Hs).
  destruct cb as [u|u|u n|u n|u i]; cbn [run_callback];
    destruct (m !! u) as [s|] eqn:Hs.
  - destruct (enabled s) eqn:He.
    + destruct (triggerCheckin_at u m tm inc q t nu nt ob un s Hs He) as (? & ? & -> & _).
      contacts_same HK Hs s.
    + by rewrite (triggerCheckin_off u m tm inc q t nu nt ob un s Hs He).
  - by rewrite triggerCheckin_none.
  - destruct (stale_dec s) as [Hst|Hst]; [by rewrite graceExpired_stale by eauto|].
    apply not_stale in Hst as (c & Hc & Hr).
    destruct (graceExpired_at u m tm inc q t nu nt ob un s Hs c Hc Hr) as (? & ? & -> & _).
    contacts_same HK Hs s.
  - by rewrite graceExpired_stale by eauto.
  - destruct (stale_dec s) as [Hst|Hst]; [by rewrite ringExpired_stale by eauto|].
    apply not_stale in Hst as (c & Hc & Hr).
    pose proof (cycle_enabled _ _ _ _ _ _ HS Hs Hc) as He.
    destruct (n <? 3) eqn:Hn.
    { destruct (ringExpired_gap u m tm inc q t nu nt ob un s Hs n c Hc Hr Hn)
        as (? & ? & -> & _). contacts_same HK Hs s. }
    destruct (2 <=? missedCalls c + 1) eqn:Hd.
    { destruct (thrown (emergencyContacts s)) as [e|] eqn:Hth.
      - destruct (ringExpired_throws u m tm inc q t nu nt ob un s Hs n c e Hc Hr Hn Hd Hth)
          as (? & ? & -> & _). contacts_same HK Hs s.
      - destruct (ringExpired_dispatch u m tm inc q t nu nt ob un s Hs n c Hc Hr Hn Hd Hth)
          as (? & ? & -> & _). contacts_same HK Hs s. }
    destruct (ringExpired_resume u m tm inc q t nu nt ob un s Hs n c Hc Hr Hn Hd He)
      as (? & ? & -> & _). contacts_same HK Hs s.
  - by rewrite ringExpired_stale by eauto.
  - destruct (stale_dec s) as [Hst|Hst]; [by rewrite startIVR_stale by eauto|].
    apply not_stale in Hst as (c & Hc & Hr).
    destruct (startIVR_at u m tm inc q t nu nt ob un s Hs (n + 1) c Hc Hr)
      as (? & ? & -> & _). contacts_same HK Hs s.
  - by rewrite startIVR_stale by eauto.
  - destruct (activeIncident s) as [r|] eqn:Hi.
    + by rewrite (broadcastTick_at u m tm inc q t nu nt ob un s Hs i self r Hi).
    + by rewrite (broadcastTick_off u m tm inc q t nu nt ob un s Hs i self Hi).
  - by rewrite broadcastTick_none.
Qed.

Lemma fire_contacts tmr w : Inv w → contacts_inv w → contacts_inv (fire tmr w).
Proof.
  intros HI HK. unfold fire.
  set (w1 := match period tmr with Some p => _ | None => _ end).
  assert (H1 : Inv w1 ∧ contacts_inv w1).
  { subst w1. destruct w as [m tm inc q t nu nt ob un].
    destruct HI as (HS & HQ & HH). cbn in HS, HQ, HH.
    destruct (period tmr); (split; [|exact HK]); (split; [|split]); cbn; try done.
    - by apply queue_ok_rearm.
    - by apply queue_ok_cancel. }
  destruct H1 as (I1 & K1). by apply callback_contacts.
Qed.

Lemma exec_contacts op w :
  Inv w → registers_contact_list op → contacts_inv w → contacts_inv (exec op w).
Proof.
  intros HI Hop HK. unfold exec. destruct (uncaught w) eqn:Hu; [done|]. clear Hu.
  destruct w as [m tm inc q t nu nt ob un]. pose proof HI as (HS & _). cbn in HS.
  destruct op.
  - unfold post_register. destruct (js_or truthy_str rUserId None) as [u|]; [|done].
    cbn [fst set_sessions sessions timers incidents queue now next_uuid next_timer
         outbox uncaught].
    intros u' s'. cbn. destruct (decide (u' = u)) as [->|Hne].
    + rewrite lookup_insert_eq. intros [= <-]. cbn.
      destruct rContacts as [cv|]; [exact Hop|]. cbn.
      destruct (m !! u) as [s|] eqn:Hs; cbn; [by apply (HK u) | by exists []].
    + rewrite lookup_insert_ne by done. apply (HK u').
  - destruct (m !! uid) as [s|] eqn:Hs; [|by rewrite post_checkin_enable_none].
    destruct (post_checkin_enable_at uid m tm inc q t nu nt ob un s Hs rInterval rGrace)
      as (? & ? & -> & _). cbv zeta. cbn [fst]. contacts_same HK Hs s.
  - destruct (m !! uid) as [s|] eqn:Hs; [|by rewrite post_checkin_disable_none].
    destruct (post_checkin_disable_at uid m tm inc q t nu nt ob un s Hs)
      as (? & ? & -> & _). cbn [fst]. contacts_same HK Hs s.
  - destruct (m !! uid) as [s|] eqn:Hs; [|by rewrite post_checkin_respond_none].
    destruct (stale_dec s) as [Hst|Hst].
    { by destruct (post_checkin_respond_fail uid checkinId
                     (mkWorld m tm inc q t nu nt ob un) s Hs (or_introl Hst)) as (? & ->). }
    apply not_stale in Hst as (c & Hc & Hr).
    destruct (decide (checkinId = Some (checkin_id c))) as [->|Hne].
    + pose proof (cycle_enabled _ _ _ _ _ _ HS Hs Hc) as He.
      destruct (post_checkin_respond_at uid m tm inc q t nu nt ob un s Hs c Hc Hr He)
        as (? & ? & -> & _). cbn [fst]. contacts_same HK Hs s.
    + destruct (post_checkin_respond_fail uid checkinId
                  (mkWorld m tm inc q t nu nt ob un) s Hs) as (? & ->); [by eauto | done].
  - destruct (m !! uid) as [s|] eqn:Hs.
    2: { by rewrite post_ivr_respond_no_cycle by (cbn; by rewrite Hs). }
    destruct (stale_dec s) as [Hst|Hst].
    { destruct (post_ivr_respond_fail uid callNumber (mkWorld m tm inc q t nu nt ob un))
        as (? & ? & -> & _); [|done]. unfold stale_at. cbn. by rewrite Hs. }
    apply not_stale in Hst as (c & Hc & Hr).
    pose proof (cycle_enabled _ _ _ _ _ _ HS Hs Hc) as He.
    destruct (post_ivr_respond_at uid m tm inc q t nu nt ob un s Hs callNumber c Hc Hr He)
      as (? & ? & -> & _). cbn [fst]. contacts_same HK Hs s.
  - destruct (m !! uid) as [s|] eqn:Hs; [|by rewrite post_location_update_none].
    rewrite (post_location_update_at uid m tm inc q t nu nt ob un s Hs). cbn [fst].
    contacts_same HK Hs s.
  - destruct (m !! uid) as [s|] eqn:Hs; [|by rewrite post_incident_resolve_none].
    destruct (decide (activeIncident s = incidentId)) as [Heq|Hne].
    + destruct incidentId as [r|].
      * pose proof (incident_enabled _ _ _ _ _ _ HS Hs Heq) as He.
        destruct (post_incident_resolve_at uid m tm inc q t nu nt ob un s Hs r Heq He)
          as (? & ? & -> & _). cbn [fst]. contacts_same HK Hs s.
      * by rewrite (post_incident_resolve_throws uid m tm inc q t nu nt ob un s Hs Heq).
    + by rewrite (post_incident_resolve_other uid m tm inc q t nu nt ob un s Hs
                    incidentId Hne).
  - unfold get_session. cbn. by destruct (m !! uid).
  - destruct (m !! uid) as [s|] eqn:Hs; [|by rewrite post_dev_demo_none].
    destruct (post_dev_demo_at uid m tm inc q t nu nt ob un s Hs) as (? & ? & -> & _).
    cbn [fst]. contacts_same HK Hs s.
  - destruct (m !! uid) as [s|] eqn:Hs.
    + rewrite (register_socket_at uid m tm inc q t nu nt ob un s Hs).
      contacts_same HK Hs s.
    + cbv beta delta [register_socket]. by wsimpl.
  - unfold disconnect. cbn. intros u s'. cbn. rewrite lookup_fmap.
    destruct (m !! u) as [s|] eqn:Hs; [|done]. intros [= <-].
    pose proof (HK u s Hs) as Hcl. by case_bool_decide; destruct s.
  - cbn [queue]. destruct (find_timer h q) as [tmr|] eqn:Hf; [|done].
    by apply fire_contacts.
  - exact HK.
Qed.

Lemma exec_alive op w :
  Inv w → contacts_inv w → uncaught (exec op w) = uncaught w.
Proof.
  intros HI HK. destruct (uncaught w) eqn:Hu; [by unfold exec; rewrite Hu|].
  rewrite <- Hu.
  assert (Hfire : ∀ h, op = Fire h → uncaught (exec op w) = uncaught w).
  { intros h ->. unfold exec. rewrite Hu.
    destruct (find_timer h (queue w)) as [tmr|]; [|done].
    rewrite fire_uncaught; [done | done |].
    unfold owner_contacts_ok.
    destruct (sessions w !! owner (callback tmr)) as [s|] eqn:Hs; [|done].
    by apply (HK _ _ Hs). }
  destruct op; try (by apply handler_uncaught). by apply (Hfire h).
Qed.

Lemma run_alive ops : ∀ w,
  Inv w → contacts_inv w → forallb wf_op ops = true →
  Forall registers_contact_list ops →
  uncaught (run ops w) = uncaught w ∧ contacts_inv (run ops w).
Proof.
  induction ops as [|op ops IH]; intros w HI HK Hwf Hops; [done|].
  cbn in Hwf. apply andb_prop in Hwf as [Hop Hwf].
  apply list.Forall_cons in Hops as [Hreg Hops].
  destruct (exec_step op w HI Hop) as (I1 & _).
  pose proof (exec_contacts op w HI Hreg HK) as K1.
  unfold run. cbn [foldl]. fold (run ops (exec op w)).
  destruct (IH (exec op w) I1 K1 Hwf Hops) as [E1 E2].
  split; [|done]. rewrite E1. by apply exec_alive.
Qed.

(** X24.  Contacts given as an array keep the process alive.  When every
    register request carries [emergencyContacts] that is absent or an
    array without [null] elements, no timer callback and no handler
    leaves an uncaught exception, whatever the requests and whatever
    timers fire, in any order; and every session then has such an array
    as its contacts. *)
Theorem contact_lists_keep_the_process_alive ops :
  forallb wf_op ops = true → Forall registers_contact_list ops →
  uncaught (run ops init) = None
  ∧ (∀ uid s, sessions (run ops init) !! uid = Some s →
       contact_list (emergencyContacts s))
  ∧ (∀ tmr, uncaught (fire tmr (run ops init)) = None).
Proof.
  intros Hwf Hops.
  assert (K0 : contacts_inv init).
  { intros u s. cbn. by rewrite lookup_empty. }
  destruct (run_alive ops init Inv_init K0 Hwf Hops) as [E K].
  assert (HI : Inv (run ops init)).
  { apply reachable_Inv. by exists ops. }
  split; [exact E|]. split; [exact K|].
  intros tmr. rewrite fire_uncaught; [exact E | exact HI |].
  unfold owner_contacts_ok.
  destruct (sessions (run ops init) !! owner (callback tmr)) as [s|] eqn:Hs; [|done].
  by apply (K _ _ Hs).
Qed.

(** * The properties at concrete runs *)

Lemma reachable_dispatched : reachable dispatched.
Proof. apply reachable_run; [apply reachable_script; reflexivity | reflexivity]. Qed.

(** X4 at user "u" after a rescue dispatch. *)
Lemma respond_then_resolve_leaves_two_checkin_timers_witness :
  reachable dispatched
  ∧ ∃ s c r,
      sessions dispatched !! "u" = Some s ∧ currentCheckin s = Some c
      ∧ responded c = false ∧ activeIncident s = Some r
      ∧ mkTimer (next_timer dispatched)
                (now dispatched + timer_ms (intervalMinutes s * 60 * 1000)) None
                (CbCheckin "u")
          ∈ queue (clearTimers "u" []
                     (post_incident_resolve "u" (Some r)
                        (post_checkin_respond "u" (Some (checkin_id c)) dispatched).1).1).
Proof.
  assert (Hs : ∃ s c r, sessions dispatched !! "u" = Some s ∧ currentCheckin s = Some c
                        ∧ responded c = false ∧ activeIncident s = Some r).
  { eexists _, _, _. split; [run_eval|]. repeat split; reflexivity. }
  destruct Hs as (s & c & r & Hs & Hc & Hresp & Hi).
  split; [exact reachable_dispatched|]. exists s, c, r.
  split; [exact Hs|]. split; [exact Hc|]. split; [exact Hresp|]. split; [exact Hi|].
  exact (proj2 (proj2 (proj2
           (respond_then_resolve_leaves_two_checkin_timers dispatched "u" s c r
              reachable_dispatched Hs Hc Hresp Hi)))).
Defined.

(** X3 at user "u", enabled with an interval of 0.03 minutes: the product
    is 1799.9999999999998, and the timer is due after 1799 ms. *)
Lemma scheduleNextCheckin_arms_one_timer_witness :
  ∃ s, sessions short_interval !! "u" = Some s ∧ enabled s = true
    ∧ intervalMinutes s = 0.03%float
    ∧ queue (scheduleNextCheckin "u" short_interval)
      = queue short_interval ++ [mkTimer (next_timer short_interval)
                                   (now short_interval + 1799) None (CbCheckin "u")].
Proof.
  assert (Hs : ∃ s, sessions short_interval !! "u" = Some s ∧ enabled s = true
                    ∧ intervalMinutes s = 0.03%float).
  { eexists. split; [run_eval|]. split; reflexivity. }
  destruct Hs as (s & Hs & He & Hi). exists s.
  split; [exact Hs|]. split; [exact He|]. split; [exact Hi|].
  pose proof (proj1 (proj1 (proj2 (proj2 (scheduleNextCheckin_arms_one_timer
                                            "u" short_interval))) s Hs He)) as Hq.
  rewrite Hi in Hq. exact Hq.
Defined.

(** X5 at user "u" after a rescue dispatch: the monitor is turned off and
    the broadcast tick has become silent. *)
Lemma disable_contract_witness :
  ∃ s, sessions dispatched !! "u" = Some s
    ∧ (post_checkin_disable "u" dispatched).2 = Json 200 (BSuccess None None)
    ∧ slots_of "u" (timers (post_checkin_disable "u" dispatched).1) = ∅
    ∧ same_store (post_checkin_disable "u" dispatched).1
        (run_callback 7%nat (CbBroadcast "u" 14%nat) (post_checkin_disable "u" dispatched).1).
Proof.
  assert (Hs : ∃ s, sessions dispatched !! "u" = Some s) by (eexists; run_eval).
  destruct Hs as (s & Hs). exists s. split; [exact Hs|].
  destruct (proj2 (disable_contract "u" dispatched) s Hs) as (H1 & _ & H3 & _ & _ & H6).
  split; [exact H1|]. split; [exact H3|].
  exact (proj1 (H6 7%nat (CbBroadcast "u" 14%nat) eq_refl)).
Defined.

(** X6 at user "u": a position without an address. *)
Lemma location_update_contract_witness :
  ∃ s, sessions registered !! "u" = Some s
    ∧ post_location_update "u" (Some 10%Q) (Some 76%Q) None registered
      = (set_sessions
           (<["u" := set_lastLocation
                       (mkLocation (Some 10%Q) (Some 76%Q) (address (lastLocation s))
                                   (Some (now registered))) s]> (sessions registered))
           registered,
         Json 200 (BSuccess None None)).
Proof.
  assert (Hs : ∃ s, sessions registered !! "u" = Some s) by (eexists; run_eval).
  destruct Hs as (s & Hs). exists s. split; [exact Hs|].
  exact (proj1 (proj2 (location_update_contract "u" (Some 10%Q) (Some 76%Q) None registered)
                  s Hs)).
Defined.

(** X7 at user "u" with a subscriber socket: the answer hides it. *)
Lemma responses_hide_the_socket_id_witness :
  ∃ s ses, sessions subscribed !! "u" = Some s ∧ socketId s = Some "sock1"
    ∧ session_of (get_session "u" subscribed).2 = Some ses
    ∧ socketId ses = None.
Proof.
  assert (Hs : ∃ s, sessions subscribed !! "u" = Some s ∧ socketId s = Some "sock1").
  { eexists. split; [run_eval | reflexivity]. }
  destruct Hs as (s & Hs & Hk).
  pose proof (proj1 (proj2 (proj2 responses_hide_the_socket_id)) "u" subscribed s Hs) as Hg.
  assert (Hses : session_of (get_session "u" subscribed).2 = Some (safe s))
    by (rewrite Hg; reflexivity).
  exists s, (safe s). split; [exact Hs|]. split; [exact Hk|]. split; [exact Hses|].
  exact (proj1 (proj1 (proj2 (proj2 (proj2 (proj2 responses_hide_the_socket_id))))
                  "u" subscribed (safe s) Hses)).
Defined.


(** X10 at user "u" after a rescue dispatch: the incident has id 14. *)
Lemma resolve_incident_with_id_witness :
  reachable dispatched
  ∧ ∃ s, sessions dispatched !! "u" = Some s ∧ activeIncident s = Some 14%nat
    ∧ (post_incident_resolve "u" (Some 14%nat) dispatched).2 = Json 200 (BSuccess None None)
    ∧ ∃ s', sessions (post_incident_resolve "u" (Some 14%nat) dispatched).1 !! "u"
            = Some s'
        ∧ activeIncident s' = None ∧ currentCheckin s' = None.
Proof.
  assert (Hs : ∃ s, sessions dispatched !! "u" = Some s ∧ activeIncident s = Some 14%nat).
  { eexists. split; [run_eval | reflexivity]. }
  destruct Hs as (s & Hs & Hi).
  destruct (resolve_incident_with_id dispatched "u" 14%nat reachable_dispatched)
    as (_ & Hok & _ & Hdo).
  split; [exact reachable_dispatched|]. exists s. split; [exact Hs|]. split; [exact Hi|].
  split; [exact (Hok s Hs)|].
  destruct (Hdo s Hs Hi) as (s' & i0 & Hs' & Ha & Hc & _).
  exists s'. split; [exact Hs'|]. split; [exact Ha | exact Hc].
Defined.

(** X11 at user "u" after a rescue dispatch. *)
Lemma reachable_state_invariants_witness :
  reachable dispatched
  ∧ ∃ s, sessions dispatched !! "u" = Some s
    ∧ (intervalMinutes s =? 0)%float = false ∧ (graceSeconds s =? 0)%float = false
    ∧ ∀ r, activeIncident s = Some r → ∃ i, incidents dispatched !! r = Some i.
Proof.
  assert (Hs : ∃ s, sessions dispatched !! "u" = Some s) by (eexists; run_eval).
  destruct Hs as (s & Hs).
  destruct (proj1 (reachable_state_invariants dispatched reachable_dispatched) "u" s Hs)
    as (_ & Hi & Hg & _ & _ & _ & Hinc).
  split; [exact reachable_dispatched|]. exists s. split; [exact Hs|].
  split; [exact Hi|]. split; [exact Hg | exact Hinc].
Defined.

(** X12 for a user registered with [emergencyContacts: 112], when the
    third call rings out. *)
Lemma timer_callbacks_throw_only_in_forEach_witness :
  reachable number_as_contacts
  ∧ uncaught number_as_contacts = None
  ∧ uncaught (run_callback 6%nat (CbRing "u" 3) number_as_contacts) = Some "TypeError".
Proof.
  assert (Hr : reachable number_as_contacts) by (apply reachable_script; reflexivity).
  assert (Hu : uncaught number_as_contacts = None) by run_eval.
  assert (Hs : ∃ s c, sessions number_as_contacts !! "u" = Some s
                      ∧ currentCheckin s = Some c ∧ responded c = false
                      ∧ missedCalls c = 2 ∧ emergencyContacts s = NotArray "112").
  { eexists _, _. split; [run_eval|]. repeat split; reflexivity. }
  destruct Hs as (s & c & Hs & Hc & Hresp & Hm & Hcv).
  assert (Hn : 3 ≤ 3) by lia.
  assert (Hm' : 1 ≤ missedCalls c) by (rewrite Hm; lia).
  assert (Hcl : ¬ contact_list (emergencyContacts s)).
  { intros (cs & Hcs). rewrite Hcv in Hcs. discriminate Hcs. }
  split; [exact Hr|]. split; [exact Hu|].
  exact (proj2 (proj2 (proj2 (timer_callbacks_throw_only_in_forEach number_as_contacts
                                Hr Hu)))
           6%nat "u" 3 s c Hs Hc Hresp Hn Hm' Hcl).
Defined.

(** X13 at the registered user "u" and the socket "sock1". *)
Lemma socket_binding_contract_witness :
  ∃ s, sessions registered !! "u" = Some s
    ∧ outbox (register_socket "sock1" "u" registered)
      = outbox registered ++ [mkEvent "sock1" (socket_registered "u") None]
    ∧ ∀ d, outbox (emit "u" d (register_socket "sock1" "u" registered))
           = outbox (register_socket "sock1" "u" registered)
             ++ [mkEvent "sock1" d (Some (now registered))].
Proof.
  assert (Hs : ∃ s, sessions registered !! "u" = Some s) by (eexists; run_eval).
  destruct Hs as (s & Hs). exists s. split; [exact Hs|].
  destruct (proj1 (proj2 (proj2 (socket_binding_contract "sock1" registered))) "u" s Hs)
    as (_ & H2 & H3).
  split; [exact H2|]. apply H3. discriminate.
Defined.

(** X14 while call #3 rings after two missed calls. *)
Lemma evaluateAndDispatch_threshold_witness :
  ∃ s c s' i, sessions two_missed !! "u" = Some s ∧ currentCheckin s = Some c
    ∧ 2 ≤ missedCalls c
    ∧ sessions (evaluateAndDispatch "u" two_missed) !! "u" = Some s'
    ∧ activeIncident s' = Some i
    ∧ rescueDispatches (stats s') = rescueDispatches (stats s) + 1.
Proof.
  assert (Hs : ∃ s c, sessions two_missed !! "u" = Some s ∧ currentCheckin s = Some c
                      ∧ missedCalls c = 2).
  { eexists _, _. split; [run_eval|]. split; reflexivity. }
  destruct Hs as (s & c & Hs & Hc & Hm).
  assert (Hle : 2 ≤ missedCalls c) by (rewrite Hm; reflexivity || lia).
  destruct (proj1 (proj2 (evaluateAndDispatch_threshold "u" two_missed)) s c Hs Hc Hle)
    as (s' & i & Hs' & Hi & _ & _ & Hr & _).
  exists s, c, s', i. split; [exact Hs|]. split; [exact Hc|]. split; [exact Hle|].
  split; [exact Hs'|]. split; [exact Hi | exact Hr].
Defined.

(** X15 for the id of the browser client and two escalations. *)
Lemma prototype_counts_escalations_witness :
  "user001" ≠ "__proto__"
  ∧ Prototype.lookup_key "user001"
      (locations "user001" [(None, None); (Some 9.9312%Q, Some 76.2673%Q)]
         (Prototype.post_start "user001" (Some "30") Prototype.empty).1)
    = Prototype.ROwn (Prototype.mkUser (Some "30") 2).
Proof.
  assert (Hk : "user001" ≠ "__proto__") by discriminate.
  split; [exact Hk|].
  exact (proj1 (proj2 (prototype_counts_escalations "user001" (Some "30") Prototype.empty
                         [(None, None); (Some 9.9312%Q, Some 76.2673%Q)] Hk))).
Defined.

(** X16 on the backend just started. *)
Lemma proto_key_reaches_object_prototype_witness :
  Prototype.own Prototype.empty !! "__proto__" = None
  ∧ Prototype.proto Prototype.empty = None
  ∧ Prototype.post_ok "__proto__" Prototype.empty
    = (Prototype.mkUsers (Prototype.own Prototype.empty) None true,
       Prototype.Sent "User safe").
Proof.
  split; [reflexivity|]. split; [reflexivity|].
  exact (proj1 (proto_key_reaches_object_prototype Prototype.empty eq_refl eq_refl)).
Defined.

Lemma page_reachable_alerted : page_reachable thirty_minutes alerted.
Proof. by exists true, [Client.StartMonitoring "30"; Client.Fire 0%nat]. Qed.

(** X17 on the page whose alert has fired. *)
Lemma page_has_one_alert_timer_witness :
  page_reachable thirty_minutes alerted
  ∧ filter (λ x, Client.callback x = Client.CbAlert)
      (Client.queue (Client.startTimer thirty_minutes alerted))
    = [Client.mkTimer (Client.next_timer alerted)
         (Client.now alerted + thirty_minutes (Client.intervalMinutes alerted))
         Client.CbAlert].
Proof.
  split; [exact page_reachable_alerted|].
  exact (proj2 (page_has_one_alert_timer thirty_minutes alerted page_reachable_alerted)).
Defined.

(** X18 on the page whose alert has fired: the user confirms, and the
    escalation timer (handle 1) is still there. *)
Lemma escalation_cannot_be_cancelled_witness :
  page_reachable thirty_minutes alerted
  ∧ Client.mkTimer 1%nat 1830000 Client.CbEscalation ∈ Client.queue alerted
  ∧ Client.mkTimer 1%nat 1830000 Client.CbEscalation
      ∈ Client.queue (Client.run thirty_minutes [Client.ConfirmOK; Client.ResetTimer] alerted).
Proof.
  assert (Hx : Client.mkTimer 1%nat 1830000 Client.CbEscalation ∈ Client.queue alerted).
  { assert (Hq : Client.queue alerted = [Client.mkTimer 1%nat 1830000 Client.CbEscalation])
      by run_eval.
    rewrite Hq. apply list_elem_of_here. }
  split; [exact page_reachable_alerted|]. split; [exact Hx|].
  refine (proj1 (escalation_cannot_be_cancelled thirty_minutes alerted
                   (Client.mkTimer 1%nat 1830000 Client.CbEscalation)
                   [Client.ConfirmOK; Client.ResetTimer]
                   page_reachable_alerted Hx eq_refl _)).
  repeat constructor; discriminate.
Defined.

(** X23 at user "u" after a rescue dispatch. *)
Lemma counters_are_consistent_witness :
  reachable dispatched
  ∧ ∃ s, sessions dispatched !! "u" = Some s
    ∧ 0 ≤ rescueDispatches (stats s)
    ∧ rescueDispatches (stats s) ≤ missedCheckins (stats s)
    ∧ missedCheckins (stats s) ≤ totalCheckins (stats s)
    ∧ 0 ≤ pending (stats s).
Proof.
  assert (Hs : ∃ s, sessions dispatched !! "u" = Some s) by (eexists; run_eval).
  destruct Hs as (s & Hs).
  split; [exact reachable_dispatched|]. exists s. split; [exact Hs|].
  exact (counters_are_consistent dispatched "u" s reachable_dispatched Hs).
Defined.

(** X24 on the run of user "u" in demo mode that ends with two rescue
    dispatches: the user registered without contacts. *)
Lemma contact_lists_keep_the_process_alive_witness :
  forallb wf_op (second_cycle ++ unanswered) = true
  ∧ Forall registers_contact_list (second_cycle ++ unanswered)
  ∧ uncaught (run (second_cycle ++ unanswered) init) = None.
Proof.
  assert (Hwf : forallb wf_op (second_cycle ++ unanswered) = true) by reflexivity.
  assert (Hops : Forall registers_contact_list (second_cycle ++ unanswered)).
  { cbv [second_cycle first_cycle unanswered app]. repeat constructor. }
  split; [exact Hwf|]. split; [exact Hops|].
  exact (proj1 (contact_lists_keep_the_process_alive (second_cycle ++ unanswered)
                  Hwf Hops)).
Defined.
